(** * CodeClaw: the graph-structured session index and its query layer

    A shallow embedding of [codeclaw/graph_index.py], of the parts of
    [codeclaw/mcp_server.py] that validate requests and serve them from
    the index, and of the trajectory classifier of
    [codeclaw/classifier.py], followed by the properties proved about
    them.

    Conventions of the embedding.
    - Text is a [string] whose characters stand for the code points
      U+0000..U+00FF; the Python string methods used by the source
      ([strip], [lower], [split], [splitlines], [in]) and the character
      class [\w] are written out for that range.
    - A [dict] whose iteration order the source relies on is an
      association list ([odict]); a [dict] that is only looked up, or
      counted, is a [gmap].
    - Python [int] is [Z].
    - A key that may be missing from a session [dict] is an [option];
      the default of the corresponding [.get] is applied where the
      source applies it. *)

From Stdlib Require Import ZArith Ascii String List Sorted Permutation.
From Stdlib Require Import DecimalString.
From stdpp Require Import base option list gmap strings fin_maps sorting.

Local Open Scope string_scope.
Local Open Scope list_scope.
Local Open Scope Z_scope.

(* ===================================================================== *)
(** * Python text primitives (code points below 256)                      *)
(* ===================================================================== *)

Definition code (c : ascii) : nat := nat_of_ascii c.

Definition between (lo hi : nat) (n : nat) : bool :=
  (Nat.leb lo n && Nat.leb n hi)%bool.

(** [str.isspace] for one character: TAB..CR, FS..US, SPACE, NEL, NBSP. *)
Definition py_isspace (c : ascii) : bool :=
  let n := code c in
  (between 9 13 n || between 28 32 n || Nat.eqb n 133 || Nat.eqb n 160)%bool.

(** [str.lower] for one character: A..Z and the accented capitals
    U+00C0..U+00DE (the multiplication sign U+00D7 has no case). *)
Definition lower_char (c : ascii) : ascii :=
  let n := code c in
  if (between 65 90 n || (between 192 222 n && negb (Nat.eqb n 215)))%bool
  then ascii_of_nat (n + 32) else c.

(** The class [\w] of a [str] pattern: alphanumeric code points and the
    underscore. *)
Definition is_word (c : ascii) : bool :=
  let n := code c in
  (between 48 57 n || between 65 90 n || Nat.eqb n 95 || between 97 122 n
   || Nat.eqb n 170 || between 178 179 n || Nat.eqb n 181
   || between 185 186 n || between 188 190 n
   || between 192 214 n || between 216 246 n || between 248 255 n)%bool.

(** The line boundaries of [str.splitlines]: LF, VT, FF, CR, FS, GS, RS, NEL. *)
Definition is_linebreak (c : ascii) : bool :=
  let n := code c in
  (between 10 13 n || between 28 30 n || Nat.eqb n 133)%bool.

Fixpoint py_lower (s : string) : string :=
  match s with
  | EmptyString => EmptyString
  | String c s' => String (lower_char c) (py_lower s')
  end.

Fixpoint py_lstrip (s : string) : string :=
  match s with
  | EmptyString => EmptyString
  | String c s' => if py_isspace c then py_lstrip s' else s
  end.

Fixpoint py_rstrip (s : string) : string :=
  match s with
  | EmptyString => EmptyString
  | String c s' =>
      match py_rstrip s' with
      | EmptyString => if py_isspace c then EmptyString else String c EmptyString
      | r => String c r
      end
  end.

(** [s.strip()] *)
Definition py_strip (s : string) : string := py_rstrip (py_lstrip s).

(** [s[:n]] for a non-negative constant [n]. *)
Fixpoint str_take (n : nat) (s : string) : string :=
  match n, s with
  | S n', String c s' => String c (str_take n' s')
  | _, _ => EmptyString
  end.

Fixpoint str_drop (n : nat) (s : string) : string :=
  match n, s with
  | S n', String _ s' => str_drop n' s'
  | _, _ => s
  end.

(** [s.startswith(p)] *)
Fixpoint startswith (p s : string) : bool :=
  match p, s with
  | EmptyString, _ => true
  | String a p', String b s' => (Ascii.eqb a b && startswith p' s')%bool
  | String _ _, EmptyString => false
  end.

(** [needle in hay] on strings *)
Fixpoint py_in (needle hay : string) : bool :=
  (startswith needle hay ||
   match hay with
   | EmptyString => false
   | String _ hay' => py_in needle hay'
   end)%bool.

(** The truth value of a string: non-empty. *)
Definition str_truthy (s : string) : bool :=
  match s with EmptyString => false | _ => true end.

(** [s.split(sep)] for a one-character separator. *)
Fixpoint py_split (sep : ascii) (s : string) : list string :=
  match s with
  | EmptyString => [EmptyString]
  | String c s' =>
      if Ascii.eqb c sep then EmptyString :: py_split sep s'
      else match py_split sep s' with
           | h :: t => String c h :: t
           | [] => [String c EmptyString]
           end
  end.

(** [s.split(sep, 1)] when [sep] occurs in [s]: the text before the first
    separator and the text after it; [None] when [sep] does not occur
    (the source tests [sep in s] first). *)
Fixpoint py_split1 (sep : ascii) (s : string) : option (string * string) :=
  match s with
  | EmptyString => None
  | String c s' =>
      if Ascii.eqb c sep then Some (EmptyString, s')
      else match py_split1 sep s' with
           | Some (a, b) => Some (String c a, b)
           | None => None
           end
  end.

(** [s.splitlines()]: lines without their terminators, CR LF counting as
    one terminator, no empty last line after a final terminator. *)
Fixpoint py_splitlines (s : string) : list string :=
  match s with
  | EmptyString => []
  | String c s' =>
      if is_linebreak c then
        match s' with
        | String c' s'' =>
            if (Ascii.eqb c "013" && Ascii.eqb c' "010")%bool
            then
              (* the LF that follows belongs to this terminator: the
                 recursive call on [s'] opens with it and yields an empty
                 first line, which is dropped *)
              EmptyString :: tl (py_splitlines s')
            else EmptyString :: py_splitlines s'
        | EmptyString => [EmptyString]
        end
      else match py_splitlines s' with
           | h :: t => String c h :: t
           | [] => [String c EmptyString]
           end
  end.

(* ===================================================================== *)
(** * A backtracking matcher for sequences of quantified character classes *)
(* ===================================================================== *)

(** One pattern item: a character class with a greedy repetition
    [{lo,hi}]; [hi = None] is unbounded ([+] is [{1,}]). *)
Record re_item := ReItem {
  re_class : ascii → bool;
  re_lo : nat;
  re_hi : option nat
}.

(** How many leading characters of [s] are in [cls], at most [cap]. *)
Fixpoint count_prefix (cls : ascii → bool) (cap : option nat) (s : string) : nat :=
  match s with
  | EmptyString => O
  | String c s' =>
      match cap with
      | Some O => O
      | _ => if cls c then S (count_prefix cls (Nat.pred <$> cap) s') else O
      end
  end.

(** Try the counts [lo + d], [lo + d - 1], ..., [lo] in that order and keep
    the first that lets the rest of the pattern match. *)
Fixpoint first_down (f : nat → option nat) (lo d : nat) : option nat :=
  match f (lo + d)%nat with
  | Some r => Some r
  | None => match d with
            | O => None
            | S d' => first_down f lo d'
            end
  end.

(** [re_match_here items s]: the length of the match of the pattern at
    the start of [s] that the backtracking engine finds, if any. *)
Fixpoint re_match_here (items : list re_item) (s : string) : option nat :=
  match items with
  | [] => Some O
  | it :: rest =>
      let n := count_prefix (re_class it) (re_hi it) s in
      if Nat.ltb n (re_lo it) then None
      else first_down
             (λ k, Nat.add k <$> re_match_here rest (str_drop k s))
             (re_lo it) (n - re_lo it)
  end.

(** [pattern.findall(s)] for a pattern without groups that never matches
    the empty string: scan left to right, and after a match resume at its
    end. [skip] counts the characters of the last match still to pass. *)
Fixpoint re_findall_from (items : list re_item) (skip : nat) (s : string)
  : list string :=
  match s with
  | EmptyString => []
  | String _ s' =>
      match skip with
      | S k => re_findall_from items k s'
      | O =>
          match re_match_here items s with
          | Some len => str_take len s :: re_findall_from items (Nat.pred len) s'
          | None => re_findall_from items O s'
          end
      end
  end.

Definition re_findall (items : list re_item) (s : string) : list string :=
  re_findall_from items O s.

(* ===================================================================== *)
(** * graph_index.py: node naming and extraction                          *)
(* ===================================================================== *)

Definition _TOOL_NODE_PREFIX : string := "tool:".
Definition _FILE_NODE_PREFIX : string := "file:".
Definition _ERROR_NODE_PREFIX : string := "error:".

Definition _normalize_node (label : string) : string :=
  py_lower (py_strip label).

Definition _tool_node (name : string) : string :=
  _TOOL_NODE_PREFIX +:+ _normalize_node name.

Definition _file_node (name : string) : string :=
  _FILE_NODE_PREFIX +:+ _normalize_node name.

Definition _error_node (msg : string) : string :=
  _ERROR_NODE_PREFIX +:+ _normalize_node (str_take 60 msg).

(** The words of [_ERROR_RE = (error|exception|traceback|failed)]. *)
Definition _ERROR_WORDS : list string :=
  ["error"; "exception"; "traceback"; "failed"].

(** [_ERROR_RE.search(line)] as a truth value: with [re.IGNORECASE] a
    line matches when its lowercase form contains one of the words. *)
Definition _ERROR_RE_search (line : string) : bool :=
  existsb (λ w, py_in w (py_lower line)) _ERROR_WORDS.

Definition is_dot (c : ascii) : bool := Ascii.eqb c ".".

(** The class [[\w./\-]]. *)
Definition is_path_char (c : ascii) : bool :=
  (is_word c || Ascii.eqb c "." || Ascii.eqb c "/" || Ascii.eqb c "-")%bool.

(** [_FILE_RE = [\w./\-]+\.\w{1,6}] *)
Definition _FILE_RE : list re_item :=
  [ ReItem is_path_char 1 None; ReItem is_dot 1 (Some 1%nat); ReItem is_word 1 (Some 6%nat) ].

Definition _extract_file_refs (text : string) : list string :=
  take 5 (filter (λ m, orb (py_in "/" m) (py_in "." m) = true)
                 (re_findall _FILE_RE text)).

Definition _extract_error_refs (text : string) : list string :=
  take 3 (omap (λ line, if _ERROR_RE_search line
                        then Some (str_take 60 (py_strip line)) else None)
               (py_splitlines text)).

(* ===================================================================== *)
(** * Insertion-ordered dictionaries                                      *)
(* ===================================================================== *)

(** A Python [dict] read in iteration order: keys in order of first
    insertion, an assignment to a present key keeps its place. *)
Abbreviation odict V := (list (string * V)) (only parsing).

Fixpoint od_get {V} (k : string) (d : odict V) : option V :=
  match d with
  | [] => None
  | (k', v) :: d' => if String.eqb k k' then Some v else od_get k d'
  end.

(** [d[k] = v] *)
Fixpoint od_set {V} (k : string) (v : V) (d : odict V) : odict V :=
  match d with
  | [] => [(k, v)]
  | (k', v') :: d' =>
      if String.eqb k k' then (k', v) :: d' else (k', v') :: od_set k v d'
  end.

Definition od_mem {V} (k : string) (d : odict V) : bool :=
  match od_get k d with Some _ => true | None => false end.

Definition od_keys {V} (d : odict V) : list string := d.*1.

(* ===================================================================== *)
(** * graph_index.py: the graph abstraction and its two backends          *)
(* ===================================================================== *)

(** The attribute dict of an edge. Both backends create an edge with the
    keys [weight] and the caller's [rel]; [weight] is read back with
    [.get("weight", 1)], so it is kept optional here. *)
Record attrs := Attrs {
  weight : option Z;
  rel : string
}.

(** [a.get("weight", 1)] *)
Definition get_weight (a : attrs) : Z := default 1 (weight a).

(** The functions that the module defines once per backend, and the two
    read accesses ([has_edge], [graph[src][dst]]) through which edges are
    observed. *)
Class Graph (G : Type) := {
  make_graph : G;
  add_edge : G → string → string → string → G;
  neighbors : G → string → list string;
  has_node : G → string → bool;
  node_count : G → nat;
  edge_count : G → nat;
  has_edge : G → string → string → bool;
  edge_data : G → string → string → option attrs;
  NETWORKX_AVAILABLE : bool
}.

(** [sum(len(row) for row in table.values())] *)
Definition sum_row_lengths {V} (table : gmap string (list V)) : nat :=
  sum_list_with (λ kv, length kv.2) (map_to_list table).

(** ** The networkx backend

    [networkx.DiGraph] is a library class; the model keeps what the
    module uses of it: the node table, the successor table (per node an
    insertion-ordered dict from successor to attribute dict) and the
    predecessor table (per node the insertion-ordered predecessors; in
    the library it holds the same attribute dict objects as the successor
    table, which the module reads through the successor side only). *)
Module Nx.

Record DiGraph := MkDiGraph {
  _node : gset string;
  _succ : gmap string (odict attrs);
  _pred : gmap string (list string)
}.

Definition empty : DiGraph := MkDiGraph ∅ ∅ ∅.

(** A node not yet in the graph gets an empty row in each table. *)
Definition touch (n : string) (g : DiGraph) : DiGraph :=
  if decide (n ∈ dom (_succ g)) then g
  else MkDiGraph ({[n]} ∪ _node g) (<[n := []]> (_succ g)) (<[n := []]> (_pred g)).

(** [DiGraph.has_edge(u, v)] *)
Definition has_edge (g : DiGraph) (u v : string) : bool :=
  match _succ g !! u with
  | Some row => od_mem v row
  | None => false
  end.

(** [graph[u][v]] *)
Definition getitem (g : DiGraph) (u v : string) : option attrs :=
  _succ g !! u ≫= od_get v.

(** [graph[u][v]["weight"] = w] *)
Definition set_weight (g : DiGraph) (u v : string) (w : Z) : DiGraph :=
  match _succ g !! u with
  | Some row =>
      match od_get v row with
      | Some a =>
          MkDiGraph (_node g)
                    (<[u := od_set v (Attrs (Some w) (rel a)) row]> (_succ g))
                    (_pred g)
      | None => g
      end
  | None => g
  end.

(** [DiGraph.add_edge(u, v, weight=w, rel=r)]: both end points are
    entered, the attribute dict of the edge is created or updated with
    the given keys, and [u] is entered among the predecessors of [v]. *)
Definition add_edge (g : DiGraph) (u v : string) (w : Z) (r : string) : DiGraph :=
  let g := touch v (touch u g) in
  let row := default [] (_succ g !! u) in
  let prow := default [] (_pred g !! v) in
  MkDiGraph (_node g)
            (<[u := od_set v (Attrs (Some w) r) row]> (_succ g))
            (<[v := if decide (u ∈ prow) then prow else prow ++ [u]]> (_pred g)).

(** [node in graph] *)
Definition contains (g : DiGraph) (n : string) : bool :=
  bool_decide (n ∈ _node g).

Definition successors (g : DiGraph) (n : string) : list string :=
  od_keys (default [] (_succ g !! n)).

Definition predecessors (g : DiGraph) (n : string) : list string :=
  default [] (_pred g !! n).

Definition number_of_nodes (g : DiGraph) : nat := size (_node g).

(** The number of edges: the out-degrees summed over the nodes. *)
Definition number_of_edges (g : DiGraph) : nat :=
  sum_row_lengths (_succ g).

Definition _make_graph : DiGraph := empty.

Definition _add_edge (graph : DiGraph) (src dst : string) (r : string) : DiGraph :=
  if has_edge graph src dst then
    match getitem graph src dst with
    | Some a => set_weight graph src dst (get_weight a + 1)
    | None => graph
    end
  else add_edge graph src dst 1 r.

Definition _neighbors (graph : DiGraph) (node : string) : list string :=
  if negb (contains graph node) then []
  else successors graph node ++ predecessors graph node.

Definition _has_node (graph : DiGraph) (node : string) : bool := contains graph node.
Definition _node_count (graph : DiGraph) : nat := number_of_nodes graph.
Definition _edge_count (graph : DiGraph) : nat := number_of_edges graph.
Definition _NETWORKX_AVAILABLE : bool := true.

End Nx.

#[export] Instance nx_graph : Graph Nx.DiGraph := {|
  make_graph := Nx._make_graph;
  add_edge := Nx._add_edge;
  neighbors := Nx._neighbors;
  has_node := Nx._has_node;
  node_count := Nx._node_count;
  edge_count := Nx._edge_count;
  has_edge := Nx.has_edge;
  edge_data := Nx.getitem;
  NETWORKX_AVAILABLE := Nx._NETWORKX_AVAILABLE
|}.

(** ** The dependency-free backend *)

(** The order in which a Python [set] of strings is enumerated is not
    fixed by the language; the backend is therefore parameterised by an
    enumeration of each set. *)
Record set_order := SetOrder {
  set_iter : gset string → list string;
  set_iter_perm : ∀ X, set_iter X ≡ₚ elements X
}.

Definition elements_order : set_order :=
  SetOrder elements (λ X, reflexivity (elements X)).

Module Pure.

(** [_out] and [_in] are [defaultdict]s: reading a missing key with
    [d[k]] enters the key with the default value. *)
Record _PureGraph := MkPureGraph {
  _out : gmap string (odict attrs);
  _in : gmap string (gset string)
}.

Definition empty : _PureGraph := MkPureGraph ∅ ∅.

(** The state of a [defaultdict] after [d[k]] has been evaluated. *)
Definition dd_touch {V} (dflt : V) (k : string) (d : gmap string V) : gmap string V :=
  match d !! k with
  | Some _ => d
  | None => <[k := dflt]> d
  end.

Definition add_edge (g : _PureGraph) (src dst : string) (r : string) : _PureGraph :=
  (* self._out[src] *)
  let out1 := dd_touch [] src (_out g) in
  let row := default [] (out1 !! src) in
  let out2 :=
    match od_get dst row with
    | Some a => <[src := od_set dst (Attrs (Some (get_weight a + 1)) (rel a)) row]> out1
    | None => <[src := od_set dst (Attrs (Some 1) r) row]> out1
    end in
  (* self._in[dst].add(src) *)
  let in1 := <[dst := default ∅ (_in g !! dst) ∪ {[src]}]> (_in g) in
  (* ensure nodes exist *)
  let in2 := dd_touch ∅ src in1 in
  let out3 := dd_touch [] dst out2 in
  MkPureGraph out3 in2.

Definition has_edge (g : _PureGraph) (src dst : string) : bool :=
  od_mem dst (default [] (_out g !! src)).

Definition successors (g : _PureGraph) (node : string) : list string :=
  od_keys (default [] (_out g !! node)).

Definition predecessors (o : set_order) (g : _PureGraph) (node : string) : list string :=
  set_iter o (default ∅ (_in g !! node)).

Definition contains (g : _PureGraph) (node : string) : bool :=
  bool_decide (node ∈ dom (_out g) ∨ node ∈ dom (_in g)).

Definition number_of_nodes (g : _PureGraph) : nat :=
  size (dom (_out g) ∪ dom (_in g)).

Definition number_of_edges (g : _PureGraph) : nat :=
  sum_row_lengths (_out g).

(** [graph[src][dst]], a plain read of the row of [src]. *)
Definition getitem (g : _PureGraph) (src dst : string) : option attrs :=
  _out g !! src ≫= od_get dst.

Definition _make_graph : _PureGraph := empty.

Definition _add_edge (graph : _PureGraph) (src dst : string) (r : string) : _PureGraph :=
  add_edge graph src dst r.

Definition _neighbors (o : set_order) (graph : _PureGraph) (node : string) : list string :=
  if negb (contains graph node) then []
  else successors graph node ++ predecessors o graph node.

Definition _has_node (graph : _PureGraph) (node : string) : bool := contains graph node.
Definition _node_count (graph : _PureGraph) : nat := number_of_nodes graph.
Definition _edge_count (graph : _PureGraph) : nat := number_of_edges graph.
Definition _NETWORKX_AVAILABLE : bool := false.

End Pure.

Definition pure_graph (o : set_order) : Graph Pure._PureGraph := {|
  make_graph := Pure._make_graph;
  add_edge := Pure._add_edge;
  neighbors := Pure._neighbors o;
  has_node := Pure._has_node;
  node_count := Pure._node_count;
  edge_count := Pure._edge_count;
  has_edge := Pure.has_edge;
  edge_data := Pure.getitem;
  NETWORKX_AVAILABLE := Pure._NETWORKX_AVAILABLE
|}.

(* ===================================================================== *)
(** * Session records                                                     *)
(* ===================================================================== *)

(** A tool-use record; a missing [tool] or [input] reads as the empty
    string, the default of the source's [.get]. *)
Record ToolUse := MkToolUse {
  tool : string;
  input : string
}.

(** A message; a missing [content] reads as [""], a missing [tool_uses]
    as the empty list. *)
Record Message := MkMessage {
  role : option string;
  content : string;
  tool_uses : list ToolUse
}.

(** A session [dict]. [obj_id] is the identity [id(session)] of the dict
    object, which the index falls back to when the key [session_id] is
    missing; it is not a key of the dict. *)
Record Session := MkSession {
  session_id : option string;
  project : option string;
  trajectory_type : option string;
  model : option string;
  start_time : option string;
  messages : option (list Message);
  obj_id : N
}.

(** [session.get("messages", [])] *)
Definition get_messages (s : Session) : list Message := default [] (messages s).

(** The truth value of a session [dict]: it has at least one key. *)
Definition session_truthy (s : Session) : bool :=
  (bool_decide (is_Some (session_id s)) || bool_decide (is_Some (project s))
   || bool_decide (is_Some (trajectory_type s)) || bool_decide (is_Some (model s))
   || bool_decide (is_Some (start_time s)) || bool_decide (is_Some (messages s)))%bool.

(** [str(n)] for a non-negative integer. *)
Definition str_of_N (n : N) : string := NilEmpty.string_of_uint (N.to_uint n).

(** [str(session.get("session_id", id(session)))] *)
Definition session_key (s : Session) : string :=
  match session_id s with
  | Some x => x
  | None => str_of_N (obj_id s)
  end.

(* ===================================================================== *)
(** * graph_index.py: the session indexer and GraphIndex                  *)
(* ===================================================================== *)

(** [sorted(l, key=key)]: the stable sort by ascending key. *)
Fixpoint insert_by {A} (key : A → Z) (x : A) (l : list A) : list A :=
  match l with
  | [] => [x]
  | y :: l' => if key x <=? key y then x :: y :: l' else y :: insert_by key x l'
  end.

Definition py_sorted {A} (key : A → Z) (l : list A) : list A :=
  foldr (insert_by key) [] l.

(** [l[:k]] for any integer [k]: a negative [k] counts from the end. *)
Definition py_slice_to {A} (k : Z) (l : list A) : list A :=
  if 0 <=? k then take (Z.to_nat k) l
  else take (length l - Z.to_nat (- k)) l.

(** [d[k] += n] on a [defaultdict(int)]. *)
Definition od_add (k : string) (n : Z) (d : odict Z) : odict Z :=
  od_set k (default 0 (od_get k d) + n) d.

Record Stats := MkStats {
  st_nodes : nat;
  st_edges : nat;
  st_sessions : nat;
  st_networkx_available : bool
}.

Section Index.
Context {G : Type} {graph_ops : Graph G}.

(** The body of the [for tu in msg.get("tool_uses", [])] loop of
    [_index_session]; the state is the graph and the tool sequence. *)
Definition index_tool_use (st : G * list string) (tu : ToolUse) : G * list string :=
  let '(graph, tool_seq) := st in
  let tool_name := py_strip (tool tu) in
  if negb (str_truthy tool_name) then st
  else
    let tnode := _tool_node tool_name in
    let tool_seq := tool_seq ++ [tnode] in
    let graph :=
      foldl (λ g fref, add_edge g (_file_node fref) tnode "accessed_by")
            graph (_extract_file_refs (input tu)) in
    (graph, tool_seq).

(** The body of the [for msg in messages] loop. *)
Definition index_message (st : G * list string) (msg : Message) : G * list string :=
  let '(graph, tool_seq) := st in
  let graph :=
    foldl (λ g fref, let fnode := _file_node fref in add_edge g fnode fnode "self")
          graph (_extract_file_refs (content msg)) in
  let graph :=
    if bool_decide (role msg = Some "user" ∨ role msg = Some "tool_result") then
      foldl (λ g err, let enode := _error_node err in add_edge g enode enode "self")
            graph (_extract_error_refs (content msg))
    else graph in
  foldl index_tool_use (graph, tool_seq) (tool_uses msg).

Definition _index_session (graph : G) (session : Session) : G :=
  let messages := get_messages session in
  let is_successful :=
    negb (bool_decide (trajectory_type session = Some "correction_loop")) in
  let '(graph, tool_seq) := foldl index_message (graph, []) messages in
  foldl (λ g i,
           let rel := if is_successful then "led_to_success" else "co-occurs" in
           add_edge g (tool_seq !!! i) (tool_seq !!! (i + 1)%nat) rel)
        graph (seq 0 (length tool_seq - 1)).

Record GraphIndex := MkGraphIndex {
  _graph : G;
  _node_to_sessions : gmap string (list string);
  _sessions : gmap string Session
}.

(** [GraphIndex()] *)
Definition new_index : GraphIndex := MkGraphIndex make_graph ∅ ∅.

(** The innermost statement of [add_session]: enter [session_id] in the
    contributor list of the tool node unless it is there. *)
Definition record_tool (session_id : string) (nts : gmap string (list string))
           (tu : ToolUse) : gmap string (list string) :=
  let tool_name := py_strip (tool tu) in
  if str_truthy tool_name then
    let tnode := _tool_node tool_name in
    let l := default [] (nts !! tnode) in
    if bool_decide (session_id ∈ l) then <[tnode := l]> nts
    else <[tnode := l ++ [session_id]]> nts
  else nts.

Definition add_session (self : GraphIndex) (session : Session) : GraphIndex :=
  let graph := _index_session (_graph self) session in
  let session_id := session_key session in
  let sessions := <[session_id := session]> (_sessions self) in
  let nts :=
    foldl (λ nts msg, foldl (record_tool session_id) nts (tool_uses msg))
          (_node_to_sessions self) (get_messages session) in
  MkGraphIndex graph nts sessions.

(** [build] assigns a fresh graph and fresh tables to [self] before
    adding the sessions. *)
Definition build (self : GraphIndex) (sessions : list Session) : GraphIndex :=
  let self := MkGraphIndex make_graph ∅ ∅ in
  foldl add_session self sessions.

(** [self._node_to_sessions.get(node, [])] *)
Definition contributors (self : GraphIndex) (node : string) : list string :=
  default [] (_node_to_sessions self !! node).

(** The body of the [for node in context_nodes] loop of [query]. *)
Definition score_node (self : GraphIndex) (candidate_scores : odict Z) (node : string)
  : odict Z :=
  let norm := _normalize_node node in
  let candidate_scores :=
    foldl (λ cs sid, od_add sid 2 cs) candidate_scores (contributors self norm) in
  foldl (λ cs neighbor,
           foldl (λ cs sid, od_add sid 1 cs) cs (contributors self neighbor))
        candidate_scores (neighbors (_graph self) norm).

(** The body of the [for sid, _score in ranked[:max_results]] loop of
    [query]: the stored record of [sid], kept when it is there and
    truthy. *)
Definition record_of (self : GraphIndex) (entry : string * Z) : option Session :=
  let '(sid, _score) := entry in
  match _sessions self !! sid with
  | Some session => if session_truthy session then Some session else None
  | None => None
  end.

Definition query (self : GraphIndex) (context_nodes : list string) (max_results : Z)
  : list Session :=
  match context_nodes with
  | [] => []
  | _ =>
      let candidate_scores := foldl (score_node self) [] context_nodes in
      let ranked := py_sorted (λ x, - x.2) candidate_scores in
      omap (record_of self) (py_slice_to max_results ranked)
  end.

Definition stats (self : GraphIndex) : Stats :=
  MkStats (node_count (_graph self)) (edge_count (_graph self))
          (size (_sessions self)) NETWORKX_AVAILABLE.

End Index.

Arguments GraphIndex G : clear implicits.

(* ===================================================================== *)
(** * mcp_server.py                                                       *)
(* ===================================================================== *)

(** The scalar values that occur in the keyword arguments of a payload
    and in a statistics dict. *)
Inductive jval :=
  | JInt (n : Z)
  | JBool (b : bool)
  | JStr (s : string)
  | JStrs (l : list string).

(** A JSON object with scalar members, in key order. *)
Abbreviation jobject := (list (string * jval)) (only parsing).

(** What a call of a foreign method does, for the objects of [IndexObj]:
    it returns or it raises an instance of [Exception]. A call that
    raises any other [BaseException] is outside this type; [AnyIndex]
    below has it. *)
Inductive outcome (A : Type) :=
  | Returns (a : A)
  | Raises.
Arguments Returns {A} a.
Arguments Raises {A}.

(** The index object that the service holds. It comes from an injectable
    factory and is typed [Any]: [io_stats] is [None] when the object has
    no attribute [stats]; otherwise it is the outcome of [stats()], whose
    value is [Some d] for a dict [d] and [None] for any other value.
    [io_query] is the method [query]. The type leaves out the objects
    whose attribute lookup raises and those whose [stats()] raises a
    [BaseException] that is no [Exception]; [AnyIndex.meta] models
    [meta] over these too. *)
Record IndexObj := MkIndexObj {
  io_stats : option (outcome (option jobject));
  io_query : list string → Z → list Session
}.

(** The dict that [GraphIndex.stats] returns. *)
Definition stats_dict (st : Stats) : jobject :=
  [ ("nodes", JInt (Z.of_nat (st_nodes st)));
    ("edges", JInt (Z.of_nat (st_edges st)));
    ("sessions", JInt (Z.of_nat (st_sessions st)));
    ("networkx_available", JBool (st_networkx_available st)) ].

(** A [GraphIndex] seen as the object the service holds. *)
Definition graph_index_obj {G} {graph_ops : Graph G} (idx : GraphIndex G) : IndexObj :=
  MkIndexObj (Some (Returns (Some (stats_dict (stats idx))))) (query idx).

(** The default collaborator: [GraphIndex()] followed by [build]. *)
Definition graph_index_factory {G} {graph_ops : Graph G} (sessions : list Session)
  : IndexObj :=
  graph_index_obj (build new_index sessions).

Module Mcp.

Record Summary := MkSummary {
  sm_session_id : option string;
  sm_project : option string;
  sm_trajectory_type : option string;
  sm_model : option string;
  sm_start_time : option string;
  sm_message_count : nat;
  sm_tool_sequence : list string;
  sm_rank : option Z
}.

Record Meta := MkMeta {
  session_count : nat;
  project_count : nat;
  refresh_count : nat;
  last_refresh_ms : Z;
  index_stats : jobject
}.

(** The dict that is serialised by [_ok_payload] and [_error_payload]:
    the results or the error, the keyword arguments of the call, and
    the service's [meta()]. *)
Inductive Envelope :=
  | OkPayload (results : list Summary) (kwargs : jobject) (meta : Meta)
  | ErrorPayload (code message : string) (kwargs : jobject) (meta : Meta).

Definition _ok_payload := OkPayload.
Definition _error_payload := ErrorPayload.

Definition _session_summary (session : Session) (rank : option Z) : Summary :=
  let tool_uses :=
    foldl (λ acc message,
             foldl (λ acc tool_use,
                      let tool_name := py_strip (tool tool_use) in
                      if str_truthy tool_name then acc ++ [tool_name] else acc)
                   acc (tool_uses message))
          [] (get_messages session) in
  MkSummary (session_id session) (project session) (trajectory_type session)
            (model session) (start_time session)
            (length (get_messages session)) (take 20 tool_uses) rank.

Definition allowed_prefixes : list string := ["tool"; "file"; "error"].

Record parse_state := MkParse {
  ps_nodes : list string;
  ps_invalid_tokens : list string;
  ps_seen : gset string
}.

(** The body of the [for raw in context.split(",")] loop. [py_split1]
    is [None] exactly when [":"] does not occur in [lowered], which is
    the first test of the source. *)
Definition parse_token (st : parse_state) (raw : string) : parse_state :=
  let token := py_strip raw in
  if negb (str_truthy token) then st
  else
    let lowered := py_lower token in
    match py_split1 ":" lowered with
    | None => MkParse (ps_nodes st) (ps_invalid_tokens st ++ [token]) (ps_seen st)
    | Some (prefix, value) =>
        let value := py_strip value in
        if (negb (bool_decide (prefix ∈ allowed_prefixes)) || negb (str_truthy value))%bool
        then MkParse (ps_nodes st) (ps_invalid_tokens st ++ [token]) (ps_seen st)
        else
          let normalized := prefix +:+ ":" +:+ value in
          if bool_decide (normalized ∈ ps_seen st) then st
          else MkParse (ps_nodes st ++ [normalized]) (ps_invalid_tokens st)
                       ({[normalized]} ∪ ps_seen st)
    end.

Definition _parse_context_nodes (context : string) : list string * list string :=
  let st := foldl parse_token (MkParse [] [] ∅) (py_split "," context) in
  (ps_nodes st, ps_invalid_tokens st).

(** A project descriptor as [refresh] reads it. *)
Record Project := MkProject {
  dir_name : option string;
  source : option string
}.

(** The service. The three collaborators it was constructed with are
    kept as what they return: the discovered projects, the sessions
    parsed for a directory name and a source tag, and the index that
    the factory yields once [build] has run on a session list.
    [_elapsed_ms] is the reading of the timer taken by [refresh], and
    [_last_refresh_ms] the recorded one, both in hundredths of a
    millisecond. *)
Record SessionIndexService := MkService {
  _discover_projects : list Project;
  _parse_project_sessions : string → string → list Session;
  _graph_index_factory : list Session → IndexObj;
  _elapsed_ms : Z;
  _sessions : option (list Session);
  _index : option IndexObj;
  _project_count : nat;
  _refresh_count : nat;
  _last_refresh_ms : Z
}.

Definition meta (self : SessionIndexService) : Meta :=
  let count := length (default [] (_sessions self)) in
  let index_stats :=
    match _index self with
    | Some index =>
        match io_stats index with
        | Some (Returns (Some maybe_stats)) => maybe_stats
        | Some (Returns None) => []
        | Some Raises => []
        | None => []
        end
    | None => []
    end in
  MkMeta count (_project_count self) (_refresh_count self)
         (_last_refresh_ms self) index_stats.

Definition refresh (self : SessionIndexService) : Meta * SessionIndexService :=
  let projects := _discover_projects self in
  let sessions :=
    foldl (λ acc project,
             acc ++ _parse_project_sessions self
                      (default "" (dir_name project))
                      (default "claude" (source project)))
          [] projects in
  let index := _graph_index_factory self sessions in
  let self :=
    MkService (_discover_projects self) (_parse_project_sessions self)
              (_graph_index_factory self) (_elapsed_ms self)
              (Some sessions) (Some index) (length projects)
              (S (_refresh_count self)) (_elapsed_ms self) in
  (meta self, self).

Definition _ensure_loaded (self : SessionIndexService) : SessionIndexService :=
  if bool_decide (_sessions self = None ∨ _index self = None)
  then (refresh self).2 else self.

Definition sessions (self : SessionIndexService)
  : list Session * SessionIndexService :=
  let self := _ensure_loaded self in
  (default [] (_sessions self), self).

Definition index (self : SessionIndexService)
  : option IndexObj * SessionIndexService :=
  let self := _ensure_loaded self in
  (_index self, self).

(** The body of the scan of [search_past_solutions]; the flag of the
    state records that the loop has been left by [break]. *)
Definition search_step (needle : string) (max_results : Z)
           (st : list Summary * bool) (session : Session) : list Summary * bool :=
  let '(summaries, stopped) := st in
  if stopped then st
  else
    let content_match :=
      existsb (λ message, py_in needle (py_lower (content message)))
              (get_messages session) in
    if (negb content_match
        && negb (py_in needle (py_lower (default "" (project session)))))%bool
    then st
    else
      let summaries :=
        summaries ++ [_session_summary session (Some (Z.of_nat (length summaries) + 1))] in
      (summaries, bool_decide (Z.of_nat (length summaries) >= max_results)).

Definition search_past_solutions (service : SessionIndexService)
           (query : string) (max_results : Z) : Envelope * SessionIndexService :=
  let needle := py_strip (py_lower query) in
  if negb (str_truthy needle) then
    (_error_payload "invalid_query" "query must be non-empty text."
                    [("provided_query", JStr query)] (meta service), service)
  else if max_results <=? 0 then
    (_error_payload "invalid_max_results" "max_results must be greater than 0."
                    [("max_results", JInt max_results)] (meta service), service)
  else
    let '(cached, service) := sessions service in
    let summaries := (foldl (search_step needle max_results) ([], false) cached).1 in
    (_ok_payload summaries
                 [("query", JStr needle);
                  ("returned", JInt (Z.of_nat (length summaries)));
                  ("max_results", JInt max_results)]
                 (meta service), service).

Definition find_similar_sessions (service : SessionIndexService)
           (context : string) (max_results : Z) : Envelope * SessionIndexService :=
  if max_results <=? 0 then
    (_error_payload "invalid_max_results" "max_results must be greater than 0."
                    [("max_results", JInt max_results)] (meta service), service)
  else
    let '(nodes, invalid_tokens) := _parse_context_nodes context in
    match nodes with
    | [] =>
        (_error_payload "invalid_context"
           "context must include at least one node (tool:, file:, or error:)."
           [("invalid_tokens", JStrs invalid_tokens); ("context", JStr context)]
           (meta service), service)
    | _ =>
        let '(idx, service) := index service in
        (* [index()] has loaded the service, so an index object is there *)
        let found :=
          match idx with
          | Some idx => io_query idx nodes max_results
          | None => []
          end in
        let results :=
          imap (λ i session, _session_summary session (Some (Z.of_nat i + 1))) found in
        (_ok_payload results
                     [("context_nodes", JStrs nodes);
                      ("invalid_tokens", JStrs invalid_tokens);
                      ("returned", JInt (Z.of_nat (length results)));
                      ("max_results", JInt max_results);
                      ("ranking", JStr "graph_similarity")]
                     (meta service), service)
    end.

End Mcp.

(* ===================================================================== *)
(** * classifier.py: the trajectory classifier                            *)
(* ===================================================================== *)

Definition CORRECTION_SIGNALS : list string :=
  [ "wrong"; "error"; "that's not"; "fix"; "broken"; "failed"; "doesn't work";
    "incorrect"; "bug"; "not what i"; "that won't"; "not right" ].

Definition DEBUG_TOOLS : list string := ["bash"; "python"; "execute"].

Definition REFACTOR_SIGNALS : list string :=
  [ "refactor"; "clean up"; "rewrite"; "simplify"; "restructure"; "reorganize";
    "consolidate" ].

(** [any(sig in content for sig in signals)] *)
Definition any_signal (signals : list string) (content : string) : bool :=
  existsb (λ sig, py_in sig content) signals.

Definition classify_trajectory (session : Session) : string :=
  let messages := get_messages session in
  (* a user message after the first message that carries a correction signal *)
  if existsb (λ im : nat * Message,
                let '(i, msg) := im in
                (bool_decide (role msg = Some "user") && bool_decide (0 < i)%nat
                 && any_signal CORRECTION_SIGNALS (py_lower (content msg)))%bool)
             (imap pair messages)
  then "correction_loop"
  else
    let has_bash :=
      existsb (λ msg,
                 existsb (λ t, bool_decide (py_lower (tool t) ∈ DEBUG_TOOLS))
                         (tool_uses msg))
              (filter (λ msg, role msg = Some "assistant") messages) in
    let has_error_output :=
      existsb (λ msg,
                 (py_in "error" (py_lower (content msg))
                  || py_in "traceback" (py_lower (content msg)))%bool)
              messages in
    if (has_bash && has_error_output)%bool then "debugging_trace"
    else
      let first_user := head (filter (λ m, role m = Some "user") messages) in
      let refactor :=
        match first_user with
        | Some first_user => any_signal REFACTOR_SIGNALS (py_lower (content first_user))
        | None => false
        end in
      if refactor then "refactor"
      else if (bool_decide (8 < length messages)%nat && has_bash)%bool
      then "iterative_build"
      else "sft_clean".

(* ===================================================================== *)
(** * mcp_server.py: the other tools                                      *)
(* ===================================================================== *)

Module Tools.

(** The dict that a tool serialises when its results are not a list of
    summaries: the results, the keyword arguments of [_ok_payload] (a
    member is [None] where the source passes [None]) or of
    [_error_payload], and the service's [meta()]. *)
Inductive Reply (R : Type) :=
  | Ok (results : R) (kwargs : list (string * option jval)) (meta : Mcp.Meta)
  | Error (code message : string) (kwargs : jobject) (meta : Mcp.Meta).
Arguments Ok {R} results kwargs meta.
Arguments Error {R} code message kwargs meta.

Definition refresh_index (service : Mcp.SessionIndexService)
  : Mcp.Envelope * Mcp.SessionIndexService :=
  let '(meta, service) := Mcp.refresh service in
  (Mcp._ok_payload [] [("action", JStr "index_refreshed")] meta, service).

(** The value of one project in the result of [get_project_patterns]. *)
Record ProjectStats := MkProjectStats {
  ps_session_count : Z;
  ps_tool_counts : odict Z
}.

(** The body of the two inner loops of [get_project_patterns]. *)
Definition count_tool (tool_counts : odict Z) (tool_use : ToolUse) : odict Z :=
  let tool_name := py_strip (tool tool_use) in
  if negb (str_truthy tool_name) then tool_counts
  else od_set tool_name (default 0 (od_get tool_name tool_counts) + 1) tool_counts.

(** [str(session.get("project") or "unknown")] *)
Definition project_name_of (session : Session) : string :=
  match project session with
  | Some p => if str_truthy p then p else "unknown"
  | None => "unknown"
  end.

(** The body of the [for session in service.sessions()] loop of
    [get_project_patterns]. *)
Definition patterns_step (project_filter : option string)
           (per_project : odict ProjectStats) (session : Session)
  : odict ProjectStats :=
  let project_name := project_name_of session in
  if match project_filter with
     | Some f => (str_truthy f && negb (String.eqb project_name f))%bool
     | None => false
     end
  then per_project
  else
    let stats := default (MkProjectStats 0 []) (od_get project_name per_project) in
    let tool_counts :=
      foldl (λ tc message, foldl count_tool tc (tool_uses message))
            (ps_tool_counts stats) (get_messages session) in
    od_set project_name (MkProjectStats (ps_session_count stats + 1) tool_counts)
           per_project.

Definition get_project_patterns (service : Mcp.SessionIndexService)
           (project : option string)
  : Reply (odict ProjectStats) * Mcp.SessionIndexService :=
  let project_filter := py_strip <$> project in
  match project, project_filter with
  | Some project, Some EmptyString =>
      (Error "invalid_project" "project filter must be non-empty when provided."
             [("project", JStr project)] (Mcp.meta service), service)
  | _, _ =>
      let '(cached, service) := Mcp.sessions service in
      let per_project := foldl (patterns_step project_filter) [] cached in
      (Ok per_project
          [("project_filter", JStr <$> project_filter);
           ("matched_projects", Some (JInt (Z.of_nat (length per_project))))]
          (Mcp.meta service), service)
  end.

Definition get_trajectory_stats (classify_fn : Session → string)
           (service : Mcp.SessionIndexService)
  : Reply (odict Z) * Mcp.SessionIndexService :=
  let '(cached, service) := Mcp.sessions service in
  let counts :=
    foldl (λ counts session,
             let label := classify_fn session in
             od_set label (default 0 (od_get label counts) + 1) counts)
          [] cached in
  (Ok counts [("unique_trajectories", Some (JInt (Z.of_nat (length counts))))]
      (Mcp.meta service), service).

(** [str(session.get("session_id"))]: a missing identifier reads as the
    text of [None]. *)
Definition str_of_session_id (session : Session) : string :=
  default "None" (session_id session).

Definition get_session (service : Mcp.SessionIndexService) (session_id : string)
  : Reply Session * Mcp.SessionIndexService :=
  let lookup := py_strip session_id in
  if negb (str_truthy lookup) then
    (Error "invalid_session_id" "session_id must be non-empty."
           [("session_id", JStr session_id)] (Mcp.meta service), service)
  else
    let '(cached, service) := Mcp.sessions service in
    match List.find (λ session, String.eqb (str_of_session_id session) lookup) cached with
    | Some session =>
        (Ok session [("session_id", Some (JStr lookup))] (Mcp.meta service), service)
    | None =>
        (Error "session_not_found" "Session ID was not found in the local cache."
               [("session_id", JStr lookup)] (Mcp.meta service), service)
    end.

End Tools.

(* ===================================================================== *)
(** * mcp_server.py: [meta] over an arbitrary index object                *)
(* ===================================================================== *)

(** The index that the service holds comes from an injectable factory
    and is typed [Any]. [IndexObj] covers the objects whose attribute
    [stats] is looked up without an exception and whose [stats()] raises
    instances of [Exception] only; [Mcp.meta] and the tools are modelled
    over these. This module models [meta] for every object it can be
    given. It takes the five fields that [meta] reads under the lock.
    [hasattr(index, "stats")] stands outside the [try]: it answers
    [False] when the lookup raises [AttributeError] and lets any other
    exception of the lookup through. The call [index.stats()] stands
    inside the [try], whose [except Exception] catches the instances of
    [Exception] and lets every other [BaseException] through. *)
Module AnyIndex.

(** What is raised: an instance of [Exception], or a [BaseException]
    that is none ([KeyboardInterrupt], [SystemExit], [GeneratorExit]). *)
Inductive raised :=
  | AnException
  | NotAnException.

Inductive result (A : Type) :=
  | Value (a : A)
  | Raised (e : raised).
Arguments Value {A} a.
Arguments Raised {A} e.

(** The attribute [stats] of an object: its lookup raises
    [AttributeError], or it raises something else, or it yields a
    value, whose call returns (a dict [Some d], or any other value
    [None]) or raises. *)
Inductive stats_attribute :=
  | Absent
  | LookupRaises (e : raised)
  | Method (call : result (option jobject)).

(** An object of [IndexObj] as an arbitrary object. *)
Definition of_index_obj (index : IndexObj) : stats_attribute :=
  match io_stats index with
  | None => Absent
  | Some (Returns maybe_stats) => Method (Value maybe_stats)
  | Some Raises => Method (Raised AnException)
  end.

Definition meta (_sessions : option (list Session))
           (_project_count _refresh_count : nat) (_last_refresh_ms : Z)
           (_index : option stats_attribute) : result Mcp.Meta :=
  let count := length (default [] _sessions) in
  let returned (index_stats : jobject) :=
    Value (Mcp.MkMeta count _project_count _refresh_count _last_refresh_ms index_stats) in
  match _index with
  | None => returned []
  | Some index =>
      match index with
      | Absent => returned []
      | LookupRaises e => Raised e
      | Method (Value (Some maybe_stats)) => returned maybe_stats
      | Method (Value None) => returned []
      | Method (Raised AnException) => returned []
      | Method (Raised NotAnException) => Raised NotAnException
      end
  end.

End AnyIndex.

(* ===================================================================== *)
(** * The vocabulary of the specification                                 *)
(* ===================================================================== *)

(** ** Text *)

(** A string that does not open with white space. *)
Definition no_lead (s : string) : Prop :=
  match s with
  | EmptyString => True
  | String c _ => py_isspace c = false
  end.

(** Strings made of white space only. *)
Fixpoint all_space (s : string) : bool :=
  match s with
  | EmptyString => true
  | String c s' => (py_isspace c && all_space s')%bool
  end.

(** ** Scores and rankings *)

(** The sum of a list of integers. *)
Definition sumZ (l : list Z) : Z := foldr Z.add 0 l.

(** How many times [sid] is listed in [l]. *)
Definition occ (sid : string) (l : list string) : Z :=
  Z.of_nat (length (filter (λ x, x = sid) l)).

(** The distinct elements of [l], each at the place of its first
    appearance. *)
Definition first_seen `{EqDecision A} (l : list A) : list A :=
  foldl (λ acc k, if bool_decide (k ∈ acc) then acc else acc ++ [k]) [] l.

(** What [award]s a list of (identifier, points) pairs adds up to for one
    identifier. *)
Definition total (sid : string) (aw : list (string * Z)) : Z :=
  sumZ ((filter (λ p, p.1 = sid) aw).*2).

Section Score.
Context {G : Type} {graph_ops : Graph G}.
Implicit Types (self : GraphIndex G).

(** The points that one input node hands out, in the order in which the
    loops of [query] reach them: 2 to each contributor of the
    normalised node, then 1 to each contributor of each neighbor. *)
Definition node_awards self (node : string) : list (string * Z) :=
  let norm := _normalize_node node in
  ((λ sid, (sid, 2)) <$> contributors self norm) ++
  (neighbors (_graph self) norm ≫= λ nb, (λ sid, (sid, 1)) <$> contributors self nb).

Definition awards self (context_nodes : list string) : list (string * Z) :=
  context_nodes ≫= node_awards self.

(** The score of a session identifier as the specification words it:
    for each input node, 2 points per listing among the contributors of
    the normalised node and 1 point per listing among the contributors
    of each of its neighbors, added up over the input nodes. *)
Definition score self (context_nodes : list string) (sid : string) : Z :=
  sumZ ((λ node,
           let norm := _normalize_node node in
           2 * occ sid (contributors self norm) +
           sumZ ((λ nb, occ sid (contributors self nb))
                   <$> neighbors (_graph self) norm))
          <$> context_nodes).

(** The identifiers that receive points, in order of first appearance
    in the score map. *)
Definition candidates self (context_nodes : list string) : list string :=
  first_seen ((awards self context_nodes).*1).

(** The ranked (identifier, score) pairs. *)
Definition ranking self (context_nodes : list string) : list (string * Z) :=
  py_sorted (λ x, - x.2)
            ((λ sid, (sid, score self context_nodes sid)) <$> candidates self context_nodes).
End Score.

(** ** Sample sessions and indexes *)

(** A session in the shape the test-suite builds: one assistant message
    that uses the given tools, in a successful trajectory. *)
Definition sample_session (sid : string) (tools : list string) : Session :=
  MkSession (Some sid) (Some "testproject") (Some "sft_clean") (Some "claude-3") None
    (Some [MkMessage (Some "assistant") "" ((λ t, MkToolUse t "") <$> tools)]) 0.

Definition two_readers : GraphIndex Nx.DiGraph :=
  build new_index [sample_session "s1" ["Read"]; sample_session "s2" ["Read"]].

(** ** The contract of the graph abstraction *)

(** The attribute dict of the edge after one more insertion: a new edge
    starts at weight 1 with the caller's relation tag, an edge that is
    there gains 1 and keeps its tag. *)
Definition bump (r : string) (old : option attrs) : attrs :=
  match old with
  | Some a => Attrs (Some (get_weight a + 1)) (rel a)
  | None => Attrs (Some 1) r
  end.

(** An insertion into the graph: source, destination and relation tag. *)
Abbreviation edge := (string * string * string)%type (only parsing).

(** One insertion. *)
Definition insert_edge {G} {graph_ops : Graph G} (g : G) (e : edge) : G :=
  add_edge g e.1.1 e.1.2 e.2.

(** What both backends have to satisfy for the index built on them. The
    last law is about the graphs that insertions build from the empty
    graph: there the neighbors of a node are the destinations of its
    outgoing edges and the sources of its incoming edges. *)
Class GraphLaws (G : Type) {graph_ops : Graph G} : Prop := {
  edge_data_make u v : edge_data make_graph u v = None;
  has_edge_data g u v : has_edge g u v = bool_decide (is_Some (edge_data g u v));
  edge_data_add g u v r u' v' :
    edge_data (add_edge g u v r) u' v' =
    if decide (u = u' ∧ v = v') then Some (bump r (edge_data g u v))
    else edge_data g u' v';
  edge_count_make : edge_count make_graph = O;
  node_count_make : node_count make_graph = O;
  edge_count_add g u v r :
    edge_count (add_edge g u v r) =
    if has_edge g u v then edge_count g else S (edge_count g);
  neighbors_adjacent (es : list edge) n x :
    x ∈ neighbors (foldl insert_edge make_graph es) n ↔
    has_edge (foldl insert_edge make_graph es) n x = true ∨
    has_edge (foldl insert_edge make_graph es) x n = true
}.

(** The tables of a networkx graph agree: the three tables have the same
    nodes, and [u] is listed before [v] exactly when [v] is listed after
    [u]. *)
Definition nx_consistent (g : Nx.DiGraph) : Prop :=
  dom (Nx._succ g) = Nx._node g ∧
  dom (Nx._pred g) = Nx._node g ∧
  ∀ u v, u ∈ default [] (Nx._pred g !! v) ↔
         od_mem v (default [] (Nx._succ g !! u)) = true.

(** The tables of the dependency-free graph agree. *)
Definition pure_consistent (g : Pure._PureGraph) : Prop :=
  ∀ u v, u ∈ default ∅ (Pure._in g !! v) ↔
         od_mem v (default [] (Pure._out g !! u)) = true.

(** ** The insertions of a session *)

(** The row of a node in a table, read with the default of a
    [defaultdict] or of [.get(node, {})]. *)
Definition rowof {V} (m : gmap string (list V)) (x : string) : list V :=
  default [] (m !! x).

(** The tool node of a tool-use record, unless its name is blank. *)
Definition tool_use_node (tu : ToolUse) : list string :=
  let tool_name := py_strip (tool tu) in
  if str_truthy tool_name then [_tool_node tool_name] else [].

(** The [accessed_by] edges of a tool-use record. *)
Definition tool_use_edges (tu : ToolUse) : list edge :=
  let tool_name := py_strip (tool tu) in
  if str_truthy tool_name then
    (λ fref, (_file_node fref, _tool_node tool_name, "accessed_by"))
      <$> _extract_file_refs (input tu)
  else [].

(** The insertions made while one message is processed, in order. *)
Definition message_edges (msg : Message) : list edge :=
  ((λ fref, (_file_node fref, _file_node fref, "self"))
     <$> _extract_file_refs (content msg)) ++
  (if bool_decide (role msg = Some "user" ∨ role msg = Some "tool_result")
   then (λ err, (_error_node err, _error_node err, "self"))
          <$> _extract_error_refs (content msg)
   else []) ++
  (tool_uses msg ≫= tool_use_edges).

(** The flattened tool sequence of a session: the tool nodes of its
    non-blank tool uses, in message order and, within a message, in order
    of use. *)
Definition session_tool_seq (s : Session) : list string :=
  get_messages s ≫= λ msg, tool_uses msg ≫= tool_use_node.

(** The consecutive pairs of a sequence. *)
Definition transitions (l : list string) : list (string * string) :=
  zip l (tail l).

(** The relation tag of the tool transitions of a session. *)
Definition transition_rel (s : Session) : string :=
  if negb (bool_decide (trajectory_type s = Some "correction_loop"))
  then "led_to_success" else "co-occurs".

(** Everything [_index_session] inserts for a session, in order. *)
Definition session_edges (s : Session) : list edge :=
  (get_messages s ≫= message_edges) ++
  ((λ p, (p.1, p.2, transition_rel s)) <$> transitions (session_tool_seq s)).

(** How many times a list of insertions names the pair [(u, v)]. *)
Definition emitted (u v : string) (es : list edge) : nat :=
  length (filter (λ e, e.1 = (u, v)) es).

(** The attribute dict of the pair [(u, v)] after the insertions [es],
    starting from [o]. *)
Definition accumulate (u v : string) (o : option attrs) (es : list edge)
  : option attrs :=
  foldl (λ o e, if decide (e.1 = (u, v)) then Some (bump e.2 o) else o) o es.

(** What C2, as amended, says of one backend. First, for any graph and any pair of
    nodes: inserting an edge that is there adds exactly one to its weight
    and leaves its relation tag and the number of edges as they were,
    inserting an absent edge creates it with weight 1 and the given tag,
    and no other edge is touched. Second, indexing a session once more on
    a graph that has it indexed adds no edge, leaves the set of edges as
    it is, and adds to the weight of each edge the number of times the
    session inserts it (one per repeated transition, so exactly one for a
    pair the session inserts once). *)
Definition accumulates_weights (G : Type) {graph_ops : Graph G} : Prop :=
  (∀ (g : G) src dst r,
     match edge_data g src dst with
     | Some a =>
         has_edge g src dst = true ∧
         edge_data (add_edge g src dst r) src dst =
           Some (Attrs (Some (get_weight a + 1)) (rel a)) ∧
         edge_count (add_edge g src dst r) = edge_count g
     | None =>
         has_edge g src dst = false ∧
         edge_data (add_edge g src dst r) src dst = Some (Attrs (Some 1) r) ∧
         edge_count (add_edge g src dst r) = S (edge_count g)
     end ∧
     ∀ u v, (u, v) ≠ (src, dst) →
            edge_data (add_edge g src dst r) u v = edge_data g u v) ∧
  (∀ (g : G) s,
     let g1 := _index_session g s in
     let g2 := _index_session g1 s in
     edge_count g2 = edge_count g1 ∧
     (∀ u v,
        match edge_data g1 u v with
        | Some a1 =>
            ∃ a2, edge_data g2 u v = Some a2 ∧
                  get_weight a2 = get_weight a1 + Z.of_nat (emitted u v (session_edges s)) ∧
                  rel a2 = rel a1
        | None => edge_data g2 u v = None
        end) ∧
     (∀ i a b,
        session_tool_seq s !! i = Some a → session_tool_seq s !! S i = Some b →
        ∃ a1 a2, edge_data g1 a b = Some a1 ∧ edge_data g2 a b = Some a2 ∧
                 get_weight a1 + 1 ≤ get_weight a2 ∧
                 (emitted a b (session_edges s) = 1%nat →
                  get_weight a2 = get_weight a1 + 1))).

Definition read_bash_write : Session := sample_session "s1" ["Read"; "Bash"; "Write"].

Definition read_read_read : Session := sample_session "s1" ["Read"; "Read"; "Read"].

(** ** Matches of a pattern *)

(** Every character of a string is in a class. *)
Fixpoint str_all (cls : ascii → bool) (s : string) : bool :=
  match s with
  | EmptyString => true
  | String c s' => (cls c && str_all cls s')%bool
  end.

(** A string matches a sequence of quantified classes: it splits into one
    piece per item, each piece made of characters of the class and of a
    length within the bounds of the item. *)
Fixpoint matches (items : list re_item) (m : string) : Prop :=
  match items with
  | [] => m = EmptyString
  | it :: rest =>
      ∃ a b, m = a +:+ b ∧ str_all (re_class it) a = true ∧
             (re_lo it ≤ String.length a)%nat ∧
             (∀ hi, re_hi it = Some hi → (String.length a ≤ hi)%nat) ∧
             matches rest b
  end.

(** The strings [ms] occur in [text] one after the other, left to right,
    without overlap. *)
Fixpoint occurs_in_order (ms : list string) (text : string) : Prop :=
  match ms with
  | [] => True
  | m :: ms' => ∃ pre post, text = pre +:+ m +:+ post ∧ occurs_in_order ms' post
  end.

(** The maximal runs of characters of a class, empty runs included. *)
Fixpoint runs (cls : ascii → bool) (s : string) : list string :=
  match s with
  | EmptyString => [EmptyString]
  | String c s' =>
      if cls c then
        match runs cls s' with
        | h :: t => String c h :: t
        | [] => [String c EmptyString]
        end
      else EmptyString :: runs cls s'
  end.

(** The path-like tokens as the specification words them: the maximal
    sequences of word characters, dots, slashes and hyphens that contain
    a slash or a dot. *)
Definition path_tokens (text : string) : list string :=
  filter (λ m, orb (py_in "/" m) (py_in "." m) = true)
         (filter (λ m, m ≠ EmptyString) (runs is_path_char text)).

(** ** Reachable indexes *)

(** The states of an index that calls of [build] and [add_session] reach
    from a fresh instance. *)
Inductive reachable {G} {graph_ops : Graph G} : GraphIndex G → Prop :=
  | reach_new : reachable new_index
  | reach_add self s : reachable self → reachable (add_session self s)
  | reach_build self ss : reachable self → reachable (build self ss).

(** Every identifier in a contributor list is a key of the session map. *)
Definition contributors_stored {G} (self : GraphIndex G) : Prop :=
  ∀ node l sid,
    _node_to_sessions self !! node = Some l → sid ∈ l →
    is_Some (_sessions self !! sid).

(** No stored record is an empty dict. *)
Definition records_truthy {G} (self : GraphIndex G) : Prop :=
  ∀ sid s, _sessions self !! sid = Some s → session_truthy s = true.

(** The contributor lists after a sequence of additions hold what they
    held before and the session's identifier, nothing else. *)
Definition only_adds (sid : string) (nts nts' : gmap string (list string)) : Prop :=
  ∀ node l x, nts' !! node = Some l → x ∈ l →
              x = sid ∨ ∃ l0, nts !! node = Some l0 ∧ x ∈ l0.

(** An empty session dict whose object identity reads as the identifier
    of a session stored before. *)
Definition empty_dict_at (address : N) : Session :=
  MkSession None None None None None None address.

Definition overwritten_by_empty : GraphIndex Nx.DiGraph :=
  add_session
    (add_session new_index (sample_session "140234866534400" ["Read"]))
    (empty_dict_at 140234866534400).

(** ** The query layer *)

(** An index object whose [stats] raises. *)
Definition failing_index : IndexObj := MkIndexObj (Some Raises) (λ _ _, []).

Definition service_with_failing_index : Mcp.SessionIndexService :=
  Mcp.MkService [] (λ _ _, []) (λ _, failing_index) 0
                (Some [sample_session "s1" ["Read"]]) (Some failing_index) 1 1 250.

(** The error code of an envelope, if it is an error. *)
Definition error_code (e : Mcp.Envelope) : option string :=
  match e with
  | Mcp.ErrorPayload code _ _ _ => Some code
  | Mcp.OkPayload _ _ _ => None
  end.

(** The tokens of a context string: the comma-separated pieces, trimmed,
    the blank ones left out. *)
Definition context_tokens (context : string) : list string :=
  filter (λ t, t ≠ EmptyString) (py_strip <$> py_split "," context).

(** The node that a token names, if it is well formed: it has a colon,
    the lowercase text before the first colon is [tool], [file] or
    [error], and the text after it is not blank. *)
Definition token_node (token : string) : option string :=
  match py_split1 ":" (py_lower token) with
  | Some (prefix, value) =>
      if bool_decide (prefix ∈ Mcp.allowed_prefixes ∧ py_strip value ≠ EmptyString)
      then Some (prefix +:+ ":" +:+ py_strip value)
      else None
  | None => None
  end.

(** Entering a node in the list of nodes unless it is there. *)
Definition see (acc : list string) (k : string) : list string :=
  if bool_decide (k ∈ acc) then acc else acc ++ [k].

(** A loaded service over the index of [two_readers]. *)
Definition loaded_service : Mcp.SessionIndexService :=
  Mcp.MkService [] (λ _ _, []) (graph_index_factory (G:=Nx.DiGraph)) 0
                (Some [sample_session "s1" ["Read"]; sample_session "s2" ["Read"]])
                (Some (graph_index_obj two_readers)) 1 1 250.

(** A session matches a needle when the lowercase form of the content of
    one of its messages, or of its project label, contains the needle. *)
Definition session_matches (needle : string) (s : Session) : bool :=
  (existsb (λ message, py_in needle (py_lower (content message))) (get_messages s)
   || py_in needle (py_lower (default "" (project s))))%bool.

(** The summaries of a list of sessions, ranked from [offset + 1]. *)
Definition ranked_summaries (offset : nat) (l : list Session) : list Mcp.Summary :=
  imap (λ i s, Mcp._session_summary s (Some (Z.of_nat (offset + i) + 1))) l.

(** A loaded service with one session, which greets in capitals. *)
Definition greeting : Session :=
  MkSession (Some "s1") (Some "Demo") (Some "sft_clean") None None
    (Some [MkMessage (Some "user") "Hello World" []]) 0.

Definition greeting_service : Mcp.SessionIndexService :=
  Mcp.MkService [] (λ _ _, []) (graph_index_factory (G:=Nx.DiGraph)) 0
                (Some [greeting])
                (Some (graph_index_factory (G:=Nx.DiGraph) [greeting])) 1 1 250.

(** ** Further vocabulary for the index *)

(** No contributor list names a session twice. *)
Definition contributors_distinct {G} (self : GraphIndex G) : Prop :=
  ∀ node l, _node_to_sessions self !! node = Some l → NoDup l.

(** The contributor lists only grow: what was listed stays listed. *)
Definition keeps_contributors (nts nts' : gmap string (list string)) : Prop :=
  ∀ node x, x ∈ default [] (nts !! node) → x ∈ default [] (nts' !! node).


(** ** Graphs built by insertions *)

(** The graph that a list of insertions builds from the empty graph, on
    each backend. *)
Definition nx_built (es : list edge) : Nx.DiGraph :=
  foldl (@insert_edge _ nx_graph) Nx._make_graph es.

Definition pure_built (o : set_order) (es : list edge) : Pure._PureGraph :=
  foldl (@insert_edge _ (pure_graph o)) Pure._make_graph es.

(** The end points of a list of insertions. *)
Definition endpoints (es : list edge) : gset string :=
  list_to_set (es ≫= λ e, [e.1.1; e.1.2]).


(** The index that [build] makes of a list of sessions, on each
    backend. *)
Definition nx_index (ss : list Session) : GraphIndex Nx.DiGraph :=
  @build _ nx_graph (@new_index _ nx_graph) ss.

Definition pure_index (o : set_order) (ss : list Session) : GraphIndex Pure._PureGraph :=
  @build _ (pure_graph o) (@new_index _ (pure_graph o)) ss.


(** The shapes of the edges that [_index_session] inserts: a self-loop
    on a file node or on an error node, tagged [self]; an edge from a
    file node to a tool node, tagged [accessed_by]; an edge from a tool
    node to a tool node, tagged [led_to_success] or [co-occurs]. *)
Definition edge_shape (u v r : string) : Prop :=
  (∃ f, u = _file_node f ∧ v = u ∧ r = "self") ∨
  (∃ m, u = _error_node m ∧ v = u ∧ r = "self") ∨
  (∃ f t, u = _file_node f ∧ v = _tool_node t ∧ r = "accessed_by") ∨
  (∃ t t', u = _tool_node t ∧ v = _tool_node t' ∧
           (r = "led_to_success" ∨ r = "co-occurs")).

(** A session with one user message that reports an error and names a
    file, and one tool use on that file. *)
Definition failing_read : Session :=
  MkSession (Some "s1") (Some "testproject") (Some "sft_clean") (Some "claude-3") None
    (Some [MkMessage (Some "user") "Error in src/main.py"
             [MkToolUse " Read " "src/main.py"]]) 0.


(** ** Vocabulary for the other tools *)

(** The results of a reply, if it is a success, and its error code, if
    it is an error. *)
Definition reply_results {R} (r : Tools.Reply R) : option R :=
  match r with
  | Tools.Ok results _ _ => Some results
  | Tools.Error _ _ _ _ => None
  end.

Definition reply_error {R} (r : Tools.Reply R) : option string :=
  match r with
  | Tools.Ok _ _ _ => None
  | Tools.Error code _ _ _ => Some code
  end.

(** A service is loaded when it holds a session list and an index. *)
Definition loaded (service : Mcp.SessionIndexService) : Prop :=
  is_Some (Mcp._sessions service) ∧ is_Some (Mcp._index service).

(** A dict that groups a list by a key: the keys in order of first
    appearance, each with the fold of [upd] over the elements of that
    key, in order. *)
Definition grouped {A V} (key : A → string) (upd : A → V → V) (init : V)
           (l : list A) : odict V :=
  (λ k, (k, foldl (λ v x, upd x v) init (filter (λ x, key x = k) l)))
    <$> first_seen (key <$> l).

(** How often each element of a list of names occurs, in order of first
    appearance. *)
Definition histogram (names : list string) : odict Z :=
  (λ k, (k, occ k names)) <$> first_seen names.

(** The five labels of the classifier. *)
Definition trajectory_labels : list string :=
  ["correction_loop"; "debugging_trace"; "iterative_build"; "refactor"; "sft_clean"].

(** A message corrects when it is a user message, not the first message
    of the session, whose lowercase content contains a correction
    signal. *)
Definition corrects (messages : list Message) (i : nat) : Prop :=
  ∃ msg sig, messages !! i = Some msg ∧ (0 < i)%nat ∧ role msg = Some "user" ∧
             sig ∈ CORRECTION_SIGNALS ∧ py_in sig (py_lower (content msg)) = true.


(** The tool names of a session as the tools read them: trimmed, the
    blank ones left out, in message order and, within a message, in
    order of use. *)
Definition tool_name_of (tu : ToolUse) : option string :=
  if str_truthy (py_strip (tool tu)) then Some (py_strip (tool tu)) else None.

Definition tool_names (s : Session) : list string :=
  get_messages s ≫= λ msg, omap tool_name_of (tool_uses msg).

(** A session passes a project filter when there is none or when its
    project name is the filter. *)
Definition in_project (project_filter : option string) (s : Session) : Prop :=
  match project_filter with
  | Some f => Tools.project_name_of s = f
  | None => True
  end.

#[global] Instance in_project_dec pf s : Decision (in_project pf s).
Proof. destruct pf; simpl; apply _. Defined.

(** The patterns of a list of sessions: the project names in order of
    first appearance, each with the number of its sessions and the
    histogram of the tool names of these sessions. *)
Definition project_patterns (sessions : list Session) : odict Tools.ProjectStats :=
  (λ name,
     let mine := filter (λ s, Tools.project_name_of s = name) sessions in
     (name, Tools.MkProjectStats (Z.of_nat (length mine)) (histogram (mine ≫= tool_names))))
    <$> first_seen (Tools.project_name_of <$> sessions).


(** A call of one of the tools that read the cache, and the service
    after it. *)
Inductive tool_call :=
  | SearchPastSolutions (query : string) (max_results : Z)
  | FindSimilarSessions (context : string) (max_results : Z)
  | GetProjectPatterns (project : option string)
  | GetTrajectoryStats
  | GetSession (session_id : string).

Definition service_after (classify_fn : Session → string)
           (service : Mcp.SessionIndexService) (c : tool_call)
  : Mcp.SessionIndexService :=
  match c with
  | SearchPastSolutions query max_results =>
      (Mcp.search_past_solutions service query max_results).2
  | FindSimilarSessions context max_results =>
      (Mcp.find_similar_sessions service context max_results).2
  | GetProjectPatterns project => (Tools.get_project_patterns service project).2
  | GetTrajectoryStats => (Tools.get_trajectory_stats classify_fn service).2
  | GetSession session_id => (Tools.get_session service session_id).2
  end.

(** The sessions that [refresh] collects: those of each discovered
    project, in the order of discovery. *)
Definition discovered_sessions (service : Mcp.SessionIndexService) : list Session :=
  Mcp._discover_projects service ≫= λ project,
    Mcp._parse_project_sessions service
      (default "" (Mcp.dir_name project)) (default "claude" (Mcp.source project)).

(* ===================================================================== *)
(** * Properties of the text primitives                                   *)
(* ===================================================================== *)

Ltac all_chars c := destruct c as [[] [] [] [] [] [] [] []]; vm_compute; try reflexivity.

Lemma isspace_lower_char c : py_isspace (lower_char c) = py_isspace c.
Proof. all_chars c. Qed.

Lemma lower_char_idem c : lower_char (lower_char c) = lower_char c.
Proof. all_chars c. Qed.

Lemma py_lower_idem s : py_lower (py_lower s) = py_lower s.
Proof. induction s as [|c s IH]; simpl; [done|]. by rewrite lower_char_idem, IH. Qed.

Lemma py_lower_app s t : py_lower (s +:+ t) = py_lower s +:+ py_lower t.
Proof. induction s as [|c s IH]; simpl; [done|]. by rewrite IH. Qed.

Lemma py_lstrip_lower s : py_lstrip (py_lower s) = py_lower (py_lstrip s).
Proof.
  induction s as [|c s IH]; simpl; [done|].
  rewrite isspace_lower_char. by destruct (py_isspace c).
Qed.

Lemma py_rstrip_lower s : py_rstrip (py_lower s) = py_lower (py_rstrip s).
Proof.
  induction s as [|c s IH]; simpl; [done|].
  rewrite IH, isspace_lower_char.
  destruct (py_rstrip s); simpl; [by destruct (py_isspace c)|done].
Qed.

Lemma py_strip_lower s : py_strip (py_lower s) = py_lower (py_strip s).
Proof. unfold py_strip. by rewrite py_lstrip_lower, py_rstrip_lower. Qed.

Lemma py_lstrip_no_lead s : no_lead (py_lstrip s).
Proof.
  induction s as [|c s IH]; simpl; [done|].
  destruct (py_isspace c) eqn:E; [done|]. exact E.
Qed.

Lemma py_lstrip_id s : no_lead s → py_lstrip s = s.
Proof. destruct s as [|c s]; simpl; [done|]. by intros ->. Qed.

Lemma py_rstrip_no_lead s : no_lead s → no_lead (py_rstrip s).
Proof.
  destruct s as [|c s]; simpl; [done|]. intros E.
  destruct (py_rstrip s); simpl; [by rewrite E|done].
Qed.

Lemma py_rstrip_idem s : py_rstrip (py_rstrip s) = py_rstrip s.
Proof.
  induction s as [|c s IH]; simpl; [done|].
  destruct (py_rstrip s) as [|d r] eqn:E.
  - destruct (py_isspace c) eqn:Ec; simpl; [done|]. by rewrite Ec.
  - change (py_rstrip (String c (String d r))) with
      (match py_rstrip (String d r) with
       | EmptyString => if py_isspace c then EmptyString else String c EmptyString
       | r' => String c r'
       end).
    by rewrite IH.
Qed.

Lemma py_strip_idem s : py_strip (py_strip s) = py_strip s.
Proof.
  unfold py_strip.
  rewrite (py_lstrip_id (py_rstrip (py_lstrip s))).
  - apply py_rstrip_idem.
  - apply py_rstrip_no_lead, py_lstrip_no_lead.
Qed.

Lemma _normalize_node_idem s : _normalize_node (_normalize_node s) = _normalize_node s.
Proof.
  unfold _normalize_node.
  by rewrite <- py_strip_lower, py_lower_idem, py_strip_lower, py_strip_idem.
Qed.

Lemma py_lstrip_app_space pre s : all_space pre = true → py_lstrip (pre +:+ s) = py_lstrip s.
Proof.
  induction pre as [|c pre IH]; simpl; [done|].
  intros [Hc Hp]%andb_prop. rewrite Hc. auto.
Qed.

Lemma py_lstrip_all_space s : all_space s = true → py_lstrip s = EmptyString.
Proof.
  induction s as [|c s IH]; simpl; [done|].
  intros [Hc Hp]%andb_prop. by rewrite Hc, IH.
Qed.

Lemma py_rstrip_all_space s : all_space s = true → py_rstrip s = EmptyString.
Proof.
  induction s as [|c s IH]; simpl; [done|].
  intros [Hc Hp]%andb_prop. by rewrite IH, Hc.
Qed.

Lemma py_rstrip_app_space s post :
  all_space post = true → py_rstrip (s +:+ post) = py_rstrip s.
Proof.
  intros Hp. induction s as [|c s IH]; simpl.
  - by apply py_rstrip_all_space.
  - by rewrite IH.
Qed.

Lemma py_strip_app_space_r s post :
  all_space post = true → py_strip (s +:+ post) = py_strip s.
Proof.
  intros Hp. unfold py_strip. induction s as [|c s IH]; simpl.
  - by rewrite py_lstrip_all_space.
  - destruct (py_isspace c); [done|].
    change (String c (s +:+ post)) with (String c s +:+ post).
    by apply py_rstrip_app_space.
Qed.

Lemma py_strip_surrounded pre s post :
  all_space pre = true → all_space post = true →
  py_strip (pre +:+ s +:+ post) = py_strip s.
Proof.
  intros Hpre Hpost. unfold py_strip at 1.
  rewrite py_lstrip_app_space by done.
  by apply py_strip_app_space_r.
Qed.

(** C9. Node naming: [_tool_node s] is ["tool:"] followed by the
    lowercase of the trimmed [s]; naming an already normalised name gives
    the same identifier; names that differ only in case, or only in
    surrounding white space, get the same identifier; and
    [_tool_node " Bash " = _tool_node "bash" = "tool:bash"]. *)
Theorem tool_node_normal_form :
  (∀ s, _tool_node s = "tool:" +:+ py_lower (py_strip s)) ∧
  (∀ s, _normalize_node (_normalize_node s) = _normalize_node s) ∧
  (∀ s, _tool_node (_normalize_node s) = _tool_node s) ∧
  (∀ s, _tool_node (py_lower s) = _tool_node s) ∧
  (∀ pre s post, all_space pre = true → all_space post = true →
                 _tool_node (pre +:+ s +:+ post) = _tool_node s) ∧
  _tool_node " Bash " = "tool:bash" ∧ _tool_node "bash" = "tool:bash".
Proof.
  repeat split; try reflexivity.
  - apply _normalize_node_idem.
  - intros s. unfold _tool_node. by rewrite _normalize_node_idem.
  - intros s. unfold _tool_node, _normalize_node.
    by rewrite py_strip_lower, py_lower_idem.
  - intros pre s post Hpre Hpost. unfold _tool_node, _normalize_node.
    by rewrite py_strip_surrounded.
Qed.

(* ===================================================================== *)
(** * Properties of the ordered dictionaries and of the stable sort       *)
(* ===================================================================== *)

Section Odict.
Context {V : Type}.
Implicit Types (d : odict V) (k : string) (v : V).

Lemma od_get_set_eq k v d : od_get k (od_set k v d) = Some v.
Proof.
  induction d as [|[k' v'] d IH]; simpl.
  - by rewrite String.eqb_refl.
  - destruct (String.eqb k k') eqn:E; simpl; rewrite E; [done|apply IH].
Qed.

Lemma od_get_set_ne k k' v d : k ≠ k' → od_get k' (od_set k v d) = od_get k' d.
Proof.
  intros Hne. induction d as [|[k0 v0] d IH]; simpl.
  - destruct (String.eqb k' k) eqn:E; [|done].
    apply String.eqb_eq in E. congruence.
  - destruct (String.eqb k k0) eqn:E; simpl; [|by rewrite IH].
    apply String.eqb_eq in E. subst k0.
    destruct (String.eqb k' k) eqn:E'; [|done].
    apply String.eqb_eq in E'. congruence.
Qed.

Lemma od_get_set k k' v d :
  od_get k' (od_set k v d) = if decide (k = k') then Some v else od_get k' d.
Proof.
  case_decide as Hk; [subst; apply od_get_set_eq|by apply od_get_set_ne].
Qed.

Lemma od_set_length k v d :
  length (od_set k v d) = if od_mem k d then length d else S (length d).
Proof.
  unfold od_mem. induction d as [|[k0 v0] d IH]; simpl; [done|].
  destruct (String.eqb k k0) eqn:E; simpl; [done|].
  rewrite IH. by destruct (od_get k d).
Qed.

Lemma od_get_elem_of k d : is_Some (od_get k d) ↔ k ∈ od_keys d.
Proof.
  unfold od_keys. induction d as [|[k0 v0] d IH]; simpl.
  - split; [by intros [? ?]|by intros ?%elem_of_nil].
  - destruct (String.eqb k k0) eqn:E.
    + apply String.eqb_eq in E. subst. split; [intros _; left|eauto].
    + apply String.eqb_neq in E. rewrite IH. split; [by right|].
      by intros [?|?]%elem_of_cons.
Qed.

Lemma od_keys_set k v d :
  od_keys (od_set k v d) = if od_mem k d then od_keys d else od_keys d ++ [k].
Proof.
  unfold od_mem, od_keys. induction d as [|[k0 v0] d IH]; [done|].
  cbn [od_set od_get]. destruct (String.eqb k k0) eqn:E; [done|].
  rewrite fmap_cons, IH. by destruct (od_get k d).
Qed.
End Odict.

Section Sorting.
Context {A : Type} (key : A → Z).

Lemma insert_by_perm x l : insert_by key x l ≡ₚ x :: l.
Proof.
  induction l as [|y l IH]; simpl; [done|].
  destruct (key x <=? key y); [done|].
  rewrite IH. apply perm_swap.
Qed.

Lemma py_sorted_perm l : py_sorted key l ≡ₚ l.
Proof.
  induction l as [|x l IH]; simpl; [done|].
  by rewrite insert_by_perm, IH.
Qed.

Lemma py_sorted_length l : length (py_sorted key l) = length l.
Proof. by rewrite py_sorted_perm. Qed.

Lemma insert_by_sorted x l :
  StronglySorted (λ a b, key a ≤ key b) l →
  StronglySorted (λ a b, key a ≤ key b) (insert_by key x l).
Proof.
  induction 1 as [|y l Hl IH Hy]; simpl.
  - repeat constructor.
  - destruct (key x <=? key y) eqn:E.
    + apply Z.leb_le in E. constructor; [by constructor|].
      constructor; [done|].
      eapply Forall_impl; [exact Hy|]. simpl. intros; lia.
    + apply Z.leb_gt in E. constructor; [done|].
      rewrite insert_by_perm. constructor; [lia|done].
Qed.

Lemma py_sorted_sorted l : StronglySorted (λ a b, key a ≤ key b) (py_sorted key l).
Proof.
  induction l as [|x l IH]; simpl; [constructor|by apply insert_by_sorted].
Qed.

(** Stability: the elements of one key keep their order. *)
Lemma insert_by_stable z x l :
  filter (λ a, key a = z) (insert_by key x l) = filter (λ a, key a = z) (x :: l).
Proof.
  induction l as [|y l IH]; simpl; [done|].
  destruct (key x <=? key y) eqn:E; [done|]. apply Z.leb_gt in E.
  rewrite (filter_cons _ y (insert_by _ _ _)), IH, !filter_cons.
  repeat case_decide; try done; lia.
Qed.

Lemma py_sorted_stable z l :
  filter (λ a, key a = z) (py_sorted key l) = filter (λ a, key a = z) l.
Proof.
  induction l as [|x l IH]; simpl; [done|].
  by rewrite insert_by_stable, !filter_cons, IH.
Qed.
End Sorting.

Lemma strongly_sorted_mono {A} (R S : A → A → Prop) l :
  (∀ a b, R a b → S a b) → StronglySorted R l → StronglySorted S l.
Proof.
  intros HRS. induction 1 as [|x l Hl IH Hx]; constructor; [done|].
  eapply Forall_impl; [exact Hx|]. auto.
Qed.

Lemma omap_length_le {A B} (f : A → option B) (l : list A) :
  (length (omap f l) ≤ length l)%nat.
Proof.
  induction l as [|x l IH]; [done|]. cbn [omap list_omap].
  destruct (f x); simpl; lia.
Qed.

Lemma py_slice_to_length {A} (k : Z) (l : list A) :
  0 ≤ k → length (py_slice_to k l) = Nat.min (Z.to_nat k) (length l).
Proof.
  intros Hk. unfold py_slice_to.
  destruct (0 <=? k) eqn:E; [by rewrite length_take|]. apply Z.leb_gt in E. lia.
Qed.

Lemma py_slice_to_nonneg {A} (k : Z) (l : list A) :
  0 ≤ k → py_slice_to k l = take (Z.to_nat k) l.
Proof.
  intros Hk. unfold py_slice_to.
  destruct (0 <=? k) eqn:E; [done|]. apply Z.leb_gt in E. lia.
Qed.

(* ===================================================================== *)
(** * The score map of [query]                                            *)
(* ===================================================================== *)

Lemma sumZ_app l k : sumZ (l ++ k) = sumZ l + sumZ k.
Proof. unfold sumZ. induction l as [|x l IH]; simpl; lia. Qed.

Lemma occ_nil sid : occ sid [] = 0.
Proof. done. Qed.

Lemma occ_cons sid x l : occ sid (x :: l) = (if decide (x = sid) then 1 else 0) + occ sid l.
Proof. unfold occ. rewrite filter_cons. case_decide; simpl; lia. Qed.

Lemma occ_nonneg sid l : 0 ≤ occ sid l.
Proof. unfold occ. lia. Qed.

Lemma occ_pos sid l : 0 < occ sid l ↔ sid ∈ l.
Proof.
  induction l as [|x l IH].
  - rewrite occ_nil. split; [lia|by intros ?%elem_of_nil].
  - rewrite occ_cons, elem_of_cons. pose proof (occ_nonneg sid l) as Hn.
    case_decide as Hx.
    + subst. split; [by left|lia].
    + split.
      * intros Hp. right. apply IH. lia.
      * intros [?|Hin]; [congruence|]. apply IH in Hin. lia.
Qed.

Lemma first_seen_snoc `{EqDecision A} (l : list A) k :
  first_seen (l ++ [k]) =
  if bool_decide (k ∈ first_seen l) then first_seen l else first_seen l ++ [k].
Proof. unfold first_seen. by rewrite foldl_snoc. Qed.

Lemma first_seen_elem_of `{EqDecision A} (l : list A) x : x ∈ first_seen l ↔ x ∈ l.
Proof.
  induction l as [|k l IH] using rev_ind; [done|].
  rewrite first_seen_snoc, elem_of_app, list_elem_of_singleton, <- IH.
  case_bool_decide as Hk; [|rewrite elem_of_app, list_elem_of_singleton; tauto].
  split; [tauto|]. intros [?| ->]; done.
Qed.

Lemma first_seen_NoDup `{EqDecision A} (l : list A) : NoDup (first_seen l).
Proof.
  induction l as [|k l IH] using rev_ind; [constructor|].
  rewrite first_seen_snoc. case_bool_decide as Hk; [done|].
  apply NoDup_app. split_and!; [done| |apply NoDup_singleton].
  intros x Hx ->%list_elem_of_singleton. done.
Qed.

(** Read from the left: the head comes first, and is dropped from what
    follows. *)
Lemma first_seen_cons `{EqDecision A} (x : A) l :
  first_seen (x :: l) = x :: filter (λ y, y ≠ x) (first_seen l).
Proof.
  induction l as [|k l IH] using rev_ind; [done|].
  rewrite app_comm_cons, !first_seen_snoc, IH.
  destruct (decide (k = x)) as [->|Hne].
  - rewrite bool_decide_eq_true_2 by left.
    case_bool_decide; [done|].
    rewrite filter_app, filter_cons_False, filter_nil, app_nil_r; [done|]. by intros [].
  - assert (k ∈ x :: filter (λ y, y ≠ x) (first_seen l) ↔ k ∈ first_seen l) as Hiff.
    { rewrite elem_of_cons, list_elem_of_filter. tauto. }
    destruct (decide (k ∈ first_seen l)) as [Hin|Hin].
    + rewrite !bool_decide_eq_true_2; [done|done|by apply Hiff].
    + rewrite !bool_decide_eq_false_2; [|done|by rewrite Hiff].
      by rewrite filter_app, filter_cons_True, filter_nil.
Qed.

Lemma total_app sid aw aw' : total sid (aw ++ aw') = total sid aw + total sid aw'.
Proof. unfold total. by rewrite filter_app, fmap_app, sumZ_app. Qed.

Lemma total_not_elem_of sid aw : sid ∉ aw.*1 → total sid aw = 0.
Proof.
  unfold total. induction aw as [|[k n] aw IH]; [done|].
  rewrite fmap_cons, not_elem_of_cons. intros [Hne Hnin].
  rewrite filter_cons_False by (simpl; intros Heq; by apply Hne). auto.
Qed.

Lemma total_singleton sid k n :
  total sid [(k, n)] = if decide (sid = k) then n else 0.
Proof.
  unfold total. case_decide as Hk.
  - subst. rewrite filter_cons_True by done. cbn. lia.
  - rewrite filter_cons_False by (simpl; intros Heq; by apply Hk). done.
Qed.

(** One [d[k] += n] on a score map that lists the distinct keys [L] with
    the values [f]. *)
Lemma od_set_fmap (f : string → Z) k v (L : list string) :
  NoDup L →
  od_set k v ((λ s, (s, f s)) <$> L) =
  (λ s, (s, if decide (s = k) then v else f s))
    <$> (if bool_decide (k ∈ L) then L else L ++ [k]).
Proof.
  induction 1 as [|k0 L Hk0 HL IH].
  - simpl. by rewrite decide_True.
  - cbn [fmap list_fmap od_set]. destruct (String.eqb k k0) eqn:E.
    + apply String.eqb_eq in E. subst k0.
      rewrite bool_decide_eq_true_2 by left.
      rewrite fmap_cons, decide_True by done. f_equal.
      apply list_fmap_ext. intros i s Hs. rewrite decide_False; [done|].
      intros ->. apply Hk0. by eapply list_elem_of_lookup_2.
    + apply String.eqb_neq in E.
      change (list_fmap _ _ ?g L) with (g <$> L). rewrite IH.
      assert (bool_decide (k ∈ k0 :: L) = bool_decide (k ∈ L)) as ->.
      { apply bool_decide_ext. rewrite elem_of_cons. tauto. }
      destruct (bool_decide (k ∈ L));
        cbn [app]; rewrite fmap_cons, decide_False by congruence; done.
Qed.

Lemma od_get_fmap (f : string → Z) k (L : list string) :
  od_get k ((λ s, (s, f s)) <$> L) = if bool_decide (k ∈ L) then Some (f k) else None.
Proof.
  induction L as [|k0 L IH]; [done|].
  cbn [fmap list_fmap od_get]. destruct (String.eqb k k0) eqn:E.
  - apply String.eqb_eq in E. subst. by rewrite bool_decide_eq_true_2 by left.
  - apply String.eqb_neq in E. change (list_fmap _ _ ?g L) with (g <$> L).
    rewrite IH. apply (f_equal (λ b : bool, if b then _ else _)).
    apply bool_decide_ext. rewrite elem_of_cons. tauto.
Qed.

(** The score map after a sequence of awards: the awarded identifiers in
    order of first appearance, each with the sum of its points. *)
Lemma foldl_od_add aw :
  foldl (λ cs p, od_add p.1 p.2 cs) [] aw =
  (λ sid, (sid, total sid aw)) <$> first_seen (aw.*1).
Proof.
  induction aw as [|[k n] aw IH] using rev_ind; [done|].
  rewrite foldl_snoc, IH, fmap_app. cbn [fmap list_fmap fst snd].
  rewrite first_seen_snoc. unfold od_add.
  rewrite od_get_fmap, od_set_fmap by apply first_seen_NoDup.
  apply list_fmap_ext. intros i s Hs.
  rewrite total_app, total_singleton.
  destruct (decide (s = k)) as [->|Hsk].
  - f_equal. case_bool_decide as Hin; cbn; [lia|].
    rewrite total_not_elem_of; [lia|]. by rewrite <- first_seen_elem_of.
  - f_equal. lia.
Qed.

Section ScoreFacts.
Context {G : Type} {graph_ops : Graph G}.
Implicit Types (self : GraphIndex G).

Lemma score_node_awards self cs node :
  score_node self cs node =
  foldl (λ cs p, od_add p.1 p.2 cs) cs (node_awards self node).
Proof.
  unfold score_node, node_awards. rewrite foldl_app, foldl_fmap. cbn [fst snd].
  generalize (foldl (λ cs sid, od_add sid 2 cs) cs
                    (contributors self (_normalize_node node))).
  generalize (neighbors (_graph self) (_normalize_node node)).
  intros nbs. induction nbs as [|nb nbs IH]; intros cs'; [done|].
  cbn [foldl mbind list_bind]. rewrite foldl_app, foldl_fmap. cbn [fst snd].
  apply IH.
Qed.

Lemma foldl_score_node self cs ctx :
  foldl (score_node self) cs ctx =
  foldl (λ cs p, od_add p.1 p.2 cs) cs (awards self ctx).
Proof.
  unfold awards. revert cs. induction ctx as [|node ctx IH]; intros cs; [done|].
  cbn [foldl mbind list_bind]. by rewrite foldl_app, IH, score_node_awards.
Qed.

Lemma total_fmap_const sid (n : Z) (l : list string) :
  total sid ((λ s, (s, n)) <$> l) = n * occ sid l.
Proof.
  induction l as [|x l IH]; [unfold total, occ; simpl; lia|].
  rewrite fmap_cons, occ_cons.
  change ((x, n) :: ?t) with ([(x, n)] ++ t). rewrite total_app, IH.
  unfold total. case_decide.
  - rewrite filter_cons_True by done. cbn. lia.
  - rewrite filter_cons_False by done. cbn. lia.
Qed.

Lemma total_awards self ctx sid : total sid (awards self ctx) = score self ctx sid.
Proof.
  unfold awards, score. induction ctx as [|node ctx IH]; [done|].
  cbn [mbind list_bind fmap list_fmap]. rewrite total_app.
  change (list_bind _ _ ?f ctx) with (ctx ≫= f).
  change (list_fmap _ _ ?f ctx) with (f <$> ctx).
  rewrite IH. cbn [sumZ foldr]. f_equal.
  unfold node_awards. rewrite total_app, total_fmap_const. f_equal.
  generalize (neighbors (_graph self) (_normalize_node node)). intros nbs.
  induction nbs as [|nb nbs IHn]; [done|].
  cbn [mbind list_bind fmap list_fmap]. rewrite total_app, total_fmap_const.
  cbn [sumZ foldr]. f_equal; [lia|exact IHn].
Qed.

Lemma candidate_scores_eq self ctx :
  foldl (score_node self) [] ctx =
  (λ sid, (sid, score self ctx sid)) <$> candidates self ctx.
Proof.
  rewrite foldl_score_node, foldl_od_add. unfold candidates.
  apply list_fmap_ext. intros i sid _. by rewrite total_awards.
Qed.

Lemma query_unfold self ctx k :
  ctx ≠ [] → query self ctx k = omap (record_of self) (py_slice_to k (ranking self ctx)).
Proof.
  intros Hne. unfold query, ranking. destruct ctx as [|node ctx]; [done|].
  by rewrite candidate_scores_eq.
Qed.

Lemma score_nonneg self ctx sid : 0 ≤ score self ctx sid.
Proof.
  unfold score. induction ctx as [|node ctx IH]; [done|].
  cbn [fmap list_fmap sumZ foldr].
  assert (0 ≤ sumZ ((λ nb, occ sid (contributors self nb))
                      <$> neighbors (_graph self) (_normalize_node node))).
  { generalize (neighbors (_graph self) (_normalize_node node)). intros nbs.
    induction nbs as [|nb nbs IHn]; [done|].
    cbn [fmap list_fmap sumZ foldr]. pose proof (occ_nonneg sid (contributors self nb)).
    unfold sumZ in IHn. lia. }
  pose proof (occ_nonneg sid (contributors self (_normalize_node node))).
  unfold sumZ in *. lia.
Qed.

(** Every award is of 1 or 2 points. *)
Lemma awards_points self ctx p : p ∈ awards self ctx → 1 ≤ p.2.
Proof.
  unfold awards. rewrite list_elem_of_bind. intros (node & Hp & _).
  unfold node_awards in Hp. apply elem_of_app in Hp as [Hp|Hp].
  - apply list_elem_of_fmap in Hp as (? & -> & _). simpl. lia.
  - apply list_elem_of_bind in Hp as (nb & Hp & _).
    apply list_elem_of_fmap in Hp as (? & -> & _). simpl. lia.
Qed.

Lemma total_pos sid (aw : list (string * Z)) :
  (∀ p, p ∈ aw → 1 ≤ p.2) → sid ∈ aw.*1 → 0 < total sid aw.
Proof.
  induction aw as [|[k n] aw IH]; [by intros _ ?%elem_of_nil|].
  intros Hp Hin. change ((k, n) :: aw) with ([(k, n)] ++ aw).
  rewrite total_app, total_singleton.
  assert (0 ≤ total sid aw) as Hnn.
  { destruct (decide (sid ∈ aw.*1)) as [Hi|Hi].
    - apply Z.lt_le_incl, IH; [|done]. intros p ?. apply Hp. by right.
    - by rewrite total_not_elem_of. }
  rewrite fmap_cons, elem_of_cons in Hin. simpl in Hin.
  case_decide as Hk.
  - pose proof (Hp (k, n) ltac:(left)) as H1. simpl in H1. lia.
  - destruct Hin as [?|Hin]; [done|].
    assert (0 < total sid aw); [|lia]. apply IH; [|done].
    intros p ?. apply Hp. by right.
Qed.

(** The candidates are the identifiers with a positive score. *)
Lemma candidates_positive self ctx sid :
  sid ∈ candidates self ctx ↔ 0 < score self ctx sid.
Proof.
  unfold candidates. rewrite first_seen_elem_of, <- total_awards. split.
  - apply total_pos. apply awards_points.
  - intros Hpos. destruct (decide (sid ∈ (awards self ctx).*1)); [done|].
    rewrite total_not_elem_of in Hpos by done. lia.
Qed.

Lemma candidates_NoDup self ctx : NoDup (candidates self ctx).
Proof. apply first_seen_NoDup. Qed.
End ScoreFacts.


(* ===================================================================== *)

(** The result of [query] at an arbitrary limit. [query] returns the
    empty list for an empty context,
    whatever the index holds. For a non-empty context it returns the
    stored records of the first [max_results] entries of the ranking
    (missing or empty records skipped), where the ranking lists exactly
    the session identifiers of positive score, each once, with its score:
    2 points per listing among the contributors of a normalised input
    node and 1 point per listing among the contributors of each neighbor
    (the successors followed by the predecessors, so that a node that is
    both counts twice), added over the input nodes; the ranking is in
    descending order of score, and identifiers of equal score stand in
    the order of their first appearance in the score map. The result has
    at most [max_results] records when [max_results] is not negative. *)
Theorem query_ranked_by_score {G} {graph_ops : Graph G}
    (self : GraphIndex G) (ctx : list string) (k : Z) :
  query self [] k = [] ∧
  (ctx ≠ [] →
   query self ctx k = omap (record_of self) (py_slice_to k (ranking self ctx))
   ∧ ranking self ctx ≡ₚ (λ sid, (sid, score self ctx sid)) <$> candidates self ctx
   ∧ NoDup (candidates self ctx)
   ∧ (∀ sid, sid ∈ candidates self ctx ↔ 0 < score self ctx sid)
   ∧ StronglySorted (λ a b, b.2 ≤ a.2) (ranking self ctx)
   ∧ (∀ z, filter (λ a, a.2 = z) (ranking self ctx) =
           (λ sid, (sid, z)) <$> filter (λ sid, score self ctx sid = z) (candidates self ctx))
   ∧ (0 ≤ k → (length (query self ctx k) ≤ Z.to_nat k)%nat)).
Proof.
  split; [done|]. intros Hne. split_and!.
  - by apply query_unfold.
  - apply py_sorted_perm.
  - apply candidates_NoDup.
  - apply candidates_positive.
  - unfold ranking.
    eapply strongly_sorted_mono; [|apply (py_sorted_sorted (λ x : string * Z, - x.2))].
    simpl. intros; lia.
  - intros z. unfold ranking.
    transitivity (filter (λ a : string * Z, - a.2 = - z)
                    (py_sorted (λ x : string * Z, - x.2)
                       ((λ sid, (sid, score self ctx sid)) <$> candidates self ctx))).
    { apply list_filter_iff. intros; lia. }
    rewrite py_sorted_stable.
    induction (candidates self ctx) as [|sid l IH]; [done|].
    rewrite fmap_cons, !filter_cons. simpl.
    repeat case_decide; try lia; rewrite IH; [by subst|done].
  - intros Hk. rewrite query_unfold by done.
    etransitivity; [apply omap_length_le|].
    rewrite py_slice_to_length by done. lia.
Qed.

(** The hypotheses hold for a query of one node with limit 1. *)
Lemma query_ranked_by_score_witness :
  ["tool:read"] ≠ [] ∧ 0 ≤ 1 ∧
  (length (query two_readers ["tool:read"] 1) ≤ Z.to_nat 1)%nat.
Proof.
  split; [done|]. split; [lia|].
  apply (query_ranked_by_score two_readers ["tool:read"] 1); [done|lia].
Defined.


(* ===================================================================== *)
(** * The contract of the graph abstraction                               *)
(* ===================================================================== *)

Section Rows.
Context {V : Type}.
Implicit Types (m : gmap string (list V)) (row : list V).

Lemma rowof_insert m u row x :
  rowof (<[u := row]> m) x = if decide (u = x) then row else rowof m x.
Proof.
  unfold rowof. case_decide as Hx.
  - subst. by rewrite lookup_insert_eq.
  - by rewrite lookup_insert_ne.
Qed.

Lemma sum_row_lengths_insert m u row :
  (sum_row_lengths (<[u := row]> m) + length (rowof m u) =
   sum_row_lengths m + length row)%nat.
Proof.
  unfold sum_row_lengths, rowof. destruct (m !! u) as [old|] eqn:E; simpl.
  - rewrite <- (insert_delete_eq m), map_to_list_insert by apply lookup_delete_eq.
    rewrite <- (map_to_list_delete m u old E). simpl. lia.
  - rewrite map_to_list_insert by done. simpl. lia.
Qed.

Lemma sum_row_lengths_empty : sum_row_lengths (∅ : gmap string (list V)) = O.
Proof. unfold sum_row_lengths. by rewrite map_to_list_empty. Qed.

(** Entering an empty row under a key changes neither the rows as read
    with a default nor the sum of their lengths. *)
Lemma rowof_insert_nil m u x : m !! u = None → rowof (<[u := []]> m) x = rowof m x.
Proof.
  intros E. rewrite rowof_insert. case_decide; [subst|done].
  unfold rowof. by rewrite E.
Qed.

Lemma sum_row_lengths_insert_nil m u :
  m !! u = None → sum_row_lengths (<[u := []]> m) = sum_row_lengths m.
Proof.
  intros E. pose proof (sum_row_lengths_insert m u []) as Hs.
  unfold rowof in Hs. rewrite E in Hs. simpl in Hs. lia.
Qed.
End Rows.

Lemma od_mem_get {V} k (d : odict V) : od_mem k d = bool_decide (is_Some (od_get k d)).
Proof.
  unfold od_mem. destruct (od_get k d).
  - by rewrite bool_decide_eq_true_2.
  - rewrite bool_decide_eq_false_2; [done|]. by intros [? ?].
Qed.

(** ** The networkx backend satisfies the contract *)

Lemma nx_getitem_row g u v : Nx.getitem g u v = od_get v (rowof (Nx._succ g) u).
Proof. unfold Nx.getitem, rowof. by destruct (Nx._succ g !! u). Qed.

Lemma nx_has_edge_row g u v : Nx.has_edge g u v = od_mem v (rowof (Nx._succ g) u).
Proof. unfold Nx.has_edge, rowof. by destruct (Nx._succ g !! u). Qed.

Lemma nx_touch_row n g x : rowof (Nx._succ (Nx.touch n g)) x = rowof (Nx._succ g) x.
Proof.
  unfold Nx.touch. case_decide as Hn; [done|]. simpl.
  apply rowof_insert_nil. by apply not_elem_of_dom.
Qed.

Lemma nx_touch_edges n g :
  sum_row_lengths (Nx._succ (Nx.touch n g)) = sum_row_lengths (Nx._succ g).
Proof.
  unfold Nx.touch. case_decide as Hn; [done|]. simpl.
  apply sum_row_lengths_insert_nil. by apply not_elem_of_dom.
Qed.

Lemma nx_add_edge_data g u v r u' v' :
  Nx.getitem (Nx._add_edge g u v r) u' v' =
  if decide (u = u' ∧ v = v') then Some (bump r (Nx.getitem g u v))
  else Nx.getitem g u' v'.
Proof.
  unfold Nx._add_edge. rewrite nx_has_edge_row, !nx_getitem_row.
  unfold od_mem. destruct (od_get v (rowof (Nx._succ g) u)) as [a|] eqn:Ea.
  - (* the edge is there: its weight is incremented in place *)
    unfold Nx.set_weight. unfold rowof in Ea.
    destruct (Nx._succ g !! u) as [row|] eqn:Er; [|done]. simpl in Ea.
    rewrite Ea. simpl. rewrite rowof_insert.
    destruct (decide (u = u')) as [<-|Hu].
    + rewrite od_get_set. destruct (decide (v = v')) as [<-|Hv].
      * by rewrite decide_True.
      * rewrite decide_False by (by intros [? ?]). unfold rowof. by rewrite Er.
    + by rewrite decide_False by (by intros [? ?]).
  - (* the edge is new *)
    unfold Nx.add_edge. simpl. rewrite rowof_insert.
    fold (rowof (Nx._succ (Nx.touch v (Nx.touch u g))) u).
    rewrite !nx_touch_row.
    destruct (decide (u = u')) as [<-|Hu].
    + rewrite od_get_set. destruct (decide (v = v')) as [<-|Hv].
      * by rewrite decide_True.
      * by rewrite decide_False by (by intros [? ?]).
    + by rewrite decide_False by (by intros [? ?]).
Qed.

Lemma nx_add_edge_count g u v r :
  Nx.number_of_edges (Nx._add_edge g u v r) =
  if Nx.has_edge g u v then Nx.number_of_edges g else S (Nx.number_of_edges g).
Proof.
  unfold Nx._add_edge, Nx.number_of_edges.
  rewrite nx_has_edge_row, nx_getitem_row.
  unfold od_mem. destruct (od_get v (rowof (Nx._succ g) u)) as [a|] eqn:Ea.
  - unfold Nx.set_weight. unfold rowof in Ea.
    destruct (Nx._succ g !! u) as [row|] eqn:Er; [|done]. simpl in Ea.
    rewrite Ea. simpl.
    pose proof (sum_row_lengths_insert (Nx._succ g) u
                  (od_set v (Attrs (Some (get_weight a + 1)) (rel a)) row)) as Hs.
    rewrite od_set_length in Hs. unfold od_mem, rowof in Hs.
    rewrite Ea, Er in Hs. simpl in Hs. lia.
  - unfold Nx.add_edge. simpl.
    fold (rowof (Nx._succ (Nx.touch v (Nx.touch u g))) u).
    pose proof (sum_row_lengths_insert (Nx._succ (Nx.touch v (Nx.touch u g))) u
                  (od_set v (Attrs (Some 1) r)
                     (rowof (Nx._succ (Nx.touch v (Nx.touch u g))) u))) as Hs.
    rewrite od_set_length in Hs. unfold od_mem in Hs.
    rewrite !nx_touch_row, !nx_touch_edges in *. rewrite Ea in Hs. lia.
Qed.


Lemma od_mem_set {V} k k' (v : V) (d : odict V) :
  od_mem k (od_set k' v d) = (bool_decide (k' = k) || od_mem k d)%bool.
Proof.
  unfold od_mem. rewrite od_get_set. case_decide as Hk.
  - by rewrite bool_decide_eq_true_2.
  - by rewrite bool_decide_eq_false_2.
Qed.

Lemma od_mem_keys {V} k (d : odict V) : k ∈ od_keys d ↔ od_mem k d = true.
Proof.
  rewrite <- od_get_elem_of. unfold od_mem.
  destruct (od_get k d); split; [done|eauto|by intros [? ?]|done].
Qed.

Lemma nx_touch_consistent n g :
  nx_consistent g →
  nx_consistent (Nx.touch n g) ∧ n ∈ dom (Nx._succ (Nx.touch n g)) ∧
  (∀ x, rowof (Nx._pred (Nx.touch n g)) x = rowof (Nx._pred g) x) ∧
  (∀ x, x ∈ dom (Nx._succ g) → x ∈ dom (Nx._succ (Nx.touch n g))).
Proof.
  intros (Hs & Hp & Hsp). unfold Nx.touch. case_decide as Hn; [done|].
  unfold nx_consistent. cbn [Nx._succ Nx._pred Nx._node].
  assert (Nx._succ g !! n = None) as Esn by (by apply not_elem_of_dom).
  assert (Nx._pred g !! n = None) as Epn.
  { apply not_elem_of_dom. by rewrite Hp, <- Hs. }
  split; [|split; [|split]].
  - split; [|split].
    + by rewrite dom_insert_L, Hs.
    + by rewrite dom_insert_L, Hp.
    + intros u v. fold (rowof (<[n:=[]]> (Nx._pred g)) v).
      fold (rowof (<[n:=[]]> (Nx._succ g)) u).
      rewrite !rowof_insert_nil by done. apply Hsp.
  - rewrite dom_insert_L. apply elem_of_union_l. by apply elem_of_singleton.
  - intros x. by apply rowof_insert_nil.
  - intros x Hx. rewrite dom_insert_L. by apply elem_of_union_r.
Qed.

Lemma nx_add_edge_consistent g u v r :
  nx_consistent g → nx_consistent (Nx._add_edge g u v r).
Proof.
  intros Hg. unfold Nx._add_edge. rewrite nx_has_edge_row, nx_getitem_row.
  unfold od_mem at 1.
  destruct (od_get v (rowof (Nx._succ g) u)) as [a|] eqn:Ea.
  - (* the weight of an edge is rewritten in place *)
    destruct Hg as (Hs & Hp & Hsp).
    unfold Nx.set_weight. unfold rowof in Ea.
    destruct (Nx._succ g !! u) as [row|] eqn:Er; [|done]. simpl in Ea. rewrite Ea.
    unfold nx_consistent. (split; [|split]); cbn [Nx._succ Nx._pred Nx._node].
    + rewrite dom_insert_L, <- Hs. apply (anti_symm (⊆)).
      * apply union_least; [|done]. apply singleton_subseteq_l, elem_of_dom. eauto.
      * apply union_subseteq_r.
    + done.
    + intros u0 v0. rewrite Hsp. fold (rowof (<[u:=od_set v (Attrs (Some (get_weight a + 1)) (rel a)) row]> (Nx._succ g)) u0).
      rewrite rowof_insert. case_decide as Hu; [subst u0|done].
      rewrite Er. simpl. rewrite od_mem_set.
      destruct (decide (v = v0)) as [->|Hv].
      * rewrite bool_decide_eq_true_2 by done. unfold od_mem. rewrite Ea. done.
      * by rewrite bool_decide_eq_false_2.
  - (* a new edge is entered in both tables *)
    destruct (nx_touch_consistent u g Hg) as (Hg1 & Hu1 & Hp1 & Hd1).
    destruct (nx_touch_consistent v (Nx.touch u g) Hg1) as (Hg2 & Hv2 & Hp2 & Hd2).
    set (g2 := Nx.touch v (Nx.touch u g)) in *.
    destruct Hg2 as (Hs & Hp & Hsp).
    unfold Nx.add_edge. fold g2.
    assert (u ∈ dom (Nx._succ g2)) as Hu2 by (by apply Hd2).
    unfold nx_consistent. (split; [|split]); cbn [Nx._succ Nx._pred Nx._node].
    + rewrite dom_insert_L, <- Hs. apply (anti_symm (⊆)).
      * apply union_least; [|done]. by apply singleton_subseteq_l.
      * apply union_subseteq_r.
    + rewrite dom_insert_L, <- Hp. apply (anti_symm (⊆)).
      * apply union_least; [|done]. apply singleton_subseteq_l. by rewrite Hp, <- Hs.
      * apply union_subseteq_r.
    + intros u0 v0.
      fold (rowof (<[u:=od_set v (Attrs (Some 1) r) (default [] (Nx._succ g2 !! u))]>
                     (Nx._succ g2)) u0).
      fold (rowof (<[v:=if decide (u ∈ default [] (Nx._pred g2 !! v))
                        then default [] (Nx._pred g2 !! v)
                        else default [] (Nx._pred g2 !! v) ++ [u]]> (Nx._pred g2)) v0).
      rewrite !rowof_insert.
      assert (u0 ∈ (if decide (v = v0)
                    then if decide (u ∈ default [] (Nx._pred g2 !! v))
                         then default [] (Nx._pred g2 !! v)
                         else default [] (Nx._pred g2 !! v) ++ [u]
                    else rowof (Nx._pred g2) v0)
              ↔ u0 ∈ rowof (Nx._pred g2) v0 ∨ (v = v0 ∧ u = u0)) as ->.
      { case_decide as Hv; [subst v0|tauto]. unfold rowof.
        case_decide as Hin.
        - split; [tauto|]. intros [?|[_ <-]]; done.
        - rewrite elem_of_app, list_elem_of_singleton. split; [|intros [?|[_ <-]]; tauto].
          intros [?| ->]; tauto. }
      assert (od_mem v0 (if decide (u = u0)
                         then od_set v (Attrs (Some 1) r) (default [] (Nx._succ g2 !! u))
                         else rowof (Nx._succ g2) u0) = true
              ↔ od_mem v0 (rowof (Nx._succ g2) u0) = true ∨ (v = v0 ∧ u = u0)) as ->.
      { case_decide as Hu; [subst u0|tauto]. rewrite od_mem_set. unfold rowof.
        rewrite orb_true_iff, bool_decide_eq_true. tauto. }
      unfold rowof. by rewrite Hsp.
Qed.

Lemma nx_empty_consistent : nx_consistent Nx.empty.
Proof.
  split; [done|]. split; [done|]. intros u v. simpl. rewrite !lookup_empty. simpl.
  split; [by intros ?%elem_of_nil|done].
Qed.

Lemma nx_built_consistent (es : list edge) :
  nx_consistent (foldl insert_edge make_graph es).
Proof.
  induction es as [|e es IH] using rev_ind; [apply nx_empty_consistent|].
  rewrite foldl_snoc. by apply nx_add_edge_consistent.
Qed.

Lemma nx_neighbors_adjacent g n x :
  nx_consistent g →
  x ∈ Nx._neighbors g n ↔ Nx.has_edge g n x = true ∨ Nx.has_edge g x n = true.
Proof.
  intros (Hs & Hp & Hsp). unfold Nx._neighbors, Nx.contains.
  rewrite !nx_has_edge_row. unfold rowof. rewrite <- (Hsp x n).
  case_bool_decide as Hn; cbn [negb].
  - unfold Nx.successors, Nx.predecessors. by rewrite elem_of_app, od_mem_keys.
  - assert (Nx._succ g !! n = None) as -> by (apply not_elem_of_dom; by rewrite Hs).
    assert (Nx._pred g !! n = None) as -> by (apply not_elem_of_dom; by rewrite Hp).
    simpl. split; [by intros ?%elem_of_nil|].
    intros [?|?%elem_of_nil]; done.
Qed.

#[export] Instance nx_graph_laws : GraphLaws Nx.DiGraph.
Proof.
  split.
  - done.
  - intros g u v. simpl. rewrite nx_has_edge_row, nx_getitem_row. apply od_mem_get.
  - apply nx_add_edge_data.
  - apply (sum_row_lengths_empty (V:=string * attrs)).
  - reflexivity.
  - apply nx_add_edge_count.
  - intros es n x. apply nx_neighbors_adjacent, nx_built_consistent.
Qed.

(** ** The dependency-free backend satisfies the contract *)

Lemma dd_touch_row {V} k (m : gmap string (list V)) x :
  rowof (Pure.dd_touch [] k m) x = rowof m x.
Proof.
  unfold Pure.dd_touch. destruct (m !! k) eqn:E; [done|]. by apply rowof_insert_nil.
Qed.

Lemma dd_touch_edges {V} k (m : gmap string (list V)) :
  sum_row_lengths (Pure.dd_touch [] k m) = sum_row_lengths m.
Proof.
  unfold Pure.dd_touch. destruct (m !! k) eqn:E; [done|].
  by apply sum_row_lengths_insert_nil.
Qed.

Lemma pure_getitem_row g u v : Pure.getitem g u v = od_get v (rowof (Pure._out g) u).
Proof. unfold Pure.getitem, rowof. by destruct (Pure._out g !! u). Qed.

(** The table [_out] after [add_edge], in one expression. *)
Lemma pure_add_edge_out g u v r :
  Pure._out (Pure.add_edge g u v r) =
  Pure.dd_touch [] v
    (<[u := od_set v (bump r (od_get v (rowof (Pure._out g) u))) (rowof (Pure._out g) u)]>
       (Pure.dd_touch [] u (Pure._out g))).
Proof.
  unfold Pure.add_edge. simpl.
  fold (rowof (Pure.dd_touch [] u (Pure._out g)) u). rewrite dd_touch_row.
  by destruct (od_get v (rowof (Pure._out g) u)).
Qed.

Lemma pure_add_edge_data g u v r u' v' :
  Pure.getitem (Pure._add_edge g u v r) u' v' =
  if decide (u = u' ∧ v = v') then Some (bump r (Pure.getitem g u v))
  else Pure.getitem g u' v'.
Proof.
  unfold Pure._add_edge. rewrite !pure_getitem_row, pure_add_edge_out.
  rewrite dd_touch_row, rowof_insert.
  destruct (decide (u = u')) as [<-|Hu].
  - rewrite od_get_set. destruct (decide (v = v')) as [<-|Hv].
    + by rewrite decide_True.
    + by rewrite decide_False by (by intros [? ?]).
  - rewrite decide_False by (by intros [? ?]). by rewrite dd_touch_row.
Qed.

Lemma pure_add_edge_count g u v r :
  Pure.number_of_edges (Pure._add_edge g u v r) =
  if Pure.has_edge g u v then Pure.number_of_edges g else S (Pure.number_of_edges g).
Proof.
  unfold Pure._add_edge, Pure.number_of_edges, Pure.has_edge.
  rewrite pure_add_edge_out, dd_touch_edges.
  fold (rowof (Pure._out g) u).
  pose proof (sum_row_lengths_insert (Pure.dd_touch [] u (Pure._out g)) u
                (od_set v (bump r (od_get v (rowof (Pure._out g) u)))
                        (rowof (Pure._out g) u))) as Hs.
  rewrite od_set_length, dd_touch_row, dd_touch_edges in Hs.
  destruct (od_mem v (rowof (Pure._out g) u)); lia.
Qed.

Lemma dd_touch_set k (m : gmap string (gset string)) x :
  default ∅ (Pure.dd_touch ∅ k m !! x) = default ∅ (m !! x).
Proof.
  unfold Pure.dd_touch. destruct (m !! k) eqn:E; [done|].
  destruct (decide (k = x)) as [->|Hne].
  - by rewrite lookup_insert_eq, E.
  - by rewrite lookup_insert_ne.
Qed.

Lemma pure_add_edge_consistent g u v r :
  pure_consistent g → pure_consistent (Pure._add_edge g u v r).
Proof.
  intros Hg u0 v0. unfold pure_consistent in Hg. unfold Pure._add_edge.
  fold (rowof (Pure._out (Pure.add_edge g u v r)) u0).
  rewrite pure_add_edge_out, dd_touch_row, rowof_insert, dd_touch_row.
  unfold Pure.add_edge. cbn [Pure._in]. rewrite dd_touch_set.
  destruct (decide (v = v0)) as [<-|Hv].
  - rewrite lookup_insert_eq. cbn [default from_option]. unfold id.
    rewrite elem_of_union, elem_of_singleton, Hg.
    case_decide as Hu.
    + subst u0. rewrite od_mem_set, bool_decide_eq_true_2 by done. simpl. tauto.
    + unfold rowof. split; [intros [?|?]; [done|congruence]|tauto].
  - rewrite lookup_insert_ne by done. rewrite Hg.
    case_decide as Hu; [|done]. subst u0.
    rewrite od_mem_set, bool_decide_eq_false_2 by done. done.
Qed.

Lemma pure_built_consistent (o : set_order) (es : list edge) :
  pure_consistent (foldl (@insert_edge _ (pure_graph o)) Pure.empty es).
Proof.
  induction es as [|e es IH] using rev_ind.
  - intros u v. simpl. rewrite !lookup_empty. simpl.
    split; [by intros ?%elem_of_empty|done].
  - rewrite foldl_snoc. by apply pure_add_edge_consistent.
Qed.

Lemma pure_neighbors_adjacent o g n x :
  pure_consistent g →
  x ∈ Pure._neighbors o g n ↔ Pure.has_edge g n x = true ∨ Pure.has_edge g x n = true.
Proof.
  intros Hg. unfold pure_consistent in Hg.
  unfold Pure._neighbors, Pure.contains, Pure.has_edge.
  rewrite <- (Hg x n).
  case_bool_decide as Hn; cbn [negb].
  - unfold Pure.successors, Pure.predecessors.
    by rewrite elem_of_app, od_mem_keys, set_iter_perm, elem_of_elements.
  - assert (Pure._out g !! n = None) as ->.
    { apply not_elem_of_dom. tauto. }
    assert (Pure._in g !! n = None) as ->.
    { apply not_elem_of_dom. tauto. }
    simpl. split; [by intros ?%elem_of_nil|].
    intros [?|?%elem_of_empty]; done.
Qed.

Lemma pure_graph_laws (o : set_order) : @GraphLaws Pure._PureGraph (pure_graph o).
Proof.
  split.
  - done.
  - intros g u v. simpl. rewrite pure_getitem_row. apply od_mem_get.
  - apply pure_add_edge_data.
  - apply (sum_row_lengths_empty (V:=string * attrs)).
  - reflexivity.
  - apply pure_add_edge_count.
  - intros es n x. apply pure_neighbors_adjacent, pure_built_consistent.
Qed.

(* ===================================================================== *)
(** * The edges that a session contributes                                *)
(* ===================================================================== *)

Section SessionEdges.
Context {G : Type} {graph_ops : Graph G}.

Lemma index_tool_use_edges g seq tu :
  index_tool_use (g, seq) tu =
  (foldl insert_edge g (tool_use_edges tu), seq ++ tool_use_node tu).
Proof.
  unfold index_tool_use, tool_use_edges, tool_use_node.
  destruct (str_truthy (py_strip (tool tu))); simpl.
  - by rewrite foldl_fmap.
  - by rewrite app_nil_r.
Qed.

Lemma index_tool_uses_edges tus : ∀ g seq,
  foldl index_tool_use (g, seq) tus =
  (foldl insert_edge g (tus ≫= tool_use_edges), seq ++ (tus ≫= tool_use_node)).
Proof.
  induction tus as [|tu tus IH]; intros g seq.
  - simpl. by rewrite app_nil_r.
  - cbn [foldl mbind list_bind]. rewrite index_tool_use_edges, IH.
    by rewrite foldl_app, app_assoc.
Qed.

Lemma index_message_edges g seq msg :
  index_message (g, seq) msg =
  (foldl insert_edge g (message_edges msg),
   seq ++ (tool_uses msg ≫= tool_use_node)).
Proof.
  unfold index_message, message_edges.
  rewrite index_tool_uses_edges, !foldl_app, foldl_fmap.
  case_bool_decide; [by rewrite foldl_fmap|done].
Qed.

Lemma index_messages_edges msgs : ∀ g seq,
  foldl index_message (g, seq) msgs =
  (foldl insert_edge g (msgs ≫= message_edges),
   seq ++ (msgs ≫= λ msg, tool_uses msg ≫= tool_use_node)).
Proof.
  induction msgs as [|msg msgs IH]; intros g seq.
  - simpl. by rewrite app_nil_r.
  - cbn [foldl mbind list_bind]. rewrite index_message_edges, IH.
    by rewrite foldl_app, app_assoc.
Qed.

Lemma transitions_by_index (l : list string) :
  transitions l = (λ i, (l !!! i, l !!! S i)) <$> seq 0 (length l - 1).
Proof.
  unfold transitions. induction l as [|x l IH]; [done|].
  destruct l as [|y l]; [done|].
  change (zip (x :: y :: l) (tail (x :: y :: l))) with ((x, y) :: zip (y :: l) (tail (y :: l))).
  replace (length (x :: y :: l) - 1)%nat with (S (length l)) by (simpl; lia).
  replace (length (y :: l) - 1)%nat with (length l) in IH by (simpl; lia).
  rewrite IH. cbn [seq]. rewrite fmap_cons. f_equal.
  rewrite <- fmap_S_seq, <- list_fmap_compose.
  by apply list_fmap_ext.
Qed.

(** [_index_session] is the insertion of the session's edges, one by
    one, in order. *)
Lemma index_session_edges g s :
  _index_session g s = foldl insert_edge g (session_edges s).
Proof.
  unfold _index_session, session_edges.
  rewrite index_messages_edges. cbn [app].
  fold (session_tool_seq s). rewrite foldl_app.
  rewrite transitions_by_index, !foldl_fmap.
  generalize (foldl insert_edge g (get_messages s ≫= message_edges)).
  generalize (seq 0 (length (session_tool_seq s) - 1)).
  intros l. induction l as [|i l IH]; intros g0; [done|].
  cbn [foldl]. rewrite IH. unfold insert_edge, transition_rel. cbn [fst snd].
  by rewrite Nat.add_1_r.
Qed.
End SessionEdges.

(* ===================================================================== *)
(** * What a sequence of insertions does to a graph                       *)
(* ===================================================================== *)

Lemma emitted_cons u v e es :
  emitted u v (e :: es) = ((if decide (e.1 = (u, v)) then 1 else 0) + emitted u v es)%nat.
Proof. unfold emitted. rewrite filter_cons. by case_decide. Qed.

Lemma emitted_app u v es es' :
  emitted u v (es ++ es') = (emitted u v es + emitted u v es')%nat.
Proof. unfold emitted. by rewrite filter_app, length_app. Qed.

Lemma emitted_pos u v es : (0 < emitted u v es)%nat ↔ (u, v) ∈ es.*1.
Proof.
  induction es as [|e es IH].
  - split; [inversion 1|by intros ?%elem_of_nil].
  - rewrite emitted_cons, fmap_cons, elem_of_cons.
    case_decide as He.
    + split; [intros _; by left|lia].
    + rewrite <- IH. split; [intros; right; lia|].
      intros [?|?]; [congruence|lia].
Qed.

Lemma accumulate_some u v es : ∀ a,
  ∃ a', accumulate u v (Some a) es = Some a' ∧
        get_weight a' = get_weight a + Z.of_nat (emitted u v es) ∧
        rel a' = rel a.
Proof.
  unfold accumulate. induction es as [|e es IH]; intros a.
  - exists a. split_and!; [done| |done]. unfold emitted. simpl. lia.
  - cbn [foldl]. rewrite emitted_cons. case_decide as He.
    + destruct (IH (bump e.2 (Some a))) as (a' & Ha' & Hw & Hr).
      exists a'. split_and!; [done| |done].
      rewrite Hw. unfold get_weight at 1. simpl. lia.
    + destruct (IH a) as (a' & Ha' & Hw & Hr).
      exists a'. split_and!; [done| |done]. rewrite Hw. lia.
Qed.

Lemma accumulate_none u v es :
  emitted u v es = O → accumulate u v None es = None.
Proof.
  unfold accumulate. induction es as [|e es IH]; [done|].
  rewrite emitted_cons. cbn [foldl]. case_decide; [lia|]. intros. apply IH. lia.
Qed.

Lemma accumulate_fresh u v r es :
  (∀ e, e ∈ es → e.1 = (u, v) → e.2 = r) → (0 < emitted u v es)%nat →
  ∃ a', accumulate u v None es = Some a' ∧
        get_weight a' = Z.of_nat (emitted u v es) ∧ rel a' = r.
Proof.
  induction es as [|e es IH]; [inversion 2|].
  intros Hrel Hpos. rewrite emitted_cons in *. unfold accumulate in *.
  cbn [foldl]. case_decide as He.
  - destruct (accumulate_some u v es (bump e.2 None)) as (a' & Ha' & Hw & Hr).
    exists a'. split_and!; [done| |].
    + rewrite Hw. unfold get_weight at 1. simpl. lia.
    + rewrite Hr. simpl. apply Hrel; [by left|done].
  - destruct IH as (a' & Ha' & Hw & Hr); [|lia|].
    + intros e' ?. apply Hrel. by right.
    + exists a'. split_and!; [done| |done]. rewrite Hw. lia.
Qed.

Lemma accumulate_none_is_Some u v es :
  is_Some (accumulate u v None es) ↔ (0 < emitted u v es)%nat.
Proof.
  unfold accumulate. induction es as [|e es IH].
  - simpl. split; [by intros [? ?]|inversion 1].
  - rewrite emitted_cons. cbn [foldl]. case_decide as He.
    + split; [lia|intros _].
      destruct (accumulate_some u v es (bump e.2 None)) as (a' & Ha' & _).
      unfold accumulate in Ha'. rewrite Ha'. eauto.
    + by rewrite IH.
Qed.

Section InsertMany.
Context {G : Type} {graph_ops : Graph G} {laws : GraphLaws G}.

Lemma insert_edges_data es : ∀ g u v,
  edge_data (foldl insert_edge g es) u v = accumulate u v (edge_data g u v) es.
Proof.
  unfold accumulate. induction es as [|[[a b] r] es IH]; intros g u v; [done|].
  cbn [foldl]. rewrite IH. unfold insert_edge. cbn [fst snd].
  rewrite edge_data_add. f_equal.
  destruct (decide (a = u ∧ b = v)) as [[-> ->]|Hne].
  - by rewrite decide_True.
  - rewrite decide_False; [done|]. intros [= -> ->]. by apply Hne.
Qed.

Lemma insert_edges_has_edge es g u v :
  has_edge (foldl insert_edge g es) u v =
  (has_edge g u v || bool_decide ((u, v) ∈ es.*1))%bool.
Proof.
  rewrite !has_edge_data, insert_edges_data.
  destruct (edge_data g u v) as [a|] eqn:E.
  - destruct (accumulate_some u v es a) as (a' & -> & _).
    by rewrite !bool_decide_eq_true_2 by eauto.
  - rewrite (bool_decide_eq_false_2 (is_Some None)) by (by intros [? ?]).
    simpl. apply bool_decide_ext.
    by rewrite accumulate_none_is_Some, emitted_pos.
Qed.
End InsertMany.

Section InsertCount.
Context {G : Type} {graph_ops : Graph G} {laws : GraphLaws G}.

Lemma add_edge_has_edge g u v r u' v' :
  has_edge g u' v' = true → has_edge (add_edge g u v r) u' v' = true.
Proof.
  rewrite !has_edge_data, edge_data_add.
  intros Hs%bool_decide_eq_true. apply bool_decide_eq_true.
  case_decide; [eauto|done].
Qed.

(** Insertions that only name edges of the graph add no edge. *)
Lemma insert_edges_count_known es : ∀ g,
  (∀ e, e ∈ es → has_edge g e.1.1 e.1.2 = true) →
  edge_count (foldl insert_edge g es) = edge_count g.
Proof.
  induction es as [|e es IH]; intros g Hes; [done|].
  cbn [foldl]. rewrite IH.
  - unfold insert_edge. rewrite edge_count_add, Hes; [done|by left].
  - intros e' He'. apply add_edge_has_edge, Hes. by right.
Qed.

(** From the empty graph, the edges are the distinct pairs inserted. *)
Lemma insert_edges_count_fresh es :
  edge_count (foldl insert_edge make_graph es) = length (first_seen (es.*1)).
Proof.
  induction es as [|[[u v] r] es IH] using rev_ind; [apply edge_count_make|].
  rewrite foldl_snoc, fmap_app. cbn [fmap list_fmap fst].
  rewrite first_seen_snoc. unfold insert_edge at 1. cbn [fst snd].
  rewrite edge_count_add, insert_edges_has_edge, IH.
  rewrite has_edge_data, edge_data_make.
  rewrite (bool_decide_eq_false_2 (is_Some None)) by (by intros [? ?]). simpl.
  assert (bool_decide ((u, v) ∈ first_seen es.*1) = bool_decide ((u, v) ∈ es.*1)) as ->.
  { apply bool_decide_ext, first_seen_elem_of. }
  destruct (bool_decide ((u, v) ∈ es.*1)); [done|].
  rewrite length_app. simpl. lia.
Qed.
End InsertCount.

(* ===================================================================== *)
(** * C1: the ranking computed by [query]                                 *)
(* ===================================================================== *)
(** * C2: edge weights accumulate                                         *)
(* ===================================================================== *)

Lemma transitions_lookup (l : list string) i a b :
  l !! i = Some a → l !! S i = Some b → (a, b) ∈ transitions l.
Proof.
  intros Ha Hb. unfold transitions. apply list_elem_of_lookup. exists i.
  apply lookup_zip_with_Some. exists a, b. split_and!; [done|done|].
  destruct l; [done|]. by simpl in *.
Qed.

Lemma transition_emitted s i a b :
  session_tool_seq s !! i = Some a → session_tool_seq s !! S i = Some b →
  (a, b) ∈ (session_edges s).*1.
Proof.
  intros Ha Hb. unfold session_edges. rewrite fmap_app, elem_of_app. right.
  rewrite <- list_fmap_compose. apply list_elem_of_fmap.
  exists (a, b). split; [done|]. by eapply transitions_lookup.
Qed.

Lemma laws_accumulate_weights {G} {graph_ops : Graph G} {laws : GraphLaws G} :
  accumulates_weights G.
Proof.
  split.
  - intros g src dst r. split.
    + pose proof (has_edge_data g src dst) as Hh.
      pose proof (edge_data_add g src dst r src dst) as Hd.
      pose proof (edge_count_add g src dst r) as Hc.
      rewrite decide_True in Hd by done.
      destruct (edge_data g src dst) as [a|].
      * rewrite bool_decide_eq_true_2 in Hh by eauto. by rewrite Hh in Hc.
      * rewrite bool_decide_eq_false_2 in Hh by (by intros [? ?]). by rewrite Hh in Hc.
    + intros u v Hne. rewrite edge_data_add, decide_False; [done|].
      intros [-> ->]. by apply Hne.
  - intros g s g1 g2. subst g1 g2. rewrite !index_session_edges.
    set (es := session_edges s). set (g1 := foldl insert_edge g es).
    assert (∀ u v, (u, v) ∈ es.*1 → has_edge g1 u v = true) as Hin.
    { intros u v Huv. unfold g1. rewrite insert_edges_has_edge.
      by rewrite (bool_decide_eq_true_2 _ Huv), orb_true_r. }
    assert (∀ u v, match edge_data g1 u v with
                   | Some a1 =>
                       ∃ a2, edge_data (foldl insert_edge g1 es) u v = Some a2 ∧
                             get_weight a2 = get_weight a1 + Z.of_nat (emitted u v es) ∧
                             rel a2 = rel a1
                   | None => edge_data (foldl insert_edge g1 es) u v = None
                   end) as Hdata.
    { intros u v. rewrite (insert_edges_data es g1).
      destruct (edge_data g1 u v) as [a1|] eqn:E1; [apply accumulate_some|].
      apply accumulate_none. destruct (emitted u v es) eqn:En; [done|].
      assert ((u, v) ∈ es.*1) as Huv by (apply emitted_pos; lia).
      apply Hin in Huv. rewrite has_edge_data, E1 in Huv.
      apply bool_decide_eq_true in Huv as [? ?]. done. }
    split_and!.
    + apply insert_edges_count_known. intros [[u v] r] He. apply Hin.
      apply list_elem_of_fmap. by exists (u, v, r).
    + exact Hdata.
    + intros i a b Ha Hb.
      pose proof (transition_emitted s i a b Ha Hb) as Hab. fold es in Hab.
      pose proof (Hin a b Hab) as Hh. rewrite has_edge_data in Hh.
      apply bool_decide_eq_true in Hh as [a1 E1].
      pose proof (Hdata a b) as Hd. rewrite E1 in Hd.
      destruct Hd as (a2 & E2 & Hw & _).
      exists a1, a2. split_and!; [done|done| |].
      * apply emitted_pos in Hab. lia.
      * intros En. rewrite Hw, En. lia.
Qed.

(** C2 (as amended). In both graph backends: an insertion of an edge that
    exists adds exactly one to its weight, creates no parallel edge and
    keeps the relation tag given at creation; an insertion of an absent
    edge creates it with weight 1; and indexing the same session again
    adds no edge and adds to the weight of each edge the number of times
    the session inserts it: exactly one for a transition that occurs
    once in the tool sequence of the session, and at least one for every
    transition. *)
Theorem edge_weights_accumulate :
  @accumulates_weights Nx.DiGraph nx_graph ∧
  ∀ o : set_order, @accumulates_weights Pure._PureGraph (pure_graph o).
Proof.
  split.
  - apply laws_accumulate_weights.
  - intros o. apply (@laws_accumulate_weights _ _ (pure_graph_laws o)).
Qed.

(** C2 as stated does not hold for a transition that a session repeats.
    The session with the tools Read, Read, Read inserts the edge from
    [tool:read] to itself twice: after it is indexed once the weight is
    2, and after it is indexed again the weight is 4, not 3, on both
    backends. *)
Lemma reindexing_repeated_transition_counterexample :
  get_weight <$> Nx.getitem (_index_session Nx._make_graph read_read_read)
                            "tool:read" "tool:read" = Some 2 ∧
  get_weight <$> Nx.getitem
                   (_index_session (_index_session Nx._make_graph read_read_read)
                                   read_read_read)
                   "tool:read" "tool:read" = Some 4 ∧
  get_weight <$> Pure.getitem
                   (@_index_session _ (pure_graph elements_order)
                      Pure._make_graph read_read_read)
                   "tool:read" "tool:read" = Some 2 ∧
  get_weight <$> Pure.getitem
                   (@_index_session _ (pure_graph elements_order)
                      (@_index_session _ (pure_graph elements_order)
                         Pure._make_graph read_read_read)
                      read_read_read)
                   "tool:read" "tool:read" = Some 4 ∧
  4 ≠ 2 + 1.
Proof. split_and!; [by vm_compute..|lia]. Qed.

(* ===================================================================== *)
(** * C3: the transitions of one successful session                       *)
(* ===================================================================== *)

Lemma tool_node_not_file_node n m : _tool_node n ≠ _file_node m.
Proof. unfold _tool_node, _file_node. simpl. intros [=]. Qed.

Lemma tool_node_not_error_node n m : _tool_node n ≠ _error_node m.
Proof. unfold _tool_node, _error_node. simpl. intros [=]. Qed.

Lemma session_tool_seq_tool_node s x :
  x ∈ session_tool_seq s → ∃ n, x = _tool_node n.
Proof.
  unfold session_tool_seq. intros (msg & Hx & _)%list_elem_of_bind.
  apply list_elem_of_bind in Hx as (tu & Hx & _). unfold tool_use_node in Hx.
  destruct (str_truthy _); [|by apply elem_of_nil in Hx].
  apply list_elem_of_singleton in Hx. eauto.
Qed.

(** The source of an insertion made while a message is processed is a
    file node or an error node. *)
Lemma message_edges_source msg e :
  e ∈ message_edges msg → ∃ m, e.1.1 = _file_node m ∨ e.1.1 = _error_node m.
Proof.
  unfold message_edges. rewrite !elem_of_app. intros [He|[He|He]].
  - apply list_elem_of_fmap in He as (m & -> & _). eauto.
  - case_bool_decide; [|by apply elem_of_nil in He].
    apply list_elem_of_fmap in He as (m & -> & _). eauto.
  - apply list_elem_of_bind in He as (tu & He & _). unfold tool_use_edges in He.
    destruct (str_truthy _); [|by apply elem_of_nil in He].
    apply list_elem_of_fmap in He as (m & -> & _). eauto.
Qed.

(** An insertion whose source is a tool node is a tool transition, and
    carries the tag of the session. *)
Lemma session_edges_tool_rel s e n :
  e ∈ session_edges s → e.1.1 = _tool_node n → e.2 = transition_rel s.
Proof.
  unfold session_edges. rewrite elem_of_app. intros [He|He] Hsrc.
  - apply list_elem_of_bind in He as (msg & He & _).
    apply message_edges_source in He as (m & [Hm|Hm]); rewrite Hsrc in Hm.
    + by apply tool_node_not_file_node in Hm.
    + by apply tool_node_not_error_node in Hm.
  - by apply list_elem_of_fmap in He as (p & -> & _).
Qed.

Lemma first_seen_NoDup_id `{EqDecision A} (l : list A) : NoDup l → first_seen l = l.
Proof.
  induction l as [|x l IH] using rev_ind; [done|].
  rewrite NoDup_app. intros (Hl & Hx & _).
  rewrite first_seen_snoc, IH by done.
  rewrite bool_decide_eq_false_2; [done|].
  intros Hin. apply (Hx x Hin). by left.
Qed.

Lemma first_seen_length_mono `{EqDecision A} (l k : list A) :
  (∀ x, x ∈ l → x ∈ k) → (length (first_seen l) ≤ length (first_seen k))%nat.
Proof.
  intros Hsub. apply submseteq_length, NoDup_submseteq; [apply first_seen_NoDup|].
  intros x. rewrite !first_seen_elem_of. apply Hsub.
Qed.

Lemma transitions_length (l : list string) :
  length (transitions l) = (length l - 1)%nat.
Proof.
  unfold transitions. rewrite length_zip_with.
  assert (length (tail l) = length l - 1)%nat as -> by (destruct l; simpl; lia). lia.
Qed.

(** C3 (as amended). For a session whose trajectory type is not
    [correction_loop], the index built from that session alone has an
    edge from each tool node of the flattened tool sequence to the next
    one, tagged [led_to_success], and its number of edges is at least the
    number of distinct transitions of the sequence; it is at least
    [n - 1] when no transition occurs twice. *)
Theorem single_session_transitions {G} {graph_ops : Graph G} {laws : GraphLaws G}
    (idx : GraphIndex G) (s : Session) :
  trajectory_type s ≠ Some "correction_loop" →
  (∀ i a b,
     session_tool_seq s !! i = Some a → session_tool_seq s !! S i = Some b →
     has_edge (_graph (build idx [s])) a b = true ∧
     ∃ d, edge_data (_graph (build idx [s])) a b = Some d ∧ rel d = "led_to_success") ∧
  (length (first_seen (transitions (session_tool_seq s)))
   ≤ st_edges (stats (build idx [s])))%nat ∧
  (NoDup (transitions (session_tool_seq s)) →
   (length (session_tool_seq s) - 1 ≤ st_edges (stats (build idx [s])))%nat).
Proof.
  intros Hok.
  assert (_graph (build idx [s]) = foldl insert_edge make_graph (session_edges s)) as Hg.
  { unfold build. cbn [foldl add_session _graph]. apply index_session_edges. }
  assert (length (first_seen (transitions (session_tool_seq s)))
          ≤ st_edges (stats (build idx [s])))%nat as Hcount.
  { unfold stats. cbn [st_edges]. rewrite Hg, insert_edges_count_fresh.
    apply first_seen_length_mono. intros [a b] Hab.
    unfold session_edges. rewrite fmap_app, elem_of_app. right.
    rewrite <- list_fmap_compose. apply list_elem_of_fmap. by exists (a, b). }
  split_and!; [|done|].
  - intros i a b Ha Hb. rewrite Hg.
    pose proof (transition_emitted s i a b Ha Hb) as Hab.
    split.
    + rewrite insert_edges_has_edge.
      by rewrite (bool_decide_eq_true_2 _ Hab), orb_true_r.
    + rewrite insert_edges_data, edge_data_make.
      destruct (accumulate_fresh a b "led_to_success" (session_edges s))
        as (d & Hd & _ & Hr).
      * intros e He Hpair.
        destruct (session_tool_seq_tool_node s a) as [n Hn].
        { apply list_elem_of_lookup. eauto. }
        rewrite (session_edges_tool_rel s e n He).
        -- unfold transition_rel. by rewrite bool_decide_eq_false_2.
        -- by rewrite Hpair.
      * by apply emitted_pos.
      * eauto.
  - intros Hnd. rewrite first_seen_NoDup_id, transitions_length in Hcount; done.
Qed.

(** The hypothesis of C3 holds of a session of the test-suite's shape. *)
Lemma single_session_transitions_witness :
  trajectory_type read_bash_write ≠ Some "correction_loop" ∧
  (length (first_seen (transitions (session_tool_seq read_bash_write)))
   ≤ st_edges (stats (build (new_index (G:=Nx.DiGraph)) [read_bash_write])))%nat.
Proof.
  split; [done|].
  refine (proj1 (proj2 (single_session_transitions
                          (new_index (G:=Nx.DiGraph)) read_bash_write _))).
  done.
Defined.

(** C3 as stated fails when a transition repeats: three uses of one tool
    make the same edge twice, so the graph has 1 edge for [n = 3]. *)
Lemma repeated_transition_counterexample :
  trajectory_type read_read_read ≠ Some "correction_loop" ∧
  session_tool_seq read_read_read = ["tool:read"; "tool:read"; "tool:read"] ∧
  st_edges (stats (build (new_index (G:=Nx.DiGraph)) [read_read_read])) = 1%nat ∧
  edge_data (_graph (build (new_index (G:=Nx.DiGraph)) [read_read_read]))
            "tool:read" "tool:read" = Some (Attrs (Some 2) "led_to_success") ∧
  ¬ (3 - 1 ≤ Z.of_nat (st_edges (stats (build (new_index (G:=Nx.DiGraph)) [read_read_read])))).
Proof. split_and!; [done|by vm_compute..|vm_compute; by intros H]. Qed.

(* ===================================================================== *)
(** * C4: file-reference extraction                                       *)
(* ===================================================================== *)

Lemma str_take_drop n s : str_take n s +:+ str_drop n s = s.
Proof.
  revert s. induction n as [|n IH]; intros [|c s]; try done.
  change (String c (str_take n s +:+ str_drop n s) = String c s).
  f_equal. apply IH.
Qed.

Lemma str_take_add n k s :
  str_take (n + k) s = str_take n s +:+ str_take k (str_drop n s).
Proof.
  revert s. induction n as [|n IH]; intros [|c s]; try done.
  - by destruct k.
  - change (String c (str_take (n + k) s) =
            String c (str_take n s +:+ str_take k (str_drop n s))).
    f_equal. apply IH.
Qed.

Lemma str_app_assoc (a b c : string) : (a +:+ b) +:+ c = a +:+ (b +:+ c).
Proof.
  induction a as [|x a IH]; [done|].
  change (String x ((a +:+ b) +:+ c) = String x (a +:+ (b +:+ c))). by rewrite IH.
Qed.

Lemma str_app_nil_r (a : string) : a +:+ EmptyString = a.
Proof.
  induction a as [|x a IH]; [done|].
  change (String x (a +:+ EmptyString) = String x a). by rewrite IH.
Qed.

Lemma count_prefix_take cls cap s k :
  (k ≤ count_prefix cls cap s)%nat →
  str_all cls (str_take k s) = true ∧ String.length (str_take k s) = k ∧
  (∀ hi, cap = Some hi → (k ≤ hi)%nat).
Proof.
  revert cap k. induction s as [|c s IH]; intros cap k Hk.
  - simpl in Hk. assert (k = O) as -> by lia. split_and!; [done|done|intros; lia].
  - destruct k as [|k]; [split_and!; [done|done|intros; lia]|].
    simpl in Hk. destruct cap as [[|hi]|]; try lia.
    + destruct (cls c) eqn:Ec; [|lia].
      destruct (IH (Some hi) k) as (Ha & Hl & Hb); [simpl in Hk; lia|].
      simpl. rewrite Ec, Ha, Hl. split_and!; [done|done|].
      intros ? [= <-]. specialize (Hb hi eq_refl). lia.
    + destruct (cls c) eqn:Ec; [|lia].
      destruct (IH None k) as (Ha & Hl & Hb); [simpl in Hk; lia|].
      simpl. rewrite Ec, Ha, Hl. done.
Qed.

Lemma first_down_Some f lo d r :
  first_down f lo d = Some r → ∃ k, (lo ≤ k ≤ lo + d)%nat ∧ f k = Some r.
Proof.
  induction d as [|d IH]; simpl.
  - destruct (f (lo + 0)%nat) eqn:E; [|done]. intros [= ->]. exists (lo + 0)%nat. split; [lia|done].
  - destruct (f (lo + S d)%nat) eqn:E.
    + intros [= ->]. exists (lo + S d)%nat. split; [lia|done].
    + intros (k & Hk & Hf)%IH. exists k. split; [lia|done].
Qed.

(** What the engine reports as a match is a match. *)
Lemma re_match_here_sound items : ∀ s len,
  re_match_here items s = Some len → matches items (str_take len s).
Proof.
  induction items as [|it rest IH]; intros s len.
  - simpl. intros [= <-]. by destruct s.
  - cbn [re_match_here].
    destruct (Nat.ltb_spec (count_prefix (re_class it) (re_hi it) s) (re_lo it)) as [|Hlo];
      [done|].
    intros (k & Hk & Hf)%first_down_Some.
    destruct (re_match_here rest (str_drop k s)) as [r|] eqn:Er; [|done].
    simpl in Hf. injection Hf as <-.
    destruct (count_prefix_take (re_class it) (re_hi it) s k) as (Ha & Hl & Hb); [lia|].
    cbn [matches]. exists (str_take k s), (str_take r (str_drop k s)).
    rewrite Hl. split_and!; [apply str_take_add|done|lia|done|by apply IH].
Qed.

Lemma occurs_in_order_prepend ms p text :
  occurs_in_order ms text → occurs_in_order ms (p +:+ text).
Proof.
  destruct ms as [|m ms]; [done|]. simpl. intros (pre & post & -> & Hrest).
  exists (p +:+ pre), post. by rewrite str_app_assoc.
Qed.

Lemma occurs_in_order_take n ms text :
  occurs_in_order ms text → occurs_in_order (take n ms) text.
Proof.
  revert n text. induction ms as [|m ms IH]; intros [|n] text; simpl; try done.
  intros (pre & post & -> & Hrest). exists pre, post. eauto.
Qed.

Lemma re_findall_from_in_order items s : ∀ skip,
  occurs_in_order (re_findall_from items skip s) (str_drop skip s).
Proof.
  induction s as [|c s IH]; intros skip; [by destruct skip|].
  destruct skip as [|k]; [|apply IH].
  cbn [re_findall_from str_drop].
  destruct (re_match_here items (String c s)) as [len|] eqn:E.
  - cbn [occurs_in_order]. exists EmptyString, (str_drop len (String c s)).
    split; [by rewrite str_take_drop|].
    destruct len as [|len]; [|apply IH].
    apply (occurs_in_order_prepend _ (String c EmptyString) s), (IH O).
  - apply (occurs_in_order_prepend _ (String c EmptyString) s), (IH O).
Qed.

Lemma re_findall_from_matches items s : ∀ skip m,
  m ∈ re_findall_from items skip s → matches items m.
Proof.
  induction s as [|c s IH]; intros skip m; [by intros ?%elem_of_nil|].
  destruct skip as [|k]; [|apply IH].
  cbn [re_findall_from].
  destruct (re_match_here items (String c s)) as [len|] eqn:E; [|apply IH].
  intros [->|Hm]%elem_of_cons; [by apply re_match_here_sound|by eapply IH].
Qed.

Lemma starts_with_self_app (n b : string) : startswith n (n +:+ b) = true.
Proof. induction n as [|c n IH]; simpl; [done|]. by rewrite Ascii.eqb_refl. Qed.

Lemma py_in_app (n a b : string) : py_in n (a +:+ n +:+ b) = true.
Proof.
  induction a as [|c a IH]; simpl.
  - destruct (n +:+ b) eqn:E; simpl; rewrite <- E, starts_with_self_app; done.
  - rewrite IH. apply orb_true_r.
Qed.

(** A match of [_FILE_RE]: a non-empty stem of path characters, a dot,
    and an extension of one to six word characters. *)
Lemma file_re_matches m :
  matches _FILE_RE m →
  ∃ stem ext, m = stem +:+ "." +:+ ext ∧
              str_all is_path_char stem = true ∧ (1 ≤ String.length stem)%nat ∧
              str_all is_word ext = true ∧ (1 ≤ String.length ext ≤ 6)%nat.
Proof.
  unfold _FILE_RE. cbn [matches re_class re_lo re_hi].
  intros (stem & b & -> & Hs & Hls & _ & dot & b' & -> & Hd & Hld & Hhd & ext & e & -> & He & Hle & Hhe & ->).
  specialize (Hhd 1%nat eq_refl). specialize (Hhe 6%nat eq_refl).
  destruct dot as [|d [|? ?]]; simpl in Hld, Hhd; try lia.
  simpl in Hd. rewrite andb_true_r in Hd. apply Ascii.eqb_eq in Hd. subst d.
  exists stem, ext. split_and!; try done.
  by rewrite str_app_nil_r.
Qed.

Lemma count_prefix_app cls cap a rest :
  str_all cls a = true → (∀ hi, cap = Some hi → (String.length a ≤ hi)%nat) →
  (String.length a ≤ count_prefix cls cap (a +:+ rest))%nat.
Proof.
  revert cap. induction a as [|c a IH]; intros cap Hall Hcap; [simpl; lia|].
  simpl in Hall. apply andb_prop in Hall as [Hc Ha].
  change (String c a +:+ rest) with (String c (a +:+ rest)).
  cbn [count_prefix String.length]. rewrite Hc.
  destruct cap as [[|hi]|].
  - specialize (Hcap O eq_refl). simpl in Hcap. lia.
  - apply le_n_S, IH; [done|]. intros ? [= <-]. specialize (Hcap (S hi) eq_refl).
    simpl in Hcap. lia.
  - apply le_n_S, IH; [done|]. by intros ? [=].
Qed.

Lemma first_down_complete f lo d k :
  (lo ≤ k ≤ lo + d)%nat → is_Some (f k) → is_Some (first_down f lo d).
Proof.
  induction d as [|d IH]; intros Hk Hf; simpl.
  - replace (lo + 0)%nat with k by lia. destruct (f k); [eauto|done].
  - destruct (f (lo + S d)%nat) eqn:E; [eauto|].
    apply IH; [|done]. destruct (decide (k = lo + S d)%nat) as [->|]; [|lia].
    rewrite E in Hf. by destruct Hf.
Qed.

Lemma str_drop_app a b : str_drop (String.length a) (a +:+ b) = b.
Proof. induction a as [|c a IH]; [by destruct b|exact IH]. Qed.

(** A match at the start of a string is found by the engine (which may
    report a longer one). *)
Lemma re_match_here_complete items : ∀ m rest,
  matches items m → is_Some (re_match_here items (m +:+ rest)).
Proof.
  induction items as [|it items IH]; intros m rest; [by eauto|].
  cbn [matches re_match_here]. intros (a & b & -> & Ha & Hlo & Hhi & Hb).
  rewrite str_app_assoc.
  pose proof (count_prefix_app (re_class it) (re_hi it) a (b +:+ rest) Ha Hhi) as Hn.
  destruct (Nat.ltb_spec (count_prefix (re_class it) (re_hi it) (a +:+ b +:+ rest))
                         (re_lo it)) as [|_]; [lia|].
  apply (first_down_complete _ _ _ (String.length a)); [lia|].
  rewrite str_drop_app. destruct (IH b rest Hb) as [r ->]. by eauto.
Qed.

(** A text that contains a match yields at least one match. *)
Lemma re_findall_complete items m :
  matches items m → m ≠ EmptyString →
  ∀ pre post, re_findall items (pre +:+ m +:+ post) ≠ [].
Proof.
  intros Hm Hne pre post. unfold re_findall.
  induction pre as [|c pre IH].
  - change (EmptyString +:+ m +:+ post) with (m +:+ post).
    destruct (re_match_here_complete items m post Hm) as [len Hlen].
    destruct m as [|c m]; [done|].
    change (String c m +:+ post) with (String c (m +:+ post)) in *.
    cbn [re_findall_from]. by rewrite Hlen.
  - change (String c pre +:+ m +:+ post) with (String c (pre +:+ m +:+ post)).
    cbn [re_findall_from].
    by destruct (re_match_here items (String c (pre +:+ m +:+ post))).
Qed.

Lemma file_re_nonempty m : matches _FILE_RE m → m ≠ EmptyString.
Proof.
  unfold _FILE_RE. cbn [matches re_class re_lo re_hi].
  intros (stem & b & -> & _ & Hls & _). destruct stem; [simpl in Hls; lia|done].
Qed.

(** C4 (as amended). For every input text, file-reference extraction
    returns the first five matches of the pattern [[\w./\-]+\.\w{1,6}] in
    the text: at most five strings, which occur in the text one after the
    other, left to right and without overlap, each of them a non-empty
    run of word characters, dots, slashes and hyphens followed by a dot
    and by one to six word characters (so each contains a dot, and the
    test for a slash or a dot removes nothing). A text that contains a
    string of that shape yields at least one reference. *)
Theorem extract_file_refs_matches (text : string) :
  _extract_file_refs text = take 5 (re_findall _FILE_RE text) ∧
  (length (_extract_file_refs text) ≤ 5)%nat ∧
  occurs_in_order (_extract_file_refs text) text ∧
  (∀ m, m ∈ _extract_file_refs text →
        py_in "." m = true ∧
        ∃ stem ext, m = stem +:+ "." +:+ ext ∧
                    str_all is_path_char stem = true ∧ (1 ≤ String.length stem)%nat ∧
                    str_all is_word ext = true ∧ (1 ≤ String.length ext ≤ 6)%nat) ∧
  (∀ pre m post, text = pre +:+ m +:+ post → matches _FILE_RE m →
                 _extract_file_refs text ≠ []).
Proof.
  assert (∀ m, m ∈ re_findall _FILE_RE text →
               py_in "." m = true ∧
               ∃ stem ext, m = stem +:+ "." +:+ ext ∧
                   str_all is_path_char stem = true ∧ (1 ≤ String.length stem)%nat ∧
                   str_all is_word ext = true ∧ (1 ≤ String.length ext ≤ 6)%nat) as Hall.
  { intros m Hm. apply re_findall_from_matches, file_re_matches in Hm.
    destruct Hm as (stem & ext & -> & Hrest). split; [apply py_in_app|eauto]. }
  assert (_extract_file_refs text = take 5 (re_findall _FILE_RE text)) as Heq.
  { unfold _extract_file_refs. f_equal.
    induction (re_findall _FILE_RE text) as [|m l IH]; [done|].
    rewrite filter_cons_True.
    - f_equal. apply IH. intros m' ?. apply Hall. by right.
    - destruct (Hall m) as [-> _]; [by left|]. apply orb_true_r. }
  rewrite Heq. split_and!; [done|rewrite length_take; lia| | |].
  - apply occurs_in_order_take, (re_findall_from_in_order _FILE_RE text O).
  - intros m Hm. apply Hall. by eapply subseteq_take.
  - intros pre m post -> Hm.
    pose proof (re_findall_complete _FILE_RE m Hm (file_re_nonempty m Hm) pre post) as Hne.
    by destruct (re_findall _FILE_RE (pre +:+ m +:+ post)).
Qed.

(** C4 at a text that names a file. *)
Lemma extract_file_refs_matches_witness :
  "fix src/foo.py now" = "fix " +:+ "src/foo.py" +:+ " now" ∧
  matches _FILE_RE "src/foo.py" ∧
  _extract_file_refs "fix src/foo.py now" ≠ [].
Proof.
  assert (matches _FILE_RE "src/foo.py") as Hm.
  { exists "src/foo", ".py". split_and!; [done|done|simpl; lia|done|].
    exists ".", "py". split_and!; [done|done|simpl; lia|by intros ? [= <-]|].
    exists "py", "". split_and!; [done|done|simpl; lia| |done].
    intros ? [= <-]. simpl. lia. }
  split; [done|]. split; [exact Hm|].
  exact (proj2 (proj2 (proj2 (proj2 (extract_file_refs_matches "fix src/foo.py now"))))
           "fix " "src/foo.py" " now" eq_refl Hm).
Defined.

(** C4 as stated fails for a token without an extension: ["src/foo"] is a
    maximal path-like token that contains a slash, and is not extracted;
    and an extension of more than six characters is cut. *)
Lemma extract_file_refs_counterexample :
  take 5 (path_tokens "src/foo") = ["src/foo"] ∧
  _extract_file_refs "src/foo" = [] ∧
  take 5 (path_tokens "see notes.markdown") = ["notes.markdown"] ∧
  _extract_file_refs "see notes.markdown" = ["notes.markdo"].
Proof. by vm_compute. Qed.

(* ===================================================================== *)
(** * C5: [build] replaces the index                                      *)
(* ===================================================================== *)

Section Build.
Context {G : Type} {graph_ops : Graph G}.
Implicit Types (self : GraphIndex G).

Lemma add_session_sessions self s :
  _sessions (add_session self s) = <[session_key s := s]> (_sessions self).
Proof. done. Qed.

Lemma add_sessions_dom ss : ∀ self,
  dom (_sessions (foldl add_session self ss)) =
  dom (_sessions self) ∪ list_to_set (session_key <$> ss).
Proof.
  induction ss as [|s ss IH]; intros self.
  - simpl. by rewrite (right_id_L ∅ (∪)).
  - cbn [foldl]. rewrite IH, add_session_sessions, dom_insert_L, fmap_cons.
    rewrite list_to_set_cons, (comm_L (∪) {[session_key s]} (dom _)).
    by rewrite (assoc_L (∪)).
Qed.
End Build.

(** The graph after a sequence of additions: the insertions of the
    sessions, in order, on top of the graph that was there. *)
Lemma add_sessions_graph {G} {graph_ops : Graph G} ss : ∀ self : GraphIndex G,
  _graph (foldl add_session self ss) =
  foldl insert_edge (_graph self) (ss ≫= session_edges).
Proof.
  induction ss as [|s ss IH]; intros self; [done|].
  cbn [foldl mbind list_bind]. rewrite IH, foldl_app. f_equal.
  unfold add_session. cbn [_graph]. apply index_session_edges.
Qed.

Lemma see_idem (l : list string) (k : string) : see (see l k) k = see l k.
Proof.
  unfold see at 2 3. destruct (decide (k ∈ l)) as [Hk|Hk].
  - rewrite (bool_decide_eq_true_2 (k ∈ l)) by done.
    unfold see. by rewrite bool_decide_eq_true_2.
  - rewrite (bool_decide_eq_false_2 (k ∈ l)) by done.
    unfold see. rewrite bool_decide_eq_true_2; [done|].
    apply elem_of_app. right. by apply list_elem_of_singleton.
Qed.

(** A loop whose steps enter [sid] in the contributor list of the nodes
    they name enters it in the lists of all the nodes named, once. *)
Lemma fold_enters {X} (step : gmap string (list string) → X → gmap string (list string))
    (nodes : X → list string) (sid node : string) :
  (∀ nts x, default [] (step nts x !! node) =
            if bool_decide (node ∈ nodes x) then see (default [] (nts !! node)) sid
            else default [] (nts !! node)) →
  ∀ xs nts, default [] (foldl step nts xs !! node) =
            if bool_decide (node ∈ xs ≫= nodes) then see (default [] (nts !! node)) sid
            else default [] (nts !! node).
Proof.
  intros Hstep xs. induction xs as [|x xs IH]; intros nts.
  - cbn [foldl mbind list_bind]. by rewrite bool_decide_eq_false_2 by apply not_elem_of_nil.
  - cbn [foldl mbind list_bind]. rewrite IH, Hstep.
    destruct (decide (node ∈ nodes x)) as [Hx|Hx];
      destruct (decide (node ∈ xs ≫= nodes)) as [Hxs|Hxs].
    + rewrite !bool_decide_eq_true_2; [apply see_idem|apply elem_of_app; by left|done|done].
    + rewrite (bool_decide_eq_false_2 (node ∈ xs ≫= nodes)) by done.
      by rewrite !bool_decide_eq_true_2 by (done || apply elem_of_app; by left).
    + rewrite (bool_decide_eq_false_2 (node ∈ nodes x)) by done.
      by rewrite !bool_decide_eq_true_2 by (done || apply elem_of_app; by right).
    + rewrite !bool_decide_eq_false_2; [done| |done|done].
      intros [?|?]%elem_of_app; done.
Qed.

Lemma record_tool_contributors sid nts tu node :
  default [] (record_tool sid nts tu !! node) =
  if bool_decide (node ∈ tool_use_node tu) then see (default [] (nts !! node)) sid
  else default [] (nts !! node).
Proof.
  unfold record_tool, tool_use_node.
  destruct (str_truthy (py_strip (tool tu)));
    [|by rewrite bool_decide_eq_false_2 by apply not_elem_of_nil].
  set (tnode := _tool_node (py_strip (tool tu))).
  destruct (decide (node = tnode)) as [->|Hne].
  - rewrite (bool_decide_eq_true_2 (tnode ∈ [tnode])) by (by apply list_elem_of_singleton).
    unfold see. by case_bool_decide; rewrite lookup_insert_eq.
  - rewrite (bool_decide_eq_false_2 (node ∈ [tnode]))
      by (by intros ?%list_elem_of_singleton).
    by case_bool_decide; rewrite lookup_insert_ne.
Qed.

Section BuildContents.
Context {G : Type} {graph_ops : Graph G}.
Implicit Types (self : GraphIndex G).

(** [add_session] enters the identifier of the session, once, in the
    contributor list of each node of its tool sequence, and leaves the
    other lists as they are. *)
Lemma add_session_contributors self s node :
  contributors (add_session self s) node =
  if bool_decide (node ∈ session_tool_seq s)
  then see (contributors self node) (session_key s)
  else contributors self node.
Proof.
  unfold contributors, add_session, session_tool_seq. cbn [_node_to_sessions].
  apply (fold_enters (λ nts msg, foldl (record_tool (session_key s)) nts (tool_uses msg))
                     (λ msg, tool_uses msg ≫= tool_use_node)).
  intros nts msg. apply (fold_enters (record_tool (session_key s)) tool_use_node).
  intros nts' tu. apply record_tool_contributors.
Qed.

Lemma add_sessions_contributors ss : ∀ self node,
  contributors (foldl add_session self ss) node =
  foldl see (contributors self node)
        (session_key <$> filter (λ s, node ∈ session_tool_seq s) ss).
Proof.
  induction ss as [|s ss IH]; intros self node; [done|].
  cbn [foldl]. rewrite IH, add_session_contributors.
  case_bool_decide as Hs.
  - by rewrite filter_cons_True.
  - by rewrite filter_cons_False.
Qed.

(** The record stored under an identifier after a sequence of additions
    is the last session added under it. *)
Lemma add_sessions_lookup ss : ∀ self sid,
  _sessions (foldl add_session self ss) !! sid =
  match last (filter (λ s, session_key s = sid) ss) with
  | Some s => Some s
  | None => _sessions self !! sid
  end.
Proof.
  induction ss as [|s ss IH]; intros self sid; [done|].
  cbn [foldl]. rewrite IH, add_session_sessions.
  destruct (decide (session_key s = sid)) as [Hs|Hs].
  - rewrite filter_cons_True, last_cons by done.
    destruct (last (filter _ ss)); [done|]. subst sid. apply lookup_insert_eq.
  - rewrite filter_cons_False by done.
    destruct (last (filter _ ss)); [done|]. by apply lookup_insert_ne.
Qed.
End BuildContents.

(** C5. [build] discards the graph, the node-to-sessions index and the
    session map that the index held, and indexes exactly the given
    sessions, in order, in a fresh index; its result does not depend on
    the prior state. What the built index holds is what the given
    sessions put there: the edges are those that the sessions insert,
    with the attributes that these insertions accumulate in order, and
    their number is the number of distinct pairs inserted; the
    contributor list of a node names the sessions whose tool sequence
    has the node, each once, in the order given; and the record stored
    under an identifier is the last given session of that identifier.
    After [build([])] the statistics show 0 sessions, 0 nodes and 0
    edges, whatever was built before. The number of sessions after a
    build is the number of distinct identifiers of the given sessions. *)
Theorem build_replaces {G} {graph_ops : Graph G} {laws : GraphLaws G}
    (self : GraphIndex G) (sessions : list Session) :
  build self sessions = foldl add_session new_index sessions ∧
  build self sessions = build new_index sessions ∧
  build self [] = new_index ∧
  stats (build self []) = MkStats 0 0 0 NETWORKX_AVAILABLE ∧
  st_sessions (stats (build self sessions)) =
    size (list_to_set (session_key <$> sessions) : gset string) ∧
  (∀ u v, edge_data (_graph (build self sessions)) u v =
          accumulate u v None (sessions ≫= session_edges)) ∧
  (∀ u v, has_edge (_graph (build self sessions)) u v =
          bool_decide ((u, v) ∈ (sessions ≫= session_edges).*1)) ∧
  st_edges (stats (build self sessions)) =
    length (first_seen (sessions ≫= session_edges).*1) ∧
  (∀ node, contributors (build self sessions) node =
           first_seen (session_key <$>
                         filter (λ s, node ∈ session_tool_seq s) sessions)) ∧
  (∀ sid, _sessions (build self sessions) !! sid =
          last (filter (λ s, session_key s = sid) sessions)).
Proof.
  assert (_graph (build self sessions) =
          foldl insert_edge make_graph (sessions ≫= session_edges)) as Hgraph.
  { unfold build. by rewrite add_sessions_graph. }
  split; [done|]. split; [done|]. split; [done|]. split; [|split; [|split; [|split; [|split; [|split]]]]].
  - unfold stats, build. cbn [foldl _graph _sessions].
    by rewrite node_count_make, edge_count_make, map_size_empty.
  - unfold stats, build. cbn [st_sessions].
    rewrite <- size_dom, add_sessions_dom. cbn [_sessions].
    by rewrite dom_empty_L, (left_id_L ∅ (∪)).
  - intros u v. by rewrite Hgraph, insert_edges_data, edge_data_make.
  - intros u v. rewrite Hgraph, insert_edges_has_edge.
    rewrite has_edge_data, edge_data_make.
    by rewrite (bool_decide_eq_false_2 (is_Some None)) by (by intros [? ?]).
  - unfold stats. cbn [st_edges]. rewrite Hgraph. apply insert_edges_count_fresh.
  - intros node. unfold build. by rewrite add_sessions_contributors.
  - intros sid. unfold build. rewrite add_sessions_lookup. cbn [_sessions].
    rewrite lookup_empty. by destruct (last _).
Qed.

(** C5 at an index built non-empty, on the networkx backend. *)
Lemma build_replaces_witness :
  st_sessions (stats two_readers) = 2%nat ∧
  stats (build two_readers []) = MkStats 0 0 0 true.
Proof.
  split; [by vm_compute|].
  apply (build_replaces (laws:=nx_graph_laws) two_readers []).
Defined.

(* ===================================================================== *)
(** * C10: contributors are stored sessions                               *)
(* ===================================================================== *)

Section Contributors.
Context {G : Type} {graph_ops : Graph G}.
Implicit Types (self : GraphIndex G) (nts : gmap string (list string)).

Lemma only_adds_refl sid nts : only_adds sid nts nts.
Proof. intros node l x Hl Hx. right. eauto. Qed.

Lemma only_adds_trans sid nts1 nts2 nts3 :
  only_adds sid nts1 nts2 → only_adds sid nts2 nts3 → only_adds sid nts1 nts3.
Proof.
  intros H12 H23 node l x Hl Hx.
  destruct (H23 node l x Hl Hx) as [?|(l0 & Hl0 & Hx0)]; [by left|].
  eapply H12; eauto.
Qed.

Lemma record_tool_only_adds sid nts tu : only_adds sid nts (record_tool sid nts tu).
Proof.
  unfold record_tool. destruct (str_truthy _); [|apply only_adds_refl].
  set (tnode := _tool_node _). intros node l x Hl Hx.
  destruct (decide (node = tnode)) as [->|Hne].
  - destruct (nts !! tnode) as [l0|] eqn:E0; simpl in Hl.
    + case_bool_decide; rewrite lookup_insert_eq in Hl; injection Hl as <-.
      * right. eauto.
      * apply elem_of_app in Hx as [?|Hx]; [right; eauto|].
        left. by apply list_elem_of_singleton in Hx.
    + rewrite lookup_insert_eq in Hl. injection Hl as <-.
      apply list_elem_of_singleton in Hx. by left.
  - right. exists l. split; [|done].
    case_bool_decide; by rewrite lookup_insert_ne in Hl.
Qed.

Lemma record_tools_only_adds sid tus : ∀ nts,
  only_adds sid nts (foldl (record_tool sid) nts tus).
Proof.
  induction tus as [|tu tus IH]; intros nts; [apply only_adds_refl|].
  cbn [foldl]. eapply only_adds_trans; [apply record_tool_only_adds|apply IH].
Qed.

Lemma record_messages_only_adds sid msgs : ∀ nts,
  only_adds sid nts
    (foldl (λ nts msg, foldl (record_tool sid) nts (tool_uses msg)) nts msgs).
Proof.
  induction msgs as [|msg msgs IH]; intros nts; [apply only_adds_refl|].
  cbn [foldl]. eapply only_adds_trans; [apply record_tools_only_adds|apply IH].
Qed.

Lemma add_session_contributors_stored self s :
  contributors_stored self → contributors_stored (add_session self s).
Proof.
  intros Hinv node l x Hl Hx. unfold add_session in *. cbn [_node_to_sessions _sessions] in *.
  destruct (record_messages_only_adds _ _ _ node l x Hl Hx) as [->|(l0 & Hl0 & Hx0)].
  - rewrite lookup_insert_eq. eauto.
  - destruct (decide (session_key s = x)) as [->|Hne].
    + rewrite lookup_insert_eq. eauto.
    + rewrite lookup_insert_ne by done. eapply Hinv; eauto.
Qed.

Lemma new_index_contributors_stored : contributors_stored (new_index (G:=G)).
Proof. intros node l x Hl. cbn [new_index _node_to_sessions] in Hl. by rewrite lookup_empty in Hl. Qed.

Lemma add_sessions_contributors_stored ss : ∀ self,
  contributors_stored self → contributors_stored (foldl add_session self ss).
Proof.
  induction ss as [|s ss IH]; intros self Hinv; [done|].
  cbn [foldl]. by apply IH, add_session_contributors_stored.
Qed.

Lemma reachable_contributors_stored self : reachable self → contributors_stored self.
Proof.
  induction 1 as [|self s _ IH|self ss _ IH].
  - apply new_index_contributors_stored.
  - by apply add_session_contributors_stored.
  - unfold build. apply add_sessions_contributors_stored, new_index_contributors_stored.
Qed.

(** A candidate of a query is listed among the contributors of a node. *)
Lemma candidate_contributes self ctx sid :
  sid ∈ candidates self ctx → ∃ node, sid ∈ contributors self node.
Proof.
  unfold candidates. rewrite first_seen_elem_of.
  intros ([sid' n] & -> & Hp)%list_elem_of_fmap.
  unfold awards in Hp. apply list_elem_of_bind in Hp as (node & Hp & _).
  unfold node_awards in Hp. apply elem_of_app in Hp as [Hp|Hp].
  - apply list_elem_of_fmap in Hp as (x & [= -> ->] & Hx). eauto.
  - apply list_elem_of_bind in Hp as (nb & Hp & _).
    apply list_elem_of_fmap in Hp as (x & [= -> ->] & Hx). eauto.
Qed.

Lemma contributors_lookup self node sid :
  sid ∈ contributors self node →
  ∃ l, _node_to_sessions self !! node = Some l ∧ sid ∈ l.
Proof.
  unfold contributors. destruct (_node_to_sessions self !! node) as [l|]; simpl.
  - eauto.
  - by intros ?%elem_of_nil.
Qed.

Lemma ranking_candidate self ctx e :
  e ∈ ranking self ctx → e.1 ∈ candidates self ctx.
Proof.
  unfold ranking. rewrite py_sorted_perm.
  by intros (sid & -> & Hsid)%list_elem_of_fmap.
Qed.

Lemma ranking_length self ctx :
  length (ranking self ctx) = length (candidates self ctx).
Proof. unfold ranking. by rewrite py_sorted_length, length_fmap. Qed.

(** When every entry has a truthy stored record, no entry is skipped. *)
Lemma omap_record_of_all self (l : list (string * Z)) :
  (∀ e, e ∈ l → ∃ s, _sessions self !! e.1 = Some s ∧ session_truthy s = true) →
  Forall2 (λ r e, _sessions self !! e.1 = Some r) (omap (record_of self) l) l.
Proof.
  induction l as [|[sid sc] l IH]; intros Hall; [constructor|].
  destruct (Hall (sid, sc)) as (s & Hs & Ht); [by left|].
  cbn [omap list_omap record_of]. simpl in Hs. rewrite Hs, Ht.
  constructor; [done|]. apply IH. intros e ?. apply Hall. by right.
Qed.
End Contributors.

(** C10 (as amended). In every state that [build] and [add_session]
    reach from a fresh index, each session identifier of each contributor
    list is a key of the session map. Consequently, when no stored record
    is an empty dict and [max_results] is not negative, [query] skips
    nothing: it returns the stored records of the first
    [min(max_results, number of scored candidates)] entries of the
    ranking, one per entry and in that order. *)
Theorem contributors_are_stored {G} {graph_ops : Graph G}
    (self : GraphIndex G) (ctx : list string) (k : Z) :
  reachable self →
  contributors_stored self ∧
  (ctx ≠ [] → 0 ≤ k → records_truthy self →
   Forall2 (λ r e, _sessions self !! e.1 = Some r)
           (query self ctx k) (take (Z.to_nat k) (ranking self ctx)) ∧
   length (query self ctx k) =
     Nat.min (Z.to_nat k) (length (candidates self ctx))).
Proof.
  intros Hreach. pose proof (reachable_contributors_stored self Hreach) as Hinv.
  split; [done|]. intros Hne Hk Htruthy.
  assert (Forall2 (λ r e, _sessions self !! e.1 = Some r)
            (query self ctx k) (take (Z.to_nat k) (ranking self ctx))) as Hall.
  { rewrite query_unfold, py_slice_to_nonneg by done.
    apply omap_record_of_all. intros e He.
    apply subseteq_take, ranking_candidate, candidate_contributes in He as (node & Hc).
    apply contributors_lookup in Hc as (l & Hl & Hsid).
    destruct (Hinv node l e.1 Hl Hsid) as [s Hs]. eauto. }
  split; [done|].
  apply Forall2_length in Hall. by rewrite Hall, length_take, ranking_length.
Qed.

(** The hypotheses of C10 hold of an index built from two sessions. *)
Lemma contributors_are_stored_witness :
  reachable two_readers ∧ ["tool:read"] ≠ [] ∧ 0 ≤ 1 ∧ records_truthy two_readers ∧
  length (query two_readers ["tool:read"] 1) =
    Nat.min (Z.to_nat 1) (length (candidates two_readers ["tool:read"])).
Proof.
  assert (reachable two_readers) as Hreach by (apply reach_build, reach_new).
  assert (records_truthy two_readers) as Htruthy.
  { intros sid s. unfold two_readers, build. cbn [foldl].
    rewrite !add_session_sessions. cbn [_sessions].
    intros [[_ <-]|[_ [[_ <-]|[_ Hs]]%lookup_insert_Some]]%lookup_insert_Some;
      [done|done|by rewrite lookup_empty in Hs]. }
  split_and!; [done|done|lia|done|].
  refine (proj2 (proj2 (contributors_are_stored two_readers ["tool:read"] 1 Hreach)
                   _ _ Htruthy)); [done|lia].
Defined.

(** C10 as stated fails in two ways. For a negative [max_results] the
    slice drops entries from the end: two candidates and
    [max_results = -1] give one record, not [min(-1, 2)]. And the skip
    branch of [query] also rejects a record that is an empty dict: when
    such a dict is stored under the identifier of an earlier session, the
    one scored candidate yields no record. *)
Lemma query_exactness_counterexample :
  (reachable two_readers ∧
   length (candidates two_readers ["tool:read"]) = 2%nat ∧
   length (query two_readers ["tool:read"] (-1)) = 1%nat ∧
   Z.of_nat 1 ≠ Z.min (-1) (Z.of_nat 2)) ∧
  (reachable overwritten_by_empty ∧
   length (candidates overwritten_by_empty ["tool:read"]) = 1%nat ∧
   length (query overwritten_by_empty ["tool:read"] 5) = 0%nat ∧
   Z.of_nat 0 ≠ Z.min 5 (Z.of_nat 1)).
Proof.
  split; (split_and!; [|by vm_compute|by vm_compute|lia]).
  - apply reach_build, reach_new.
  - apply reach_add, reach_add, reach_new.
Qed.

(* ===================================================================== *)
(** * C8: [meta] survives a failing [stats]                               *)
(* ===================================================================== *)

(** C8 (as amended). Whatever the service holds, [meta()] returns a
    snapshot with the session count, the project count, the refresh
    count and the last refresh duration when the call of [stats()] on
    the index returns or raises an instance of [Exception]; when the
    call raises an instance of [Exception], or returns something that is
    not a dict, the snapshot reports an empty statistics object. An
    exception of [stats()] that is not an instance of [Exception] is
    raised by [meta()]. Over the index objects of [IndexObj] this is
    [Mcp.meta]. *)
Theorem meta_survives_stats_failure
    (sessions : option (list Session)) (project_count refresh_count : nat)
    (last_refresh_ms : Z) :
  (∀ call,
     call = AnyIndex.Raised AnyIndex.AnException ∨ call = AnyIndex.Value None →
     AnyIndex.meta sessions project_count refresh_count last_refresh_ms
                   (Some (AnyIndex.Method call)) =
       AnyIndex.Value (Mcp.MkMeta (length (default [] sessions)) project_count
                                  refresh_count last_refresh_ms [])) ∧
  (∀ d,
     AnyIndex.meta sessions project_count refresh_count last_refresh_ms
                   (Some (AnyIndex.Method (AnyIndex.Value (Some d)))) =
       AnyIndex.Value (Mcp.MkMeta (length (default [] sessions)) project_count
                                  refresh_count last_refresh_ms d)) ∧
  AnyIndex.meta sessions project_count refresh_count last_refresh_ms
                (Some (AnyIndex.Method (AnyIndex.Raised AnyIndex.NotAnException))) =
    AnyIndex.Raised AnyIndex.NotAnException ∧
  (∀ self : Mcp.SessionIndexService,
     AnyIndex.meta (Mcp._sessions self) (Mcp._project_count self)
                   (Mcp._refresh_count self) (Mcp._last_refresh_ms self)
                   (AnyIndex.of_index_obj <$> Mcp._index self) =
       AnyIndex.Value (Mcp.meta self)) ∧
  (∀ (self : Mcp.SessionIndexService) (index : IndexObj),
     Mcp._index self = Some index →
     io_stats index = Some Raises ∨ io_stats index = Some (Returns None) →
     Mcp.meta self =
       Mcp.MkMeta (length (default [] (Mcp._sessions self))) (Mcp._project_count self)
                  (Mcp._refresh_count self) (Mcp._last_refresh_ms self) []).
Proof.
  split; [|split; [|split; [|split]]].
  - by intros call [-> | ->].
  - done.
  - done.
  - intros self. unfold Mcp.meta, AnyIndex.of_index_obj.
    destruct (Mcp._index self) as [index|]; [|done]. cbn [fmap option_fmap option_map].
    destruct (io_stats index) as [[[d|]|]|]; done.
  - intros self index Hidx Hstats. unfold Mcp.meta. rewrite Hidx.
    by destruct Hstats as [-> | ->].
Qed.

Lemma meta_survives_stats_failure_witness :
  Mcp._index service_with_failing_index = Some failing_index ∧
  Mcp.meta service_with_failing_index = Mcp.MkMeta 1 1 1 250 [] ∧
  AnyIndex.meta (Some [sample_session "s1" ["Read"]]) 1 1 250
                (Some (AnyIndex.Method (AnyIndex.Raised AnyIndex.AnException))) =
    AnyIndex.Value (Mcp.MkMeta 1 1 1 250 []).
Proof.
  split; [done|]. split.
  - apply (proj2 (proj2 (proj2 (proj2
             (meta_survives_stats_failure None O O 0))))
             service_with_failing_index failing_index); [done|by left].
  - apply (proj1 (meta_survives_stats_failure
                    (Some [sample_session "s1" ["Read"]]) 1%nat 1%nat 250)).
    by left.
Defined.

(** C8 as stated does not hold for every exception: [except Exception]
    does not catch a [KeyboardInterrupt] or a [SystemExit]. For an index
    whose [stats()] raises one, [meta()] raises it and returns no
    snapshot. *)
Lemma meta_interrupted_counterexample :
  AnyIndex.meta (Some [sample_session "s1" ["Read"]]) 1 1 250
                (Some (AnyIndex.Method (AnyIndex.Raised AnyIndex.NotAnException))) =
    AnyIndex.Raised AnyIndex.NotAnException ∧
  AnyIndex.meta (Some [sample_session "s1" ["Read"]]) 1 1 250
                (Some (AnyIndex.Method (AnyIndex.Raised AnyIndex.NotAnException))) ≠
    AnyIndex.Value (Mcp.MkMeta 1 1 1 250 []).
Proof. split; [done|]. by vm_compute. Qed.

(* ===================================================================== *)
(** * C6: [find_similar_sessions] and invalid context tokens              *)
(* ===================================================================== *)

Lemma str_truthy_spec s : str_truthy s = bool_decide (s ≠ EmptyString).
Proof. by destruct s. Qed.

(** One step of the parsing loop, in terms of [token_node]. *)
Lemma parse_token_spec st raw :
  (∀ x, x ∈ Mcp.ps_seen st ↔ x ∈ Mcp.ps_nodes st) →
  let token := py_strip raw in
  let st' := Mcp.parse_token st raw in
  (∀ x, x ∈ Mcp.ps_seen st' ↔ x ∈ Mcp.ps_nodes st') ∧
  Mcp.ps_nodes st' =
    (if bool_decide (token ≠ EmptyString)
     then foldl see (Mcp.ps_nodes st) (option_list (token_node token))
     else Mcp.ps_nodes st) ∧
  Mcp.ps_invalid_tokens st' =
    Mcp.ps_invalid_tokens st ++
    (if bool_decide (token ≠ EmptyString ∧ token_node token = None) then [token] else []).
Proof.
  intros Hseen token st'. subst st'. unfold Mcp.parse_token. fold token.
  rewrite str_truthy_spec. unfold token_node.
  case_bool_decide as Htok; simpl.
  2:{ rewrite bool_decide_eq_false_2 by tauto. by rewrite app_nil_r. }
  destruct (py_split1 ":" (py_lower token)) as [[prefix value]|]; simpl.
  2:{ by rewrite bool_decide_eq_true_2. }
  rewrite str_truthy_spec.
  destruct (decide (prefix ∈ Mcp.allowed_prefixes)) as [Hp|Hp];
    destruct (decide (py_strip value ≠ EmptyString)) as [Hv|Hv].
  - rewrite !bool_decide_eq_true_2 by done.
    rewrite (bool_decide_eq_true_2 (prefix ∈ _ ∧ _)) by done. simpl.
    rewrite (bool_decide_eq_false_2 (_ ∧ _)) by (by intros [_ ?]). rewrite app_nil_r.
    unfold see.
    assert (bool_decide (prefix +:+ ":" +:+ py_strip value ∈ Mcp.ps_seen st) =
            bool_decide (prefix +:+ ":" +:+ py_strip value ∈ Mcp.ps_nodes st)) as ->.
    { apply bool_decide_ext, Hseen. }
    case_bool_decide; simpl; [done|]. split_and!; [|done|done].
    intros x. rewrite elem_of_union, elem_of_singleton, elem_of_app,
      list_elem_of_singleton, Hseen. tauto.
  - rewrite (bool_decide_eq_false_2 (py_strip value ≠ EmptyString)) by done.
    rewrite orb_true_r. simpl.
    rewrite (bool_decide_eq_false_2 (_ ∧ _)) by tauto. simpl.
    by rewrite bool_decide_eq_true_2.
  - rewrite (bool_decide_eq_false_2 (prefix ∈ _)) by done. simpl.
    rewrite (bool_decide_eq_false_2 (_ ∧ _)) by tauto. simpl.
    by rewrite bool_decide_eq_true_2.
  - rewrite (bool_decide_eq_false_2 (prefix ∈ _)) by done. simpl.
    rewrite (bool_decide_eq_false_2 (_ ∧ _)) by tauto. simpl.
    by rewrite bool_decide_eq_true_2.
Qed.

Lemma parse_tokens_spec raws : ∀ st,
  (∀ x, x ∈ Mcp.ps_seen st ↔ x ∈ Mcp.ps_nodes st) →
  let tokens := filter (λ t, t ≠ EmptyString) (py_strip <$> raws) in
  let st' := foldl Mcp.parse_token st raws in
  Mcp.ps_nodes st' = foldl see (Mcp.ps_nodes st) (omap token_node tokens) ∧
  Mcp.ps_invalid_tokens st' =
    Mcp.ps_invalid_tokens st ++ filter (λ t, token_node t = None) tokens.
Proof.
  induction raws as [|raw raws IH]; intros st Hseen; cbn zeta.
  - simpl. by rewrite app_nil_r.
  - cbn [foldl]. destruct (parse_token_spec st raw Hseen) as (Hseen' & Hn & Hi).
    destruct (IH _ Hseen') as [-> ->]. rewrite Hn, Hi.
    rewrite fmap_cons, filter_cons.
    destruct (decide (py_strip raw ≠ EmptyString)) as [Htok|Htok].
    + rewrite bool_decide_eq_true_2 by done.
      rewrite filter_cons. cbn [omap list_omap].
      destruct (token_node (py_strip raw)) as [node|] eqn:En.
      * rewrite decide_False by done.
        rewrite bool_decide_eq_false_2 by (by intros [_ ?]). by rewrite app_nil_r.
      * rewrite decide_True by done.
        rewrite bool_decide_eq_true_2 by done. by rewrite <- app_assoc.
    + rewrite !bool_decide_eq_false_2 by tauto. by rewrite app_nil_r.
Qed.

(** [_parse_context_nodes] returns the distinct nodes of the well-formed
    tokens in order of first appearance, and the other tokens. *)
Lemma parse_context_nodes_spec context :
  Mcp._parse_context_nodes context =
  (first_seen (omap token_node (context_tokens context)),
   filter (λ t, token_node t = None) (context_tokens context)).
Proof.
  unfold Mcp._parse_context_nodes, context_tokens, first_seen.
  destruct (parse_tokens_spec (py_split "," context) (Mcp.MkParse [] [] ∅))
    as [-> ->]; [|done].
  intros x. simpl. split; [by intros ?%elem_of_empty|by intros ?%elem_of_nil].
Qed.

Lemma no_nodes_iff (tokens : list string) :
  first_seen (omap token_node tokens) = [] ↔ ∀ t, t ∈ tokens → token_node t = None.
Proof.
  split.
  - intros Hnil t Ht. destruct (token_node t) as [node|] eqn:E; [|done].
    assert (node ∈ first_seen (omap token_node tokens)) as Hin.
    { apply first_seen_elem_of, list_elem_of_omap. eauto. }
    rewrite Hnil in Hin. by apply elem_of_nil in Hin.
  - intros Hall. replace (omap token_node tokens) with (@nil string); [done|].
    induction tokens as [|t tokens IH]; [done|].
    cbn [omap list_omap]. rewrite (Hall t) by left.
    apply IH. intros t' ?. apply Hall. by right.
Qed.

(** Once [index()] has run, the service holds an index object. *)
Lemma index_loaded service : ∃ idx, (Mcp.index service).1 = Some idx.
Proof.
  unfold Mcp.index, Mcp._ensure_loaded. simpl. case_bool_decide as Hload.
  - simpl. eauto.
  - destruct (Mcp._index service) as [idx|] eqn:E; [eauto|].
    exfalso. apply Hload. by right.
Qed.

(** C6. For a positive [max_results], [find_similar_sessions] returns the
    error [invalid_context] exactly when no token of the context names a
    node; otherwise it succeeds with the summaries, ranked from 1, of what
    the index returns for the distinct nodes of the well-formed tokens,
    and reports the other tokens (those without a colon, with a prefix
    other than [tool], [file], [error], or with a blank value) as
    [invalid_tokens]. The context ["tool:bash, file:x.py, badtoken"]
    gives the nodes [tool:bash] and [file:x.py] and the invalid token
    [badtoken]. *)
Theorem find_similar_sessions_skips_invalid_tokens
    (service : Mcp.SessionIndexService) (context : string) (max_results : Z) :
  0 < max_results →
  let nodes := first_seen (omap token_node (context_tokens context)) in
  let invalid_tokens := filter (λ t, token_node t = None) (context_tokens context) in
  let result := (Mcp.find_similar_sessions service context max_results).1 in
  Mcp._parse_context_nodes context = (nodes, invalid_tokens) ∧
  (nodes = [] ↔ ∀ t, t ∈ context_tokens context → token_node t = None) ∧
  (error_code result = Some "invalid_context" ↔ nodes = []) ∧
  (nodes = [] →
   ∃ message meta,
     result = Mcp.ErrorPayload "invalid_context" message
                [("invalid_tokens", JStrs invalid_tokens); ("context", JStr context)] meta) ∧
  (nodes ≠ [] →
   ∃ idx, (Mcp.index service).1 = Some idx ∧
     let found := io_query idx nodes max_results in
     result =
       Mcp.OkPayload
         (imap (λ i session, Mcp._session_summary session (Some (Z.of_nat i + 1))) found)
         [("context_nodes", JStrs nodes); ("invalid_tokens", JStrs invalid_tokens);
          ("returned", JInt (Z.of_nat (length found)));
          ("max_results", JInt max_results); ("ranking", JStr "graph_similarity")]
         (Mcp.meta (Mcp.index service).2)) ∧
  Mcp._parse_context_nodes "tool:bash, file:x.py, badtoken" =
    (["tool:bash"; "file:x.py"], ["badtoken"]).
Proof.
  intros Hk nodes invalid_tokens result. subst result.
  pose proof (parse_context_nodes_spec context) as Hparse.
  fold nodes invalid_tokens in Hparse.
  unfold Mcp.find_similar_sessions.
  destruct (Z.leb_spec max_results 0) as [|_]; [lia|].
  rewrite Hparse.
  destruct (index_loaded service) as [idx Hidx].
  destruct (Mcp.index service) as [oidx service'] eqn:Eidx. simpl in Hidx. subst oidx.
  split_and!; [done| | | | |by vm_compute].
  - subst nodes. apply no_nodes_iff.
  - destruct nodes; simpl; split; done.
  - intros ->. simpl. eauto.
  - intros Hne. exists idx. split; [done|].
    destruct nodes as [|n nodes']; [done|]. simpl. by rewrite length_imap.
Qed.

(** The hypothesis of C6 holds for [max_results = 5]; the context of the
    specification then yields a success envelope. *)
Lemma find_similar_sessions_skips_invalid_tokens_witness :
  0 < 5 ∧
  error_code (Mcp.find_similar_sessions loaded_service
                "tool:bash, file:x.py, badtoken" 5).1 = None.
Proof.
  split; [lia|].
  pose proof (find_similar_sessions_skips_invalid_tokens loaded_service
                "tool:bash, file:x.py, badtoken" 5 ltac:(lia)) as (_ & _ & _ & _ & Hok & _).
  destruct Hok as (idx & _ & ->); [by vm_compute|done].
Defined.

(* ===================================================================== *)
(** * C7: [search_past_solutions]                                         *)
(* ===================================================================== *)

Lemma search_step_stopped needle k l : ∀ acc,
  foldl (Mcp.search_step needle k) (acc, true) l = (acc, true).
Proof. induction l as [|s l IH]; intros acc; [done|]. cbn [foldl]. apply IH. Qed.

Lemma search_scan needle k l : ∀ acc,
  Z.of_nat (length acc) < k →
  (foldl (Mcp.search_step needle k) (acc, false) l).1 =
  acc ++ ranked_summaries (length acc)
           (take (Z.to_nat k - length acc)
                 (filter (λ s, session_matches needle s = true) l)).
Proof.
  induction l as [|s l IH]; intros acc Hlen.
  - cbn [foldl fst]. rewrite filter_nil, take_nil. unfold ranked_summaries.
    cbn [imap]. by rewrite app_nil_r.
  - cbn [foldl]. rewrite filter_cons. unfold Mcp.search_step at 2.
    fold (session_matches needle s).
    assert (∀ a b, (negb a && negb b)%bool = negb (a || b)) as Hdm by (by intros [] []).
    rewrite Hdm. fold (session_matches needle s).
    destruct (session_matches needle s) eqn:Em; cbn [negb].
    + rewrite decide_True by done.
      replace (Z.to_nat k - length acc)%nat with (S (Z.to_nat k - S (length acc))) by lia.
      cbn [take]. unfold ranked_summaries at 1. rewrite imap_cons.
      rewrite Nat.add_0_r.
      set (acc' := acc ++ [Mcp._session_summary s (Some (Z.of_nat (length acc) + 1))]).
      assert (length acc' = S (length acc)) as Hlen'.
      { unfold acc'. rewrite length_app. simpl. lia. }
      case_bool_decide as Hstop.
      * rewrite search_step_stopped. cbn [fst].
        replace (Z.to_nat k - S (length acc))%nat with O by lia.
        rewrite take_0. simpl. done.
      * rewrite IH by lia. rewrite Hlen'. unfold acc'. rewrite <- app_assoc. simpl.
        do 2 f_equal. unfold ranked_summaries. apply imap_ext.
        intros i x _. simpl. do 3 f_equal. lia.
    + rewrite decide_False by done. by apply IH.
Qed.

Lemma strip_lower_empty query :
  py_strip (py_lower query) = EmptyString ↔ py_strip query = EmptyString.
Proof.
  rewrite py_strip_lower. split; [|by intros ->].
  by destruct (py_strip query).
Qed.

(** C7 (as amended). [search_past_solutions] returns the error
    [invalid_query] exactly when the query is empty after trimming, the
    error [invalid_max_results] exactly when the query is not empty after
    trimming and [max_results <= 0], and otherwise a success envelope
    whose results summarise, ranked from 1, the first [max_results]
    cached sessions, in order, for which the lowercase form of the
    content of a message or of the project label contains the trimmed
    lowercase query; so the results never exceed [max_results]. *)
Theorem search_past_solutions_spec
    (service : Mcp.SessionIndexService) (query : string) (max_results : Z) :
  let needle := py_strip (py_lower query) in
  let result := (Mcp.search_past_solutions service query max_results).1 in
  (error_code result = Some "invalid_query" ↔ py_strip query = EmptyString) ∧
  (error_code result = Some "invalid_max_results" ↔
   py_strip query ≠ EmptyString ∧ max_results ≤ 0) ∧
  (py_strip query ≠ EmptyString → 0 < max_results →
   let cached := (Mcp.sessions service).1 in
   let found :=
     take (Z.to_nat max_results)
          (filter (λ s, session_matches needle s = true) cached) in
   result =
     Mcp.OkPayload (ranked_summaries 0 found)
       [("query", JStr needle); ("returned", JInt (Z.of_nat (length found)));
        ("max_results", JInt max_results)]
       (Mcp.meta (Mcp.sessions service).2) ∧
   (length found ≤ Z.to_nat max_results)%nat).
Proof.
  intros needle result. subst result. unfold Mcp.search_past_solutions.
  fold needle. rewrite str_truthy_spec.
  pose proof (strip_lower_empty query) as Hempty. fold needle in Hempty.
  destruct (decide (needle = EmptyString)) as [Hn|Hn].
  - rewrite bool_decide_eq_false_2 by (by intros ?). simpl.
    split_and!; [tauto| |intros ?; tauto].
    split; [done|]. intros [? _]. tauto.
  - rewrite bool_decide_eq_true_2 by done. cbn [negb].
    destruct (Z.leb_spec max_results 0) as [Hk|Hk]; simpl.
    + split_and!; [split; [done|tauto]|split; [tauto|done]|intros; lia].
    + split_and!; [split; [done|tauto]|split; [done|lia]|].
      intros _ _. split; [|rewrite length_take; lia].
      unfold Mcp._ok_payload.
      rewrite (search_scan needle max_results _ []) by (simpl; lia).
      cbn [app length].
      replace (Z.to_nat max_results - 0)%nat with (Z.to_nat max_results) by lia.
      unfold ranked_summaries at 2. by rewrite length_imap.
Qed.

(** The success case of C7 at a concrete query. *)
Lemma search_past_solutions_spec_witness :
  py_strip "hello" ≠ EmptyString ∧ 0 < 5 ∧
  (length (take (Z.to_nat 5)
             (filter (λ s, session_matches (py_strip (py_lower "hello")) s = true)
                     (Mcp.sessions greeting_service).1))
   ≤ Z.to_nat 5)%nat.
Proof.
  split; [done|]. split; [lia|].
  refine (proj2 (proj2 (proj2 (search_past_solutions_spec greeting_service "hello" 5))
                   _ _)); [done|lia].
Defined.

(** C7 as stated fails where the match is not literal: the content
    ["Hello World"] does not contain ["hello"], nor does the project
    label, yet the session is returned, because the content is put in
    lowercase before the test; and the query [" hello "] is trimmed, so
    it finds the session although no text contains it with its blanks. *)
Lemma search_case_counterexample :
  py_in (py_lower "hello") "Hello World" = false ∧
  py_in (py_lower "hello") "Demo" = false ∧
  (∃ kwargs meta,
     (Mcp.search_past_solutions greeting_service "hello" 5).1 =
     Mcp.OkPayload [Mcp._session_summary greeting (Some 1)] kwargs meta) ∧
  py_in (py_lower " hello ") (py_lower "Hello World") = false ∧
  (∃ kwargs meta,
     (Mcp.search_past_solutions greeting_service " hello " 5).1 =
     Mcp.OkPayload [Mcp._session_summary greeting (Some 1)] kwargs meta).
Proof.
  split_and!; [by vm_compute|by vm_compute| |by vm_compute|];
    eexists _, _; by vm_compute.
Qed.

(* ===================================================================== *)
(** * The theorems at concrete inputs                                     *)
(* ===================================================================== *)

(** C9 at a name with surrounding blanks. *)
Lemma tool_node_normal_form_witness :
  all_space "  " = true ∧ all_space " " = true ∧
  _tool_node ("  " +:+ "Bash" +:+ " ") = _tool_node "Bash".
Proof.
  split; [done|]. split; [done|].
  refine (proj1 (proj2 (proj2 (proj2 (proj2 tool_node_normal_form))))
            "  " "Bash" " " _ _); done.
Defined.

(** C2 at the first transition of a session that is indexed twice on the
    networkx backend. *)
Lemma edge_weights_accumulate_witness :
  session_tool_seq read_bash_write !! 0%nat = Some "tool:read" ∧
  session_tool_seq read_bash_write !! 1%nat = Some "tool:bash" ∧
  ∃ a1 a2,
    edge_data (_index_session Nx.empty read_bash_write) "tool:read" "tool:bash" = Some a1 ∧
    edge_data (_index_session (_index_session Nx.empty read_bash_write) read_bash_write)
              "tool:read" "tool:bash" = Some a2 ∧
    get_weight a1 + 1 ≤ get_weight a2.
Proof.
  split; [done|]. split; [done|].
  destruct (proj2 (proj1 edge_weights_accumulate) Nx.empty read_bash_write)
    as (_ & _ & Hstep).
  destruct (Hstep 0%nat "tool:read" "tool:bash" eq_refl eq_refl)
    as (a1 & a2 & H1 & H2 & Hw & _).
  exists a1, a2. split_and!; [exact H1|exact H2|exact Hw].
Defined.


(* ===================================================================== *)
(** * Further properties of node naming and extraction                    *)
(* ===================================================================== *)

Lemma str_length_app (a b : string) :
  String.length (a +:+ b) = (String.length a + String.length b)%nat.
Proof.
  induction a as [|c a IH]; [done|].
  change (String c a +:+ b) with (String c (a +:+ b)). simpl. by rewrite IH.
Qed.

Lemma py_lower_length s : String.length (py_lower s) = String.length s.
Proof. induction s as [|c s IH]; simpl; [done|]. by rewrite IH. Qed.

Lemma py_lstrip_length s : (String.length (py_lstrip s) ≤ String.length s)%nat.
Proof.
  induction s as [|c s IH]; simpl; [done|].
  destruct (py_isspace c); simpl; lia.
Qed.

Lemma py_rstrip_length s : (String.length (py_rstrip s) ≤ String.length s)%nat.
Proof.
  induction s as [|c s IH]; simpl; [done|].
  destruct (py_rstrip s); [destruct (py_isspace c)|]; simpl in *; lia.
Qed.

Lemma py_strip_length s : (String.length (py_strip s) ≤ String.length s)%nat.
Proof.
  unfold py_strip. etransitivity; [apply py_rstrip_length|apply py_lstrip_length].
Qed.

Lemma str_take_length n s : (String.length (str_take n s) ≤ n)%nat.
Proof.
  revert s. induction n as [|n IH]; intros [|c s]; simpl; try lia.
  specialize (IH s). lia.
Qed.

Lemma _normalize_node_length s :
  (String.length (_normalize_node s) ≤ String.length s)%nat.
Proof. unfold _normalize_node. rewrite py_lower_length. apply py_strip_length. Qed.

(** X1. For a message whose characters lie in the range of the
    embedding, U+0000..U+00FF, where [lower] maps each character to one
    character, an error node is at most 66 characters long, whatever the
    length of the message: the prefix ["error:"] and at most 60
    characters of the message. (Beyond that range [lower] can lengthen a
    text, and the bound does not hold.) *)
Theorem error_node_bounded (msg : string) :
  startswith "error:" (_error_node msg) = true ∧
  (String.length (_error_node msg) ≤ 66)%nat.
Proof.
  split; [apply starts_with_self_app|].
  unfold _error_node. rewrite str_length_app.
  pose proof (_normalize_node_length (str_take 60 msg)).
  pose proof (str_take_length 60 msg).
  change (String.length _ERROR_NODE_PREFIX) with 6%nat. lia.
Qed.

Lemma omap_nil_iff {A B} (f : A → option B) (l : list A) :
  omap f l = [] ↔ ∀ x, x ∈ l → f x = None.
Proof.
  induction l as [|x l IH]; [by split; [intros _ ? ?%elem_of_nil|]|].
  cbn [omap list_omap]. destruct (f x) eqn:E.
  - split; [done|]. intros Hall. specialize (Hall x ltac:(left)). congruence.
  - rewrite IH. split.
    + intros Hall y [->|?]%elem_of_cons; auto.
    + intros Hall y ?. apply Hall. by right.
Qed.

(** X2. Error-reference extraction returns at most 3 strings, each of at
    most 60 characters; each is the trimmed text, cut at 60 characters,
    of a line that contains [error], [exception], [traceback] or
    [failed] in any case; and it returns nothing exactly when no line
    does. *)
Theorem extract_error_refs_bounded (text : string) :
  (length (_extract_error_refs text) ≤ 3)%nat ∧
  (∀ r, r ∈ _extract_error_refs text →
        (String.length r ≤ 60)%nat ∧
        ∃ line, line ∈ py_splitlines text ∧ _ERROR_RE_search line = true ∧
                r = str_take 60 (py_strip line)) ∧
  (_extract_error_refs text = [] ↔
   ∀ line, line ∈ py_splitlines text → _ERROR_RE_search line = false).
Proof.
  unfold _extract_error_refs. split_and!.
  - rewrite length_take. lia.
  - intros r Hr. apply subseteq_take, list_elem_of_omap in Hr as (line & Hline & Hf).
    destruct (_ERROR_RE_search line) eqn:Es; [|done].
    assert (str_take 60 (py_strip line) = r) as <- by congruence.
    split; [apply str_take_length|eauto].
  - set (f := λ line, if _ERROR_RE_search line
                      then Some (str_take 60 (py_strip line)) else None).
    transitivity (omap f (py_splitlines text) = []).
    + destruct (omap f (py_splitlines text)); done.
    + rewrite omap_nil_iff. unfold f. split; intros Hall line Hl; specialize (Hall line Hl).
      * by destruct (_ERROR_RE_search line).
      * by rewrite Hall.
Qed.


(* ===================================================================== *)
(** * Further properties of [GraphIndex]                                  *)
(* ===================================================================== *)

Section IndexFacts.
Context {G : Type} {graph_ops : Graph G}.
Implicit Types (self : GraphIndex G) (nts : gmap string (list string)).

Lemma record_tool_nodup sid nts tu :
  (∀ node l, nts !! node = Some l → NoDup l) →
  ∀ node l, record_tool sid nts tu !! node = Some l → NoDup l.
Proof.
  intros Hnd node l. unfold record_tool.
  destruct (str_truthy _); [|apply Hnd].
  set (tnode := _tool_node _).
  assert (NoDup (default [] (nts !! tnode))) as Hl0.
  { destruct (nts !! tnode) eqn:E; simpl; [by eapply Hnd|constructor]. }
  destruct (decide (node = tnode)) as [->|Hne].
  - case_bool_decide as Hin; rewrite lookup_insert_eq; intros [= <-]; [done|].
    apply NoDup_app. split_and!; [done| |apply NoDup_singleton].
    intros x Hx ->%list_elem_of_singleton. done.
  - case_bool_decide; rewrite lookup_insert_ne by done; apply Hnd.
Qed.

Lemma add_session_contributors_distinct self s :
  contributors_distinct self → contributors_distinct (add_session self s).
Proof.
  unfold contributors_distinct, add_session. cbn [_node_to_sessions].
  generalize (_node_to_sessions self). generalize (get_messages s).
  intros msgs. induction msgs as [|msg msgs IH]; intros nts Hnd; [done|].
  cbn [foldl]. apply IH. clear IH.
  generalize dependent nts. generalize (tool_uses msg).
  intros tus. induction tus as [|tu tus IH]; intros nts Hnd; [done|].
  cbn [foldl]. apply IH. by apply record_tool_nodup.
Qed.

Lemma add_sessions_contributors_distinct ss : ∀ self,
  contributors_distinct self → contributors_distinct (foldl add_session self ss).
Proof.
  induction ss as [|s ss IH]; intros self Hinv; [done|].
  cbn [foldl]. by apply IH, add_session_contributors_distinct.
Qed.

Lemma new_index_contributors_distinct : contributors_distinct (new_index (G:=G)).
Proof.
  intros node l Hl. cbn [new_index _node_to_sessions] in Hl.
  by rewrite lookup_empty in Hl.
Qed.

Lemma keeps_contributors_refl nts : keeps_contributors nts nts.
Proof. by intros node x. Qed.

Lemma keeps_contributors_trans nts1 nts2 nts3 :
  keeps_contributors nts1 nts2 → keeps_contributors nts2 nts3 →
  keeps_contributors nts1 nts3.
Proof. intros H12 H23 node x Hx. by apply H23, H12. Qed.

Lemma record_tool_keeps sid nts tu : keeps_contributors nts (record_tool sid nts tu).
Proof.
  intros node x Hx. unfold record_tool. destruct (str_truthy _); [|done].
  set (tnode := _tool_node _).
  destruct (decide (node = tnode)) as [->|Hne].
  - case_bool_decide; rewrite lookup_insert_eq; simpl; [done|].
    apply elem_of_app. by left.
  - by case_bool_decide; rewrite lookup_insert_ne.
Qed.

Lemma record_tools_keep sid tus : ∀ nts,
  keeps_contributors nts (foldl (record_tool sid) nts tus).
Proof.
  induction tus as [|tu tus IH]; intros nts; [apply keeps_contributors_refl|].
  cbn [foldl]. eapply keeps_contributors_trans; [apply record_tool_keeps|apply IH].
Qed.

Lemma record_messages_keep sid msgs : ∀ nts,
  keeps_contributors nts
    (foldl (λ nts msg, foldl (record_tool sid) nts (tool_uses msg)) nts msgs).
Proof.
  induction msgs as [|msg msgs IH]; intros nts; [apply keeps_contributors_refl|].
  cbn [foldl]. eapply keeps_contributors_trans; [apply record_tools_keep|apply IH].
Qed.

(** A non-blank tool use enters the session among the contributors of
    its tool node. *)
Lemma record_tool_enters sid nts tu :
  py_strip (tool tu) ≠ EmptyString →
  sid ∈ default [] (record_tool sid nts tu !! _tool_node (tool tu)).
Proof.
  intros Hne. unfold record_tool. rewrite str_truthy_spec, bool_decide_eq_true_2 by done.
  assert (_tool_node (py_strip (tool tu)) = _tool_node (tool tu)) as ->.
  { unfold _tool_node, _normalize_node. by rewrite py_strip_idem. }
  case_bool_decide as Hin; rewrite lookup_insert_eq; simpl; [done|].
  apply elem_of_app. right. by apply list_elem_of_singleton.
Qed.

Lemma record_tools_enter sid tus tu : ∀ nts,
  tu ∈ tus → py_strip (tool tu) ≠ EmptyString →
  sid ∈ default [] (foldl (record_tool sid) nts tus !! _tool_node (tool tu)).
Proof.
  induction tus as [|tu' tus IH]; intros nts Hin Hne; [by apply elem_of_nil in Hin|].
  cbn [foldl]. apply elem_of_cons in Hin as [->|Hin]; [|by apply IH].
  apply record_tools_keep. by apply record_tool_enters.
Qed.

Lemma add_session_contributes self s msg tu :
  msg ∈ get_messages s → tu ∈ tool_uses msg → py_strip (tool tu) ≠ EmptyString →
  session_key s ∈ contributors (add_session self s) (_tool_node (tool tu)).
Proof.
  intros Hmsg Htu Hne. unfold contributors, add_session. cbn [_node_to_sessions].
  generalize (_node_to_sessions self). revert Hmsg. generalize (get_messages s).
  intros msgs. induction msgs as [|msg' msgs IH]; intros Hmsg nts;
    [by apply elem_of_nil in Hmsg|].
  cbn [foldl]. apply elem_of_cons in Hmsg as [->|Hmsg]; [|by apply IH].
  apply record_messages_keep. by apply record_tools_enter.
Qed.
End IndexFacts.

(** X3. In every state that [build] and [add_session] reach from a fresh
    index, no contributor list names a session identifier twice. *)
Theorem contributor_lists_have_no_duplicates {G} {graph_ops : Graph G}
    (self : GraphIndex G) :
  reachable self → contributors_distinct self.
Proof.
  induction 1 as [|self s _ IH|self ss _ IH].
  - apply new_index_contributors_distinct.
  - by apply add_session_contributors_distinct.
  - unfold build.
    apply add_sessions_contributors_distinct, new_index_contributors_distinct.
Qed.

Lemma contributor_lists_have_no_duplicates_witness :
  reachable two_readers ∧ contributors two_readers "tool:read" = ["s1"; "s2"] ∧
  contributors_distinct two_readers.
Proof.
  assert (reachable two_readers) as Hreach by (apply reach_build, reach_new).
  split; [exact Hreach|]. split; [by vm_compute|].
  exact (contributor_lists_have_no_duplicates two_readers Hreach).
Defined.

(** X4. [add_session] stores the session under its identifier, replacing
    what was stored there and leaving the other records as they were;
    the number of sessions grows by one for a new identifier and stays
    the same for an identifier that was stored. *)
Theorem add_session_stores {G} {graph_ops : Graph G}
    (self : GraphIndex G) (s : Session) :
  _sessions (add_session self s) !! session_key s = Some s ∧
  (∀ sid, sid ≠ session_key s →
          _sessions (add_session self s) !! sid = _sessions self !! sid) ∧
  st_sessions (stats (add_session self s)) =
    (if bool_decide (is_Some (_sessions self !! session_key s))
     then st_sessions (stats self) else S (st_sessions (stats self))).
Proof.
  rewrite add_session_sessions. unfold stats. cbn [st_sessions].
  rewrite add_session_sessions. split_and!.
  - apply lookup_insert_eq.
  - intros sid Hne. by rewrite lookup_insert_ne.
  - case_bool_decide as Hs.
    + destruct Hs as [old Hold]. by erewrite map_size_insert_Some.
    + apply map_size_insert_None. by apply eq_None_not_Some.
Qed.


Lemma py_rstrip_app_fixed (p x : string) :
  py_rstrip x = x → x ≠ EmptyString → py_rstrip (p +:+ x) = p +:+ x.
Proof.
  intros Hx Hne. induction p as [|c p IH]; [done|].
  change (String c p +:+ x) with (String c (p +:+ x)).
  cbn [py_rstrip]. rewrite IH.
  destruct (p +:+ x) eqn:E; [|done].
  destruct p as [|c' p']; [by change (x = EmptyString) in E|].
  by change (String c' (p' +:+ x) = EmptyString) in E.
Qed.

(** A tool node is a normal form: normalising it again changes nothing. *)
Lemma normalize_tool_node t : _normalize_node (_tool_node t) = _tool_node t.
Proof.
  unfold _tool_node, _normalize_node at 1.
  set (x := _normalize_node t).
  assert (py_rstrip x = x) as Hr.
  { unfold x, _normalize_node, py_strip.
    by rewrite <- py_rstrip_lower, py_rstrip_idem. }
  assert (py_lower x = x) as Hl by apply py_lower_idem.
  destruct (decide (x = EmptyString)) as [->|Hne]; [done|].
  unfold py_strip. change (py_lstrip (_TOOL_NODE_PREFIX +:+ x)) with (_TOOL_NODE_PREFIX +:+ x).
  rewrite py_rstrip_app_fixed by done. by rewrite py_lower_app, Hl.
Qed.

Lemma py_slice_to_subseteq {A} (k : Z) (l : list A) : py_slice_to k l ⊆ l.
Proof. unfold py_slice_to. destruct (0 <=? k); apply subseteq_take. Qed.

Section QueryFacts.
Context {G : Type} {graph_ops : Graph G}.
Implicit Types (self : GraphIndex G).

(** A candidate is a contributor of an input node or of one of its
    neighbors. *)
Lemma candidate_origin self ctx sid :
  sid ∈ candidates self ctx →
  ∃ node, node ∈ ctx ∧
    (sid ∈ contributors self (_normalize_node node) ∨
     ∃ nb, nb ∈ neighbors (_graph self) (_normalize_node node) ∧
           sid ∈ contributors self nb).
Proof.
  unfold candidates. rewrite first_seen_elem_of.
  intros ([sid' n] & -> & Hp)%list_elem_of_fmap.
  unfold awards in Hp. apply list_elem_of_bind in Hp as (node & Hp & Hnode).
  exists node. split; [done|].
  unfold node_awards in Hp. apply elem_of_app in Hp as [Hp|Hp].
  - apply list_elem_of_fmap in Hp as (x & [= -> ->] & Hx). by left.
  - apply list_elem_of_bind in Hp as (nb & Hp & Hnb).
    apply list_elem_of_fmap in Hp as (x & [= -> ->] & Hx). right. eauto.
Qed.

Lemma contributor_is_candidate self ctx node sid :
  node ∈ ctx → sid ∈ contributors self (_normalize_node node) →
  sid ∈ candidates self ctx.
Proof.
  intros Hnode Hsid. unfold candidates. rewrite first_seen_elem_of.
  apply list_elem_of_fmap. exists (sid, 2). split; [done|].
  unfold awards. apply list_elem_of_bind. exists node. split; [|done].
  unfold node_awards. apply elem_of_app. left.
  apply list_elem_of_fmap. eauto.
Qed.

Lemma candidate_ranked self ctx sid :
  sid ∈ candidates self ctx → (sid, score self ctx sid) ∈ ranking self ctx.
Proof.
  intros Hsid. unfold ranking. rewrite py_sorted_perm.
  apply list_elem_of_fmap. eauto.
Qed.
End QueryFacts.

(** X5. A session that has just been added is found by a query for any
    tool it used: for a non-blank tool use of the session, the query for
    that tool's node returns the session, provided the limit is not
    smaller than the number of scored candidates. *)
Theorem added_session_is_found {G} {graph_ops : Graph G}
    (self : GraphIndex G) (s : Session) (msg : Message) (tu : ToolUse) (k : Z) :
  msg ∈ get_messages s → tu ∈ tool_uses msg → py_strip (tool tu) ≠ EmptyString →
  Z.of_nat (length (candidates (add_session self s) [_tool_node (tool tu)])) ≤ k →
  s ∈ query (add_session self s) [_tool_node (tool tu)] k.
Proof.
  intros Hmsg Htu Hne Hk.
  set (idx := add_session self s) in *. set (ctx := [_tool_node (tool tu)]) in *.
  assert (session_key s ∈ candidates idx ctx) as Hcand.
  { apply (contributor_is_candidate idx ctx (_tool_node (tool tu))); [by left|].
    rewrite normalize_tool_node. by eapply add_session_contributes. }
  rewrite query_unfold, py_slice_to_nonneg by (done || lia).
  rewrite take_ge by (rewrite ranking_length; lia).
  apply list_elem_of_omap. exists (session_key s, score idx ctx (session_key s)).
  split; [by apply candidate_ranked|].
  unfold record_of, idx. rewrite add_session_sessions, lookup_insert_eq.
  assert (session_truthy s = true) as ->; [|done].
  unfold get_messages in Hmsg. unfold session_truthy.
  destruct (messages s) eqn:Em; [|by apply elem_of_nil in Hmsg].
  rewrite (bool_decide_eq_true_2 (is_Some (Some _))) by eauto.
  by rewrite !orb_true_r.
Qed.

Lemma added_session_is_found_witness :
  sample_session "s3" ["Read"] ∈
    query (add_session two_readers (sample_session "s3" ["Read"])) ["tool:read"] 5.
Proof.
  refine (added_session_is_found two_readers (sample_session "s3" ["Read"])
            (MkMessage (Some "assistant") "" [MkToolUse "Read" ""])
            (MkToolUse "Read" "") 5 _ _ _ _).
  - by left.
  - by left.
  - done.
  - by vm_compute.
Defined.

Lemma query_origin {G} {graph_ops : Graph G}
    (self : GraphIndex G) (ctx : list string) (k : Z) r :
  r ∈ query self ctx k →
  ∃ sid node,
    _sessions self !! sid = Some r ∧ node ∈ ctx ∧
    (sid ∈ contributors self (_normalize_node node) ∨
     ∃ nb, nb ∈ neighbors (_graph self) (_normalize_node node) ∧
           sid ∈ contributors self nb).
Proof.
  intros Hr. destruct ctx as [|node0 ctx0] eqn:Ectx; [by apply elem_of_nil in Hr|].
  rewrite <- Ectx in *. rewrite query_unfold in Hr by (by rewrite Ectx).
  apply list_elem_of_omap in Hr as ([sid sc] & He & Hrec).
  apply py_slice_to_subseteq, ranking_candidate, candidate_origin in He
    as (node & Hnode & Horigin).
  exists sid, node. split_and!; [|done|done].
  unfold record_of in Hrec. destruct (_sessions self !! sid) as [s|]; [|done].
  by destruct (session_truthy s); simplify_eq.
Qed.

Lemma query_length {G} {graph_ops : Graph G}
    (self : GraphIndex G) (ctx : list string) (k : Z) :
  0 ≤ k → Z.of_nat (length (query self ctx k)) ≤ k.
Proof.
  intros Hk. destruct (decide (ctx = [])) as [->|Hne]; [done|].
  rewrite query_unfold by done.
  pose proof (omap_length_le (record_of self) (py_slice_to k (ranking self ctx))) as Hl.
  rewrite py_slice_to_length in Hl by done. lia.
Qed.

(** X6. [query] returns only records that are stored under the
    identifier of a contributor of an input node or of a neighbor of an
    input node; in particular it returns nothing from an index without
    contributors. *)
Theorem query_returns_contributors {G} {graph_ops : Graph G}
    (self : GraphIndex G) (ctx : list string) (k : Z) :
  (∀ r, r ∈ query self ctx k →
        ∃ sid node,
          _sessions self !! sid = Some r ∧ node ∈ ctx ∧
          (sid ∈ contributors self (_normalize_node node) ∨
           ∃ nb, nb ∈ neighbors (_graph self) (_normalize_node node) ∧
                 sid ∈ contributors self nb)) ∧
  (_node_to_sessions self = ∅ → query self ctx k = []).
Proof.
  split; [apply query_origin|]. intros Hempty.
  destruct (query self ctx k) as [|r l] eqn:Eq; [done|].
  destruct (query_origin self ctx k r) as (sid & node & _ & _ & Horigin);
    [rewrite Eq; by left|].
  unfold contributors in Horigin. rewrite Hempty in Horigin.
  setoid_rewrite lookup_empty in Horigin. simpl in Horigin.
  destruct Horigin as [?%elem_of_nil|(nb & _ & ?%elem_of_nil)]; done.
Qed.

(** X7. A larger limit only extends the result: for limits
    [0 <= k <= k'], the result for [k] is a prefix of the result for
    [k']. *)
Theorem query_limit_prefix {G} {graph_ops : Graph G}
    (self : GraphIndex G) (ctx : list string) (k k' : Z) :
  0 ≤ k → k ≤ k' → query self ctx k `prefix_of` query self ctx k'.
Proof.
  intros Hk Hkk'. destruct (decide (ctx = [])) as [->|Hne]; [by exists []|].
  rewrite !query_unfold, !py_slice_to_nonneg by (done || lia).
  set (l := ranking self ctx).
  exists (omap (record_of self) (drop (Z.to_nat k) (take (Z.to_nat k') l))).
  rewrite <- omap_app. f_equal.
  rewrite <- (take_drop (Z.to_nat k) (take (Z.to_nat k') l)) at 1.
  f_equal. rewrite take_take. f_equal. lia.
Qed.

Lemma query_limit_prefix_witness :
  0 ≤ 1 ∧ 1 ≤ 2 ∧
  query two_readers ["tool:read"] 1 `prefix_of` query two_readers ["tool:read"] 2.
Proof.
  split; [lia|]. split; [lia|].
  apply (query_limit_prefix two_readers ["tool:read"] 1 2); lia.
Defined.

(** X8. [query] reads its input nodes up to case and surrounding white
    space: normalising the context nodes beforehand does not change the
    result. *)
Theorem query_normalises_context {G} {graph_ops : Graph G}
    (self : GraphIndex G) (ctx : list string) (k : Z) :
  query self (_normalize_node <$> ctx) k = query self ctx k.
Proof.
  destruct ctx as [|node ctx]; [done|].
  unfold query. rewrite fmap_cons.
  change (foldl (score_node self) [] (_normalize_node node :: (_normalize_node <$> ctx)))
    with (foldl (score_node self) [] (_normalize_node <$> (node :: ctx))).
  rewrite foldl_fmap.
  assert (∀ cs n, score_node self cs (_normalize_node n) = score_node self cs n) as Hn.
  { intros cs n. unfold score_node. by rewrite _normalize_node_idem. }
  assert (∀ l cs, foldl (λ cs n, score_node self cs (_normalize_node n)) cs l =
                  foldl (score_node self) cs l) as ->; [|done].
  induction l as [|n l IH]; intros cs; [done|]. cbn [foldl]. by rewrite Hn, IH.
Qed.


(* ===================================================================== *)
(** * Further properties of the two graph backends *)
(* ===================================================================== *)

Lemma endpoints_snoc es e : endpoints (es ++ [e]) = endpoints es ∪ {[e.1.1; e.1.2]}.
Proof.
  unfold endpoints. rewrite bind_app, list_to_set_app_L. f_equal.
  cbn. by rewrite !(right_id_L ∅ (∪)).
Qed.

Lemma nx_touch_node n g :
  nx_consistent g → Nx._node (Nx.touch n g) = {[n]} ∪ Nx._node g.
Proof.
  intros (Hs & _ & _). unfold Nx.touch. case_decide as Hn; [|done].
  rewrite Hs in Hn. apply (anti_symm (⊆)); [apply union_subseteq_r|].
  apply union_least; [by apply singleton_subseteq_l|done].
Qed.

Lemma nx_add_edge_node g u v r :
  nx_consistent g → Nx._node (Nx._add_edge g u v r) = Nx._node g ∪ {[u; v]}.
Proof.
  intros Hg. unfold Nx._add_edge. rewrite nx_has_edge_row, nx_getitem_row.
  unfold od_mem at 1.
  destruct (od_get v (rowof (Nx._succ g) u)) as [a|] eqn:Ea.
  - destruct Hg as (Hs & Hp & Hsp).
    assert (od_mem v (default [] (Nx._succ g !! u)) = true) as Hm.
    { unfold od_mem. fold (rowof (Nx._succ g) u). by rewrite Ea. }
    assert (u ∈ Nx._node g) as Hu.
    { rewrite <- Hs. apply elem_of_dom. unfold rowof in Ea.
      destruct (Nx._succ g !! u); [eauto|done]. }
    assert (v ∈ Nx._node g) as Hv.
    { rewrite <- Hp. apply elem_of_dom. apply Hsp in Hm.
      destruct (Nx._pred g !! v); [eauto|by apply elem_of_nil in Hm]. }
    assert (Nx._node (Nx.set_weight g u v (get_weight a + 1)) = Nx._node g) as ->.
    { unfold Nx.set_weight. destruct (Nx._succ g !! u) as [row|]; [|done].
      by destruct (od_get v row). }
    apply (anti_symm (⊆)); [apply union_subseteq_l|].
    apply union_least; [done|].
    apply union_least; by apply singleton_subseteq_l.
  - unfold Nx.add_edge. cbn [Nx._node].
    destruct (nx_touch_consistent u g Hg) as (Hg1 & _).
    rewrite (nx_touch_node v) by done. rewrite (nx_touch_node u) by done.
    apply set_eq. intros x. rewrite !elem_of_union, !elem_of_singleton. tauto.
Qed.

Lemma nx_built_node es : Nx._node (nx_built es) = endpoints es.
Proof.
  unfold nx_built. induction es as [|e es IH] using rev_ind; [done|].
  rewrite foldl_snoc, endpoints_snoc, <- IH. unfold insert_edge at 1.
  apply (nx_add_edge_node (foldl insert_edge Nx._make_graph es)), nx_built_consistent.
Qed.

Lemma dom_dd_touch {V} (dflt : V) k (m : gmap string V) :
  dom (Pure.dd_touch dflt k m) = dom m ∪ {[k]}.
Proof.
  unfold Pure.dd_touch. destruct (m !! k) eqn:E.
  - apply (anti_symm (⊆)); [apply union_subseteq_l|].
    apply union_least; [done|]. apply singleton_subseteq_l, elem_of_dom. eauto.
  - rewrite dom_insert_L. apply (comm_L (∪)).
Qed.

Lemma pure_add_edge_node g u v r :
  dom (Pure._out (Pure._add_edge g u v r)) ∪ dom (Pure._in (Pure._add_edge g u v r)) =
  (dom (Pure._out g) ∪ dom (Pure._in g)) ∪ {[u; v]}.
Proof.
  unfold Pure._add_edge. rewrite pure_add_edge_out.
  unfold Pure.add_edge. cbn [Pure._in].
  rewrite !dom_dd_touch, !dom_insert_L, dom_dd_touch.
  apply set_eq. intros x. rewrite !elem_of_union, !elem_of_singleton. tauto.
Qed.

Lemma pure_built_node o es :
  dom (Pure._out (pure_built o es)) ∪ dom (Pure._in (pure_built o es)) = endpoints es.
Proof.
  unfold pure_built. induction es as [|e es IH] using rev_ind.
  - cbn. rewrite !dom_empty_L. by rewrite (left_id_L ∅ (∪)).
  - rewrite foldl_snoc, endpoints_snoc, <- IH. unfold insert_edge at 1 2.
    apply pure_add_edge_node.
Qed.

Lemma graph_nodes_are_endpoints_aux (o : set_order) (es : list edge) n :
  Nx.contains (nx_built es) n = bool_decide (n ∈ endpoints es) ∧
  Pure.contains (pure_built o es) n = bool_decide (n ∈ endpoints es).
Proof.
  split.
  - unfold Nx.contains. by rewrite nx_built_node.
  - unfold Pure.contains. rewrite <- (pure_built_node o es).
    apply bool_decide_ext. by rewrite elem_of_union.
Qed.

(** X9. On both backends the nodes of a graph built by insertions are
    exactly the end points of the inserted edges: [_has_node] holds of
    these and of nothing else, and [_node_count] is the number of
    distinct end points. *)
Theorem graph_nodes_are_endpoints (o : set_order) (es : list edge) :
  (∀ n, Nx._has_node (nx_built es) n = bool_decide (n ∈ endpoints es)) ∧
  Nx._node_count (nx_built es) = size (endpoints es) ∧
  (∀ n, Pure._has_node (pure_built o es) n = bool_decide (n ∈ endpoints es)) ∧
  Pure._node_count (pure_built o es) = size (endpoints es).
Proof.
  split; [|split; [|split]].
  - intros n. unfold Nx._has_node, Nx.contains. by rewrite nx_built_node.
  - unfold Nx._node_count, Nx.number_of_nodes. by rewrite nx_built_node.
  - intros n. unfold Pure._has_node, Pure.contains.
    rewrite <- (pure_built_node o es). apply bool_decide_ext.
    by rewrite elem_of_union.
  - unfold Pure._node_count, Pure.number_of_nodes. by rewrite pure_built_node.
Qed.

Lemma nx_add_edge_row g u v r x :
  rowof (Nx._succ (Nx._add_edge g u v r)) x =
  if decide (u = x)
  then od_set v (bump r (od_get v (rowof (Nx._succ g) u))) (rowof (Nx._succ g) u)
  else rowof (Nx._succ g) x.
Proof.
  unfold Nx._add_edge. rewrite nx_has_edge_row, nx_getitem_row.
  unfold od_mem. destruct (od_get v (rowof (Nx._succ g) u)) as [a|] eqn:Ea.
  - unfold Nx.set_weight.
    destruct (Nx._succ g !! u) as [row|] eqn:Er;
      [|by (unfold rowof in Ea; rewrite Er in Ea)].
    assert (rowof (Nx._succ g) u = row) as Hrow by (unfold rowof; by rewrite Er).
    rewrite Hrow in Ea |- *. rewrite Ea. cbn [Nx._succ]. by rewrite rowof_insert.
  - unfold Nx.add_edge. cbn [Nx._succ]. rewrite rowof_insert.
    fold (rowof (Nx._succ (Nx.touch v (Nx.touch u g))) u).
    by rewrite !nx_touch_row.
Qed.

Lemma pure_add_edge_row g u v r x :
  rowof (Pure._out (Pure._add_edge g u v r)) x =
  if decide (u = x)
  then od_set v (bump r (od_get v (rowof (Pure._out g) u))) (rowof (Pure._out g) u)
  else rowof (Pure._out g) x.
Proof.
  unfold Pure._add_edge. rewrite pure_add_edge_out, dd_touch_row, rowof_insert.
  case_decide; [done|]. apply dd_touch_row.
Qed.

(** The two backends keep the same rows of outgoing edges, in the same
    order. *)
Lemma built_rows_agree o es x :
  rowof (Nx._succ (nx_built es)) x = rowof (Pure._out (pure_built o es)) x.
Proof.
  unfold nx_built, pure_built. revert x.
  induction es as [|e es IH] using rev_ind; intros x; [done|].
  rewrite !foldl_snoc. unfold insert_edge at 1 3.
  rewrite nx_add_edge_row, pure_add_edge_row. by rewrite !IH.
Qed.

Lemma nx_add_edge_pred_nodup g u v r :
  nx_consistent g → (∀ x, NoDup (rowof (Nx._pred g) x)) →
  ∀ x, NoDup (rowof (Nx._pred (Nx._add_edge g u v r)) x).
Proof.
  intros Hg Hnd x. unfold Nx._add_edge. rewrite nx_has_edge_row, nx_getitem_row.
  unfold od_mem. destruct (od_get v (rowof (Nx._succ g) u)) as [a|] eqn:Ea.
  - assert (Nx._pred (Nx.set_weight g u v (get_weight a + 1)) = Nx._pred g) as ->; [|done].
    unfold Nx.set_weight. destruct (Nx._succ g !! u) as [row|]; [|done].
    by destruct (od_get v row).
  - destruct (nx_touch_consistent u g Hg) as (Hg1 & _ & Hp1 & _).
    destruct (nx_touch_consistent v (Nx.touch u g) Hg1) as (_ & _ & Hp2 & _).
    unfold Nx.add_edge. cbn [Nx._pred]. rewrite rowof_insert.
    fold (rowof (Nx._pred (Nx.touch v (Nx.touch u g))) v).
    rewrite Hp2, Hp1. case_decide as Hx; [|by rewrite Hp2, Hp1].
    case_decide as Hin; [done|].
    apply NoDup_app. split; [done|]. split; [|apply NoDup_singleton].
    by intros y Hy ->%list_elem_of_singleton.
Qed.

Lemma nx_built_pred_nodup es x : NoDup (rowof (Nx._pred (nx_built es)) x).
Proof.
  unfold nx_built. revert x. induction es as [|e es IH] using rev_ind; intros x.
  - unfold rowof. cbn. rewrite lookup_empty. apply NoDup_nil_2.
  - rewrite foldl_snoc. unfold insert_edge at 1.
    apply (nx_add_edge_pred_nodup (foldl insert_edge Nx._make_graph es));
      [apply nx_built_consistent|done].
Qed.

Lemma built_edge_count_agree o es :
  Nx._edge_count (nx_built es) = Pure._edge_count (pure_built o es).
Proof.
  pose proof (@insert_edges_count_fresh _ nx_graph nx_graph_laws es) as Hn.
  pose proof (@insert_edges_count_fresh _ (pure_graph o) (pure_graph_laws o) es) as Hp.
  unfold Nx._edge_count, Pure._edge_count, nx_built, pure_built.
  cbn in Hn, Hp. exact (eq_trans Hn (eq_sym Hp)).
Qed.

Lemma built_neighbors_perm o es n :
  Nx._neighbors (nx_built es) n ≡ₚ Pure._neighbors o (pure_built o es) n.
Proof.
  unfold Nx._neighbors, Pure._neighbors.
  assert (Nx.contains (nx_built es) n = Pure.contains (pure_built o es) n) as <-.
  { pose proof (graph_nodes_are_endpoints_aux o es n) as [-> ->]. done. }
  destruct (Nx.contains (nx_built es) n); [|done]. cbn [negb].
  apply Permutation_app.
  - pose proof (built_rows_agree o es n) as Hrow. unfold rowof in Hrow.
    unfold Nx.successors, Pure.successors. by rewrite Hrow.
  - unfold Nx.predecessors, Pure.predecessors. rewrite set_iter_perm.
    apply NoDup_Permutation; [apply nx_built_pred_nodup|apply NoDup_elements|].
    intros u. rewrite elem_of_elements.
    pose proof (nx_built_consistent es) as (_ & _ & Hsp).
    pose proof (pure_built_consistent o es) as Hpc.
    unfold pure_consistent in Hpc.
    pose proof (built_rows_agree o es u) as Hrow. unfold rowof in Hrow.
    etrans; [apply Hsp|]. etrans; [|symmetry; apply Hpc].
    change (foldl insert_edge make_graph es) with (nx_built es).
    change (foldl insert_edge Pure.empty es) with (pure_built o es).
    by rewrite Hrow.
Qed.

(** X10. The two backends cannot be told apart through the graph
    functions: after the same insertions they hold the same edges with
    the same attributes, the same number of edges, the same successors in
    the same order, and the neighbor lists agree up to the order in which
    the dependency-free backend enumerates its predecessor sets. *)
Theorem backends_agree (o : set_order) (es : list edge) :
  (∀ u v, Nx.getitem (nx_built es) u v = Pure.getitem (pure_built o es) u v) ∧
  (∀ u v, Nx.has_edge (nx_built es) u v = Pure.has_edge (pure_built o es) u v) ∧
  Nx._edge_count (nx_built es) = Pure._edge_count (pure_built o es) ∧
  (∀ n, Nx.successors (nx_built es) n = Pure.successors (pure_built o es) n) ∧
  (∀ n, Nx._neighbors (nx_built es) n ≡ₚ Pure._neighbors o (pure_built o es) n).
Proof.
  split; [|split; [|split; [|split]]].
  - intros u v. by rewrite nx_getitem_row, pure_getitem_row, (built_rows_agree o).
  - intros u v. rewrite nx_has_edge_row. unfold Pure.has_edge.
    by rewrite (built_rows_agree o).
  - apply built_edge_count_agree.
  - intros n. pose proof (built_rows_agree o es n) as Hrow. unfold rowof in Hrow.
    unfold Nx.successors, Pure.successors. by rewrite Hrow.
  - intros n. apply built_neighbors_perm.
Qed.


(** The contributor lists and the session map do not depend on the
    backend. *)
Lemma add_sessions_tables {G1} {ops1 : Graph G1} {G2} {ops2 : Graph G2} ss :
  ∀ (a : GraphIndex G1) (b : GraphIndex G2),
    _node_to_sessions a = _node_to_sessions b → _sessions a = _sessions b →
    _node_to_sessions (foldl add_session a ss) =
      _node_to_sessions (foldl add_session b ss) ∧
    _sessions (foldl add_session a ss) = _sessions (foldl add_session b ss).
Proof.
  induction ss as [|s ss IH]; intros a b Hn Hs; [done|].
  cbn [foldl]. apply IH; unfold add_session; cbn [_node_to_sessions _sessions];
    congruence.
Qed.

Lemma sumZ_perm l l' : l ≡ₚ l' → sumZ l = sumZ l'.
Proof. induction 1; cbn [sumZ foldr] in *; unfold sumZ in *; lia. Qed.

(** X11. An index gives the same answers on both backends: built from
    the same sessions, the two indexes report the same numbers of nodes,
    edges and sessions (and differ in the [networkx_available] flag),
    hold the same contributor lists and session records, and give every
    session the same score for every context, so that the same sessions
    are candidates of a query. *)
Theorem index_backends_agree (o : set_order) (ss : list Session) :
  st_nodes (@stats _ nx_graph (nx_index ss)) =
    st_nodes (@stats _ (pure_graph o) (pure_index o ss)) ∧
  st_edges (@stats _ nx_graph (nx_index ss)) =
    st_edges (@stats _ (pure_graph o) (pure_index o ss)) ∧
  st_sessions (@stats _ nx_graph (nx_index ss)) =
    st_sessions (@stats _ (pure_graph o) (pure_index o ss)) ∧
  st_networkx_available (@stats _ nx_graph (nx_index ss)) = true ∧
  st_networkx_available (@stats _ (pure_graph o) (pure_index o ss)) = false ∧
  (∀ node, contributors (nx_index ss) node = contributors (pure_index o ss) node) ∧
  (∀ sid, _sessions (nx_index ss) !! sid = _sessions (pure_index o ss) !! sid) ∧
  (∀ ctx sid, @score _ nx_graph (nx_index ss) ctx sid =
              @score _ (pure_graph o) (pure_index o ss) ctx sid) ∧
  (∀ ctx sid, sid ∈ @candidates _ nx_graph (nx_index ss) ctx ↔
              sid ∈ @candidates _ (pure_graph o) (pure_index o ss) ctx).
Proof.
  set (es := ss ≫= session_edges).
  assert (_graph (nx_index ss) = nx_built es) as Hgn.
  { unfold nx_index, build. by rewrite add_sessions_graph. }
  assert (_graph (pure_index o ss) = pure_built o es) as Hgp.
  { unfold pure_index, build. by rewrite add_sessions_graph. }
  assert (_node_to_sessions (nx_index ss) = _node_to_sessions (pure_index o ss) ∧
          _sessions (nx_index ss) = _sessions (pure_index o ss)) as [Hn Hs].
  { exact (@add_sessions_tables _ nx_graph _ (pure_graph o) ss
             (MkGraphIndex Nx._make_graph ∅ ∅) (MkGraphIndex Pure._make_graph ∅ ∅)
             eq_refl eq_refl). }
  assert (∀ node, contributors (nx_index ss) node = contributors (pure_index o ss) node)
    as Hc by (intros node; unfold contributors; by rewrite Hn).
  assert (∀ ctx sid, @score _ nx_graph (nx_index ss) ctx sid =
                     @score _ (pure_graph o) (pure_index o ss) ctx sid) as Hscore.
  { intros ctx sid. unfold score. f_equal. apply list_fmap_ext. intros _ node _.
    cbn zeta. rewrite Hc. f_equal. rewrite Hgn, Hgp.
    rewrite (list_fmap_ext _ (λ nb, occ sid (contributors (pure_index o ss) nb))
               (neighbors (nx_built es) (_normalize_node node))
               (λ _ nb _, f_equal (occ sid) (Hc nb))).
    apply sumZ_perm, fmap_Permutation, built_neighbors_perm. }
  unfold stats. cbn [st_nodes st_edges st_sessions st_networkx_available].
  rewrite Hgn, Hgp.
  split; [|split; [|split; [|split; [|split; [|split; [|split; [|split]]]]]]].
  - cbn [node_count nx_graph pure_graph]. unfold Nx._node_count, Pure._node_count,
      Nx.number_of_nodes, Pure.number_of_nodes.
    by rewrite nx_built_node, pure_built_node.
  - apply built_edge_count_agree.
  - by rewrite Hs.
  - done.
  - done.
  - done.
  - intros sid. by rewrite Hs.
  - done.
  - intros ctx sid. by rewrite !candidates_positive, Hscore.
Qed.


(* ===================================================================== *)
(** * Further properties of [_index_session] *)
(* ===================================================================== *)

Lemma tool_node_strip t : _tool_node (py_strip t) = _tool_node t.
Proof. unfold _tool_node, _normalize_node. by rewrite py_strip_idem. Qed.

Lemma message_edges_in_session s msg e :
  msg ∈ get_messages s → e ∈ message_edges msg → e ∈ session_edges s.
Proof.
  intros Hmsg He. unfold session_edges. apply elem_of_app. left.
  apply list_elem_of_bind. eauto.
Qed.

Lemma index_session_has_edge {G} {graph_ops : Graph G} {laws : GraphLaws G}
    (g : G) s (e : edge) :
  e ∈ session_edges s → has_edge (_index_session g s) e.1.1 e.1.2 = true.
Proof.
  intros He. rewrite index_session_edges, insert_edges_has_edge.
  rewrite (bool_decide_eq_true_2 (_ ∈ _)); [apply orb_true_r|].
  apply list_elem_of_fmap. exists e. by destruct e as [[? ?] ?].
Qed.

(** X12. What [_index_session] registers for a message of the session:
    a self-loop on the file node of every file reference of the content;
    for a message of role [user] or [tool_result], a self-loop on the
    error node of every error reference of the content; and for every
    tool use with a non-blank tool name, an edge from the file node of
    each file reference of its input to the tool node. *)
Theorem index_session_registers {G} {graph_ops : Graph G} {laws : GraphLaws G}
    (g : G) (s : Session) (msg : Message) :
  msg ∈ get_messages s →
  (∀ fref, fref ∈ _extract_file_refs (content msg) →
     has_edge (_index_session g s) (_file_node fref) (_file_node fref) = true) ∧
  (role msg = Some "user" ∨ role msg = Some "tool_result" →
   ∀ err, err ∈ _extract_error_refs (content msg) →
     has_edge (_index_session g s) (_error_node err) (_error_node err) = true) ∧
  (∀ tu fref, tu ∈ tool_uses msg → py_strip (tool tu) ≠ EmptyString →
     fref ∈ _extract_file_refs (input tu) →
     has_edge (_index_session g s) (_file_node fref) (_tool_node (tool tu)) = true).
Proof.
  intros Hmsg. split; [|split].
  - intros fref Hf.
    apply (index_session_has_edge g s (_file_node fref, _file_node fref, "self")).
    apply (message_edges_in_session s msg); [done|].
    unfold message_edges. apply elem_of_app. left.
    apply list_elem_of_fmap. eauto.
  - intros Hrole err He.
    apply (index_session_has_edge g s (_error_node err, _error_node err, "self")).
    apply (message_edges_in_session s msg); [done|].
    unfold message_edges. apply elem_of_app. right. apply elem_of_app. left.
    rewrite bool_decide_eq_true_2 by done. apply list_elem_of_fmap. eauto.
  - intros tu fref Htu Hne Hf. rewrite <- tool_node_strip.
    apply (index_session_has_edge g s
             (_file_node fref, _tool_node (py_strip (tool tu)), "accessed_by")).
    apply (message_edges_in_session s msg); [done|].
    unfold message_edges. apply elem_of_app. right. apply elem_of_app. right.
    apply list_elem_of_bind. exists tu. split; [|done].
    unfold tool_use_edges. rewrite str_truthy_spec, bool_decide_eq_true_2 by done.
    apply list_elem_of_fmap. eauto.
Qed.

Lemma index_session_registers_witness :
  Nx.has_edge (_index_session Nx._make_graph failing_read)
              "file:src/main.py" "tool:read" = true.
Proof.
  refine (proj2 (proj2 (index_session_registers (G:=Nx.DiGraph) Nx._make_graph failing_read
            (MkMessage (Some "user") "Error in src/main.py"
               [MkToolUse " Read " "src/main.py"]) _))
            (MkToolUse " Read " "src/main.py") "src/main.py" _ _ _).
  - by left.
  - by left.
  - done.
  - apply (bool_decide_unpack _). by vm_compute.
Defined.

Lemma accumulate_origin u v es a :
  accumulate u v None es = Some a →
  ∃ e, e ∈ es ∧ e.1 = (u, v) ∧ rel a = e.2 ∧
       get_weight a = Z.of_nat (emitted u v es).
Proof.
  induction es as [|e es IH]; [done|].
  unfold accumulate in *. cbn [foldl]. rewrite emitted_cons.
  case_decide as He.
  - intros Ha.
    destruct (accumulate_some u v es (bump e.2 None)) as (a' & Ha' & Hw & Hr).
    unfold accumulate in Ha'. rewrite Ha' in Ha. injection Ha as <-.
    exists e. split_and!; [by left|done|done|].
    rewrite Hw. cbn. lia.
  - intros Ha. destruct (IH Ha) as (e' & He' & Huv & Hr & Hw).
    exists e'. split_and!; [by right|done|done|]. rewrite Hw. lia.
Qed.

Lemma transitions_elem_of (l : list string) a b :
  (a, b) ∈ transitions l → a ∈ l ∧ b ∈ l.
Proof.
  unfold transitions. intros Hab. split.
  - by apply elem_of_zip_l in Hab.
  - apply elem_of_zip_r in Hab. destruct l; [done|]. by right.
Qed.

Lemma session_edges_shape s (e : edge) :
  e ∈ session_edges s → edge_shape e.1.1 e.1.2 e.2.
Proof.
  unfold session_edges. intros [He|He]%elem_of_app.
  - apply list_elem_of_bind in He as (msg & He & _). unfold message_edges in He.
    apply elem_of_app in He as [He|He]; [|apply elem_of_app in He as [He|He]].
    + apply list_elem_of_fmap in He as (f & -> & _). left. by exists f.
    + destruct (bool_decide _); [|by apply elem_of_nil in He].
      apply list_elem_of_fmap in He as (m & -> & _). right; left. by exists m.
    + apply list_elem_of_bind in He as (tu & He & _). unfold tool_use_edges in He.
      destruct (str_truthy _); [|by apply elem_of_nil in He].
      apply list_elem_of_fmap in He as (f & -> & _). right; right; left.
      by exists f, (py_strip (tool tu)).
  - apply list_elem_of_fmap in He as ([a b] & -> & Hab). cbn [fst snd].
    apply transitions_elem_of in Hab as [Ha Hb].
    apply session_tool_seq_tool_node in Ha as [t ->].
    apply session_tool_seq_tool_node in Hb as [t' ->].
    right; right; right. exists t, t'. split; [done|]. split; [done|].
    unfold transition_rel. destruct (negb _); [by left|by right].
Qed.

(** X13. The graph of a built index holds only edges of four shapes: a
    self-loop on a file node or on an error node tagged [self], an edge
    from a file node to a tool node tagged [accessed_by], and an edge
    between tool nodes tagged [led_to_success] or [co-occurs]; the
    weight of every edge is the number of times the sessions inserted
    it, hence at least 1. *)
Theorem built_edges_have_shape {G} {graph_ops : Graph G} {laws : GraphLaws G}
    (idx : GraphIndex G) (ss : list Session) (u v : string) (a : attrs) :
  edge_data (_graph (build idx ss)) u v = Some a →
  edge_shape u v (rel a) ∧
  get_weight a = Z.of_nat (emitted u v (ss ≫= session_edges)) ∧
  1 ≤ get_weight a.
Proof.
  unfold build. rewrite add_sessions_graph. cbn [_graph].
  rewrite insert_edges_data, edge_data_make.
  intros (e & He & Huv & Hr & Hw)%accumulate_origin.
  assert (0 < emitted u v (ss ≫= session_edges))%nat as Hpos.
  { apply emitted_pos, list_elem_of_fmap. eauto. }
  apply list_elem_of_bind in He as (s & He & _).
  apply session_edges_shape in He. rewrite Hr.
  destruct e as [[u' v'] r]. cbn [fst snd] in *. injection Huv as -> ->.
  split; [done|]. split; [done|]. lia.
Qed.

Lemma built_edges_have_shape_witness :
  edge_shape "file:src/main.py" "tool:read" "accessed_by" ∧
  1 = Z.of_nat (emitted "file:src/main.py" "tool:read" ([failing_read] ≫= session_edges)) ∧
  1 ≤ 1.
Proof.
  apply (built_edges_have_shape (G:=Nx.DiGraph) new_index [failing_read]
           "file:src/main.py" "tool:read" (Attrs (Some 1) "accessed_by")).
  by vm_compute.
Defined.


(* ===================================================================== *)
(** * Properties of the classifier and of the other tools *)
(* ===================================================================== *)

Lemma od_get_fmap_gen {V} (f : string → V) k (L : list string) :
  od_get k ((λ s, (s, f s)) <$> L) = if bool_decide (k ∈ L) then Some (f k) else None.
Proof.
  induction L as [|k0 L IH]; [done|].
  cbn [fmap list_fmap od_get]. destruct (String.eqb k k0) eqn:E.
  - apply String.eqb_eq in E. subst. by rewrite bool_decide_eq_true_2 by left.
  - apply String.eqb_neq in E. change (list_fmap _ _ ?g L) with (g <$> L).
    rewrite IH. apply (f_equal (λ b : bool, if b then _ else _)).
    apply bool_decide_ext. rewrite elem_of_cons. tauto.
Qed.

Lemma od_set_fmap_gen {V} (f : string → V) k v (L : list string) :
  NoDup L →
  od_set k v ((λ s, (s, f s)) <$> L) =
  (λ s, (s, if decide (s = k) then v else f s))
    <$> (if bool_decide (k ∈ L) then L else L ++ [k]).
Proof.
  induction 1 as [|k0 L Hk0 HL IH].
  - simpl. by rewrite decide_True.
  - cbn [fmap list_fmap od_set]. destruct (String.eqb k k0) eqn:E.
    + apply String.eqb_eq in E. subst k0.
      rewrite bool_decide_eq_true_2 by left.
      rewrite fmap_cons, decide_True by done. f_equal.
      apply list_fmap_ext. intros i s Hs. rewrite decide_False; [done|].
      intros ->. apply Hk0. by eapply list_elem_of_lookup_2.
    + apply String.eqb_neq in E. change (list_fmap _ _ ?g L) with (g <$> L).
      rewrite IH.
      assert (bool_decide (k ∈ k0 :: L) = bool_decide (k ∈ L)) as ->.
      { apply bool_decide_ext. rewrite elem_of_cons. tauto. }
      destruct (bool_decide (k ∈ L)); cbn [app fmap list_fmap];
        by rewrite decide_False by done.
Qed.

Lemma filter_none {A} (P : A → Prop) `{∀ x, Decision (P x)} (l : list A) :
  (∀ x, x ∈ l → ¬ P x) → filter P l = [].
Proof.
  induction l as [|x l IH]; intros Hl; [done|].
  rewrite filter_cons_False by (apply Hl; by left).
  apply IH. intros y Hy. apply Hl. by right.
Qed.

(** A loop that reads the entry of an element's key with a default,
    updates it and writes it back groups the list. *)
Lemma group_fold {A V} (key : A → string) (upd : A → V → V) (init : V) (l : list A) :
  foldl (λ d x, od_set (key x) (upd x (default init (od_get (key x) d))) d) [] l =
  grouped key upd init l.
Proof.
  unfold grouped. induction l as [|x l IH] using rev_ind; [done|].
  rewrite foldl_snoc, IH, fmap_app. cbn [fmap list_fmap].
  rewrite first_seen_snoc, od_get_fmap_gen, od_set_fmap_gen by apply first_seen_NoDup.
  apply list_fmap_ext. intros i k Hk. f_equal.
  rewrite filter_app, foldl_app.
  destruct (decide (k = key x)) as [->|Hne].
  - rewrite filter_cons_True, filter_nil by done. cbn [foldl].
    case_bool_decide as Hin; [done|]. cbn [default].
    rewrite filter_none; [done|].
    intros y Hy Hkey. apply Hin, first_seen_elem_of, list_elem_of_fmap. eauto.
  - rewrite filter_cons_False, filter_nil by (by intros ?). done.
Qed.


Lemma occ_fmap_filter {A} (key : A → string) k (l : list A) :
  Z.of_nat (length (filter (λ x, key x = k) l)) = occ k (key <$> l).
Proof.
  unfold occ. f_equal. induction l as [|x l IH]; [done|].
  rewrite fmap_cons, !filter_cons. case_decide; cbn [length]; by rewrite IH.
Qed.

Lemma foldl_count {A} (l : list A) (n : Z) :
  foldl (λ v _, v + 1) n l = n + Z.of_nat (length l).
Proof.
  revert n. induction l as [|x l IH]; intros n; cbn [foldl length]; [lia|].
  rewrite IH. lia.
Qed.

Lemma grouped_count {A} (key : A → string) (l : list A) :
  grouped key (λ _ v, v + 1) 0 l = histogram (key <$> l).
Proof.
  unfold grouped, histogram. apply list_fmap_ext. intros i k _.
  by rewrite foldl_count, occ_fmap_filter.
Qed.

Lemma sumZ_cons x l : sumZ (x :: l) = x + sumZ l.
Proof. done. Qed.

Lemma sum_indicator (x : string) (ks : list string) :
  NoDup ks → x ∈ ks →
  sumZ ((λ k, if decide (x = k) then 1 else 0) <$> ks) = 1.
Proof.
  induction 1 as [|k ks Hk Hnd IH]; [by intros ?%elem_of_nil|].
  rewrite fmap_cons, sumZ_cons.
  intros [->|Hin]%elem_of_cons.
  - rewrite decide_True by done.
    assert (sumZ ((λ k0, if decide (k = k0) then 1 else 0) <$> ks) = 0) as ->; [|done].
    clear IH Hnd. induction ks as [|k' ks IH]; [done|].
    rewrite fmap_cons, sumZ_cons. apply not_elem_of_cons in Hk as [Hne Hk].
    rewrite decide_False by done. by rewrite IH.
  - rewrite decide_False by (intros ->; done). by rewrite IH.
Qed.

Lemma sum_occ (L ks : list string) :
  NoDup ks → (∀ x, x ∈ L → x ∈ ks) →
  sumZ ((λ k, occ k L) <$> ks) = Z.of_nat (length L).
Proof.
  intros Hnd. induction L as [|x L IH]; intros Hsub.
  - clear Hsub Hnd. induction ks as [|k ks IH]; [done|].
    by rewrite fmap_cons, sumZ_cons, occ_nil, IH.
  - assert (sumZ ((λ k, occ k (x :: L)) <$> ks) =
            sumZ ((λ k, if decide (x = k) then 1 else 0) <$> ks) +
            sumZ ((λ k, occ k L) <$> ks)) as ->.
    { clear. induction ks as [|k ks IH]; [done|].
      rewrite !fmap_cons, !sumZ_cons, occ_cons, IH. lia. }
    rewrite sum_indicator, IH; [cbn [length]; lia| |done|].
    + intros y Hy. apply Hsub. by right.
    + apply Hsub. by left.
Qed.

Lemma histogram_sum (names : list string) :
  sumZ (histogram names).*2 = Z.of_nat (length names).
Proof.
  unfold histogram. rewrite <- list_fmap_compose.
  apply (sum_occ names (first_seen names)); [apply first_seen_NoDup|].
  intros x. by rewrite first_seen_elem_of.
Qed.

Lemma histogram_elem_of (names : list string) k n :
  (k, n) ∈ histogram names ↔ k ∈ names ∧ n = occ k names.
Proof.
  unfold histogram. rewrite list_elem_of_fmap. setoid_rewrite first_seen_elem_of.
  split.
  - by intros (k' & [= -> ->] & Hk).
  - intros [Hk ->]. eauto.
Qed.

(** X14. [get_trajectory_stats] always succeeds. Its results list each
    label that the classifier gives to a cached session once, in order
    of first appearance, with the number of cached sessions of that
    label, which is at least 1; the counts add up to the number of cached
    sessions, and [unique_trajectories] is the number of distinct
    labels. The service is loaded by the call. *)
Theorem trajectory_stats_counts (classify_fn : Session → string)
    (service : Mcp.SessionIndexService) :
  Tools.get_trajectory_stats classify_fn service =
    (Tools.Ok (histogram (classify_fn <$> (Mcp.sessions service).1))
       [("unique_trajectories",
         Some (JInt (Z.of_nat
           (length (first_seen (classify_fn <$> (Mcp.sessions service).1))))))]
       (Mcp.meta (Mcp._ensure_loaded service)),
     Mcp._ensure_loaded service) ∧
  sumZ (histogram (classify_fn <$> (Mcp.sessions service).1)).*2 =
    Z.of_nat (length (Mcp.sessions service).1) ∧
  (∀ label n, (label, n) ∈ histogram (classify_fn <$> (Mcp.sessions service).1) →
     1 ≤ n ∧
     n = Z.of_nat (length (filter (λ s, classify_fn s = label) (Mcp.sessions service).1))).
Proof.
  split; [|split].
  - unfold Tools.get_trajectory_stats, Mcp.sessions. cbn [fst].
    rewrite (group_fold classify_fn (λ _ v, v + 1) 0), grouped_count.
    unfold histogram. by rewrite length_fmap.
  - by rewrite histogram_sum, length_fmap.
  - intros label n [Hin ->]%histogram_elem_of. split.
    + apply occ_pos in Hin. lia.
    + by rewrite occ_fmap_filter.
Qed.


Lemma existsb_elem_of {A} (f : A → bool) (l : list A) :
  existsb f l = true ↔ ∃ x, x ∈ l ∧ f x = true.
Proof.
  rewrite existsb_exists. by setoid_rewrite list_elem_of_In.
Qed.

Lemma any_signal_spec signals content :
  any_signal signals content = true ↔
  ∃ sig, sig ∈ signals ∧ py_in sig content = true.
Proof. apply existsb_elem_of. Qed.

Lemma correction_scan (messages : list Message) :
  existsb (λ im : nat * Message,
             let '(i, msg) := im in
             (bool_decide (role msg = Some "user") && bool_decide (0 < i)%nat
              && any_signal CORRECTION_SIGNALS (py_lower (content msg)))%bool)
          (imap pair messages) = true ↔
  ∃ i, corrects messages i.
Proof.
  rewrite existsb_elem_of. unfold corrects. split.
  - intros ([i msg] & Him & Hc).
    apply list_elem_of_lookup in Him as [j Hj].
    rewrite list_lookup_imap in Hj.
    destruct (messages !! j) as [m|] eqn:Em; [|done]. injection Hj as <- <-.
    apply andb_true_iff in Hc as [Hc Hsig]. apply andb_true_iff in Hc as [Hrole Hpos].
    apply bool_decide_eq_true in Hrole, Hpos.
    apply any_signal_spec in Hsig as (sig & Hsig & Hin).
    exists j, m, sig. done.
  - intros (i & msg & sig & Hi & Hpos & Hrole & Hsig & Hin).
    exists (i, msg). split.
    + apply list_elem_of_lookup. exists i. by rewrite list_lookup_imap, Hi.
    + rewrite !bool_decide_eq_true_2 by done. cbn [andb].
      apply any_signal_spec. eauto.
Qed.

(** The classifier returns one of its five labels. *)
Lemma classify_trajectory_label (s : Session) :
  classify_trajectory s ∈ trajectory_labels.
Proof.
  unfold classify_trajectory.
  repeat match goal with
         | |- context [if ?b then _ else _] => destruct b
         end;
    apply (bool_decide_unpack _); by vm_compute.
Qed.

(** X15. The classifier returns one of its five labels. It returns
    [correction_loop] exactly when a user message other than the first
    message of the session carries a correction signal; it returns
    [debugging_trace] or [iterative_build] only when an assistant message
    uses a debug tool, and [iterative_build] only for more than 8
    messages; a session without messages is [sft_clean]. *)
Theorem classify_trajectory_spec (s : Session) :
  classify_trajectory s ∈ trajectory_labels ∧
  (classify_trajectory s = "correction_loop" ↔ ∃ i, corrects (get_messages s) i) ∧
  (classify_trajectory s = "debugging_trace" ∨ classify_trajectory s = "iterative_build" →
   ∃ msg t, msg ∈ get_messages s ∧ role msg = Some "assistant" ∧
            t ∈ tool_uses msg ∧ py_lower (tool t) ∈ DEBUG_TOOLS) ∧
  (classify_trajectory s = "iterative_build" → (8 < length (get_messages s))%nat) ∧
  (get_messages s = [] → classify_trajectory s = "sft_clean").
Proof.
  pose proof (correction_scan (get_messages s)) as Hscan.
  unfold classify_trajectory.
  destruct (existsb _ (imap pair (get_messages s))) eqn:Ec.
  { split_and!; try done.
    - unfold trajectory_labels. by left.
    - split; [intros _; by apply Hscan|done].
    - by intros [?|?].
    - intros Hnil. rewrite Hnil in Ec. done. }
  assert (¬ ∃ i, corrects (get_messages s) i) as Hno.
  { intros Hc. apply Hscan in Hc. done. }
  clear Hscan Ec.
  set (has_bash := existsb _ (filter _ (get_messages s))).
  assert (has_bash = true →
          ∃ msg t, msg ∈ get_messages s ∧ role msg = Some "assistant" ∧
                   t ∈ tool_uses msg ∧ py_lower (tool t) ∈ DEBUG_TOOLS) as Hbash.
  { unfold has_bash. intros (msg & Hmsg & Ht)%existsb_elem_of.
    apply list_elem_of_filter in Hmsg as [Hrole Hmsg].
    apply existsb_elem_of in Ht as (t & Ht & Hd). apply bool_decide_eq_true in Hd.
    eauto 10. }
  assert (get_messages s = [] → has_bash = false) as Hnil.
  { unfold has_bash. by intros ->. }
  assert (∀ first_user,
            head (filter (λ m, role m = Some "user") (get_messages s)) = Some first_user →
            get_messages s ≠ []) as Hhead.
  { intros first_user Eh Hm. by rewrite Hm in Eh. }
  destruct (head (filter _ (get_messages s))) as [first_user|];
    [specialize (Hhead first_user eq_refl)|clear Hhead];
    destruct has_bash eqn:Eb; cbn [andb]; rewrite ?andb_false_r, ?andb_true_r;
    repeat match goal with
           | |- context [if ?b then _ else _] =>
               let E := fresh "E" in destruct b eqn:E; cbn [andb] in *
           end;
    (split; [apply (bool_decide_unpack _); by vm_compute|]);
    (split; [split; [done|intros Hc; by apply Hno in Hc]|]);
    (split; [first [by intros [?|?] | intros _; by apply Hbash]|]);
    (split; [first [done | intros _; by match goal with
                                        | H : bool_decide _ = true |- _ =>
                                            apply bool_decide_eq_true in H
                                        end]|]);
    first [done | intros Hm; by specialize (Hnil Hm)].
Qed.


(** X16. With the default classifier, [get_trajectory_stats] reports at
    most five trajectories, each under one of the classifier's five
    labels. *)
Theorem default_trajectory_stats_bounded (service : Mcp.SessionIndexService) :
  ∃ counts,
    reply_results (Tools.get_trajectory_stats classify_trajectory service).1
      = Some counts ∧
    (length counts ≤ 5)%nat ∧
    NoDup counts.*1 ∧
    ∀ label n, (label, n) ∈ counts → label ∈ trajectory_labels.
Proof.
  set (L := classify_trajectory <$> (Mcp.sessions service).1).
  exists (histogram L).
  assert (∀ label, label ∈ first_seen L → label ∈ trajectory_labels) as Hsub.
  { intros label (s & -> & _)%first_seen_elem_of%list_elem_of_fmap.
    apply classify_trajectory_label. }
  split; [|split; [|split]].
  - unfold Tools.get_trajectory_stats, Mcp.sessions. cbn [fst reply_results].
    by rewrite (group_fold classify_trajectory (λ _ v, v + 1) 0), grouped_count.
  - unfold histogram. rewrite length_fmap.
    change 5%nat with (length trajectory_labels).
    apply submseteq_length, NoDup_submseteq; [apply first_seen_NoDup|done].
  - unfold histogram. rewrite <- list_fmap_compose.
    rewrite (list_fmap_ext _ id (first_seen L)) by done.
    rewrite list_fmap_id. apply first_seen_NoDup.
  - intros label n [Hin _]%histogram_elem_of.
    by apply Hsub, first_seen_elem_of.
Qed.

Lemma find_first {A} (f : A → bool) (l : list A) x :
  List.find f l = Some x ↔
  ∃ i, l !! i = Some x ∧ f x = true ∧
       ∀ j y, (j < i)%nat → l !! j = Some y → f y = false.
Proof.
  induction l as [|a l IH]; cbn [List.find].
  - split; [done|]. by intros (i & Hi & _).
  - destruct (f a) eqn:Ea.
    + split.
      * intros [= ->]. exists O. split_and!; [done|done|]. intros j y Hj. lia.
      * intros (i & Hi & Hx & Hfirst). destruct i as [|i]; [by injection Hi as ->|].
        specialize (Hfirst O a ltac:(lia) eq_refl). congruence.
    + rewrite IH. split.
      * intros (i & Hi & Hx & Hfirst). exists (S i). split_and!; [done|done|].
        intros [|j] y Hj Hy; [by injection Hy as <-|].
        apply (Hfirst j); [lia|done].
      * intros (i & Hi & Hx & Hfirst). destruct i as [|i].
        { injection Hi as ->. congruence. }
        exists i. split_and!; [done|done|].
        intros j y Hj Hy. apply (Hfirst (S j)); [lia|done].
Qed.

Lemma find_none_iff {A} (f : A → bool) (l : list A) :
  List.find f l = None ↔ ∀ x, x ∈ l → f x = false.
Proof.
  induction l as [|a l IH]; cbn [List.find].
  - split; [by intros _ x ?%elem_of_nil|done].
  - destruct (f a) eqn:Ea.
    + split; [done|]. intros Hall. specialize (Hall a ltac:(left)). congruence.
    + rewrite IH. split.
      * intros Hall x [->|Hx]%elem_of_cons; auto.
      * intros Hall x Hx. apply Hall. by right.
Qed.

(** X17. [get_session] rejects an identifier that is blank after
    trimming with [invalid_session_id], without loading the service.
    Otherwise it loads the service and returns the first cached session
    whose identifier, read as text, equals the trimmed argument, and
    [session_not_found] exactly when there is none; white space around
    the argument makes no difference to the reply. *)
Theorem get_session_spec (service : Mcp.SessionIndexService) (sid : string) :
  (py_strip sid = EmptyString →
   Tools.get_session service sid =
     (Tools.Error "invalid_session_id" "session_id must be non-empty."
                  [("session_id", JStr sid)] (Mcp.meta service), service)) ∧
  (py_strip sid ≠ EmptyString →
   (Tools.get_session service sid).2 = Mcp._ensure_loaded service ∧
   (∀ s, reply_results (Tools.get_session service sid).1 = Some s ↔
         ∃ i, (Mcp.sessions service).1 !! i = Some s ∧
              Tools.str_of_session_id s = py_strip sid ∧
              ∀ j s', (j < i)%nat → (Mcp.sessions service).1 !! j = Some s' →
                      Tools.str_of_session_id s' ≠ py_strip sid) ∧
   (reply_error (Tools.get_session service sid).1 = Some "session_not_found" ↔
    ∀ s, s ∈ (Mcp.sessions service).1 → Tools.str_of_session_id s ≠ py_strip sid) ∧
   Tools.get_session service (py_strip sid) = Tools.get_session service sid).
Proof.
  split.
  - intros Hblank. unfold Tools.get_session. by rewrite Hblank.
  - intros Hne.
    assert (str_truthy (py_strip sid) = true) as Ht.
    { rewrite str_truthy_spec. by apply bool_decide_eq_true_2. }
    unfold Tools.get_session. rewrite py_strip_idem, Ht. cbn [negb].
    unfold Mcp.sessions. cbn [fst].
    set (cached := default [] (Mcp._sessions (Mcp._ensure_loaded service))).
    set (f := λ session, String.eqb (Tools.str_of_session_id session) (py_strip sid)).
    pose proof (find_first f cached) as Hfirst.
    pose proof (find_none_iff f cached) as Hnone.
    assert (∀ s, f s = true ↔ Tools.str_of_session_id s = py_strip sid) as Hf
      by (intros s; apply String.eqb_eq).
    assert (∀ s, f s = false ↔ Tools.str_of_session_id s ≠ py_strip sid) as Hf'
      by (intros s; apply String.eqb_neq).
    destruct (List.find f cached) as [found|] eqn:Efind; cbn [snd fst reply_results reply_error].
    + split; [done|]. split; [|split; [|done]].
      * intros s. split.
        -- intros [= <-]. destruct (proj1 (Hfirst found) eq_refl) as (i & Hi & Hx & Hj).
           exists i. split; [done|]. split; [by apply Hf|].
           intros j s' Hlt Hs'. apply Hf'. by eapply Hj.
        -- intros (i & Hi & Hx & Hj). f_equal. symmetry.
           assert (Some found = Some s) as [= ->]; [|done].
           apply Hfirst. exists i. split; [done|]. split; [by apply Hf|].
           intros j s' Hlt Hs'. apply Hf'. by eapply Hj.
      * split; [done|]. intros Hall.
        destruct (proj1 (Hfirst found) eq_refl) as (i & Hi & Hx & _).
        apply Hf in Hx. destruct (Hall found); [|done].
        by eapply list_elem_of_lookup_2.
    + split; [done|]. split; [|split; [|done]].
      * intros s. split; [done|].
        intros (i & Hi & Hx & _). apply Hf in Hx.
        rewrite (proj1 Hnone eq_refl s) in Hx; [done|].
        by eapply list_elem_of_lookup_2.
      * split; [|done]. intros _ s Hs. apply Hf'. by apply Hnone.
Qed.

Lemma get_session_spec_witness :
  reply_results (Tools.get_session loaded_service " s2 ").1 =
    Some (sample_session "s2" ["Read"]) ∧
  Tools.get_session loaded_service (py_strip " s2 ") =
    Tools.get_session loaded_service " s2 ".
Proof.
  destruct (proj2 (get_session_spec loaded_service " s2 ") ltac:(done))
    as (_ & Hres & _ & Hstrip).
  split; [|exact Hstrip].
  apply Hres. exists 1%nat. split; [done|]. split; [done|].
  intros j s' Hj Hs'. destruct j as [|j]; [|lia].
  injection Hs' as <-. done.
Defined.


Lemma foldl_add_one (names : list string) :
  foldl (λ tc t, od_set t (default 0 (od_get t tc) + 1) tc) [] names = histogram names.
Proof.
  etrans; [exact (group_fold id (λ _ v, v + 1) 0 names)|].
  by rewrite grouped_count, list_fmap_id.
Qed.

Lemma count_tools_names tus : ∀ tc,
  foldl Tools.count_tool tc tus =
  foldl (λ tc t, od_set t (default 0 (od_get t tc) + 1) tc) tc (omap tool_name_of tus).
Proof.
  induction tus as [|tu tus IH]; intros tc; [done|].
  cbn [foldl omap list_omap]. rewrite IH.
  unfold Tools.count_tool at 1, tool_name_of at 2.
  by destruct (str_truthy (py_strip (tool tu))).
Qed.

Lemma count_messages_names msgs : ∀ tc,
  foldl (λ tc message, foldl Tools.count_tool tc (tool_uses message)) tc msgs =
  foldl (λ tc t, od_set t (default 0 (od_get t tc) + 1) tc) tc
        (msgs ≫= λ msg, omap tool_name_of (tool_uses msg)).
Proof.
  induction msgs as [|msg msgs IH]; intros tc; [done|].
  cbn [foldl mbind list_bind]. by rewrite IH, foldl_app, count_tools_names.
Qed.

(** The statistics of one project after its sessions have been counted. *)
Lemma project_stats_fold (mine : list Session) : ∀ n tc,
  foldl (λ stats session,
           Tools.MkProjectStats (Tools.ps_session_count stats + 1)
             (foldl (λ tc message, foldl Tools.count_tool tc (tool_uses message))
                    (Tools.ps_tool_counts stats) (get_messages session)))
        (Tools.MkProjectStats n tc) mine =
  Tools.MkProjectStats (n + Z.of_nat (length mine))
    (foldl (λ tc t, od_set t (default 0 (od_get t tc) + 1) tc) tc (mine ≫= tool_names)).
Proof.
  induction mine as [|s mine IH]; intros n tc.
  - cbn. f_equal. lia.
  - cbn [foldl Tools.ps_session_count Tools.ps_tool_counts mbind list_bind length].
    rewrite IH, foldl_app. unfold tool_names at 2.
    rewrite <- count_messages_names. f_equal. lia.
Qed.

Lemma patterns_fold pf (cached : list Session) :
  pf ≠ Some EmptyString → ∀ d,
  foldl (Tools.patterns_step pf) d cached =
  foldl (λ d session,
           od_set (Tools.project_name_of session)
             ((λ session stats,
                 Tools.MkProjectStats (Tools.ps_session_count stats + 1)
                   (foldl (λ tc message, foldl Tools.count_tool tc (tool_uses message))
                          (Tools.ps_tool_counts stats) (get_messages session)))
                session
                (default (Tools.MkProjectStats 0 [])
                         (od_get (Tools.project_name_of session) d)))
             d)
        d (filter (in_project pf) cached).
Proof.
  intros Hpf. induction cached as [|s l IH]; intros d; [done|].
  cbn [foldl]. rewrite IH. unfold Tools.patterns_step.
  destruct pf as [f|].
  - assert (str_truthy f = true) as -> by (destruct f; [by destruct Hpf|done]).
    cbn [andb]. destruct (String.eqb (Tools.project_name_of s) f) eqn:E; cbn [negb].
    + apply String.eqb_eq in E. by rewrite filter_cons_True.
    + apply String.eqb_neq in E. by rewrite filter_cons_False.
  - by rewrite filter_cons_True.
Qed.


Lemma patterns_loop pf (cached : list Session) :
  pf ≠ Some EmptyString →
  foldl (Tools.patterns_step pf) [] cached =
  project_patterns (filter (in_project pf) cached).
Proof.
  intros Hpf. rewrite patterns_fold by done.
  etrans; [apply (group_fold Tools.project_name_of
                    (λ session stats,
                       Tools.MkProjectStats (Tools.ps_session_count stats + 1)
                         (foldl (λ tc message,
                                   foldl Tools.count_tool tc (tool_uses message))
                                (Tools.ps_tool_counts stats) (get_messages session)))
                    (Tools.MkProjectStats 0 []))|].
  unfold grouped, project_patterns. apply list_fmap_ext. intros i name _.
  cbn zeta. f_equal. rewrite project_stats_fold. f_equal. apply foldl_add_one.
Qed.

Lemma NoDup_constant {A} (a : A) (l : list A) :
  NoDup l → (∀ x, x ∈ l → x = a) → (length l ≤ 1)%nat.
Proof.
  intros Hnd Hall. destruct l as [|x [|y l]]; cbn [length]; [lia|lia|].
  exfalso. apply NoDup_cons in Hnd as [Hx _]. apply Hx.
  rewrite (Hall x), (Hall y); [by left|by right; left|by left].
Qed.

Lemma project_patterns_keys (sessions : list Session) :
  (project_patterns sessions).*1 = first_seen (Tools.project_name_of <$> sessions).
Proof.
  unfold project_patterns. rewrite <- list_fmap_compose.
  rewrite (list_fmap_ext _ id (first_seen (Tools.project_name_of <$> sessions))) by done.
  apply list_fmap_id.
Qed.

(** X18. [get_project_patterns] rejects a filter that is blank after
    trimming with [invalid_project], without loading the service.
    Otherwise it succeeds: the results list the project names of the
    cached sessions that pass the trimmed filter, in order of first
    appearance, each with the number of its sessions (at least 1) and
    the number of uses of each of its trimmed, non-blank tool names.
    With a filter at most one project is listed, under the trimmed
    filter; without a filter the session counts add up to the number of
    cached sessions. *)
Theorem project_patterns_spec (service : Mcp.SessionIndexService)
    (project : option string) :
  (∀ p, project = Some p → py_strip p = EmptyString →
     Tools.get_project_patterns service project =
       (Tools.Error "invalid_project" "project filter must be non-empty when provided."
                    [("project", JStr p)] (Mcp.meta service), service)) ∧
  ((∀ p, project = Some p → py_strip p ≠ EmptyString) →
     Tools.get_project_patterns service project =
       (Tools.Ok
          (project_patterns
             (filter (in_project (py_strip <$> project)) (Mcp.sessions service).1))
          [("project_filter", JStr <$> (py_strip <$> project));
           ("matched_projects",
            Some (JInt (Z.of_nat (length
              (project_patterns
                 (filter (in_project (py_strip <$> project))
                         (Mcp.sessions service).1))))))]
          (Mcp.meta (Mcp._ensure_loaded service)),
        Mcp._ensure_loaded service) ∧
     (∀ name stats,
        (name, stats) ∈ project_patterns
           (filter (in_project (py_strip <$> project)) (Mcp.sessions service).1) →
        1 ≤ Tools.ps_session_count stats ∧
        ∀ p, project = Some p → name = py_strip p) ∧
     (is_Some project →
      (length (project_patterns
         (filter (in_project (py_strip <$> project)) (Mcp.sessions service).1)) ≤ 1)%nat) ∧
     (project = None →
      sumZ (Tools.ps_session_count <$>
              (project_patterns (Mcp.sessions service).1).*2) =
        Z.of_nat (length (Mcp.sessions service).1))).
Proof.
  split.
  - intros p -> Hblank. unfold Tools.get_project_patterns. cbn [fmap option_fmap option_map].
    by rewrite Hblank.
  - intros Hvalid.
    assert (py_strip <$> project ≠ Some EmptyString) as Hpf.
    { destruct project as [p|]; [|done]. cbn. intros [= Hp]. by apply (Hvalid p). }
    set (pf := py_strip <$> project) in *.
    set (cached := (Mcp.sessions service).1).
    assert (∀ name, name ∈ first_seen (Tools.project_name_of <$> filter (in_project pf) cached) →
                    ∃ s, s ∈ cached ∧ in_project pf s ∧ Tools.project_name_of s = name)
      as Hkeys.
    { intros name (s & -> & Hs)%first_seen_elem_of%list_elem_of_fmap.
      apply list_elem_of_filter in Hs as [Hin Hs]. eauto. }
    split; [|split; [|split]].
    + unfold Tools.get_project_patterns, cached, pf in *. destruct project as [p|].
      * specialize (Hvalid p eq_refl).
        change (py_strip <$> Some p) with (Some (py_strip p)) in *.
        destruct (py_strip p) as [|c rest]; [done|].
        unfold Mcp.sessions. cbn [fst]. by rewrite patterns_loop.
      * change (py_strip <$> None) with (@None string) in *.
        unfold Mcp.sessions. cbn [fst]. by rewrite patterns_loop.
    + intros name stats Hin. unfold project_patterns in Hin.
      apply list_elem_of_fmap in Hin as (name' & [= -> ->] & Hname).
      cbn [Tools.ps_session_count]. split.
      * destruct (Hkeys _ Hname) as (s & Hs & Hin & Hpn).
        assert (s ∈ filter (λ s0, Tools.project_name_of s0 = name')
                           (filter (in_project pf) cached)) as Hmine.
        { apply list_elem_of_filter. split; [done|]. by apply list_elem_of_filter. }
        destruct (filter _ (filter (in_project pf) cached)); [by apply elem_of_nil in Hmine|].
        cbn [length]. lia.
      * intros p ->. destruct (Hkeys _ Hname) as (s & _ & Hin & Hpn).
        unfold pf in Hin. cbn in Hin. congruence.
    + intros [p ->]. rewrite <- (length_fmap fst), project_patterns_keys.
      apply (NoDup_constant (py_strip p)); [apply first_seen_NoDup|].
      intros name Hname. destruct (Hkeys _ Hname) as (s & _ & Hin & Hpn).
      unfold pf in Hin. cbn in Hin. congruence.
    + intros _. fold cached. unfold project_patterns.
      rewrite <- !list_fmap_compose.
      rewrite (list_fmap_ext _ (λ name, occ name (Tools.project_name_of <$> cached))
                 (first_seen (Tools.project_name_of <$> cached))).
      * rewrite sum_occ; [by rewrite length_fmap|apply first_seen_NoDup|].
        intros x. by rewrite first_seen_elem_of.
      * intros i name _. cbn. apply occ_fmap_filter.
Qed.

Lemma project_patterns_spec_witness :
  reply_results (Tools.get_project_patterns loaded_service (Some " testproject ")).1 =
    Some [("testproject", Tools.MkProjectStats 2 [("Read", 2)])].
Proof.
  destruct (proj2 (project_patterns_spec loaded_service (Some " testproject ")))
    as (Heq & _).
  - by intros p [= <-].
  - by rewrite Heq.
Defined.


Lemma summary_tools_fold (msgs : list Message) : ∀ acc,
  foldl (λ acc message,
           foldl (λ acc tool_use,
                    let tool_name := py_strip (tool tool_use) in
                    if str_truthy tool_name then acc ++ [tool_name] else acc)
                 acc (tool_uses message))
        acc msgs =
  acc ++ (msgs ≫= λ msg, omap tool_name_of (tool_uses msg)).
Proof.
  induction msgs as [|msg msgs IH]; intros acc; [by rewrite app_nil_r|].
  cbn [foldl mbind list_bind]. rewrite IH, app_assoc. f_equal.
  generalize (tool_uses msg). intros tus. revert acc.
  induction tus as [|tu tus IHt]; intros acc; [by rewrite app_nil_r|].
  cbn [foldl omap list_omap]. rewrite IHt. unfold tool_name_of at 2.
  destruct (str_truthy (py_strip (tool tu))); [|done].
  by rewrite <- app_assoc.
Qed.

Lemma session_tool_seq_names s : session_tool_seq s = _tool_node <$> tool_names s.
Proof.
  unfold session_tool_seq, tool_names.
  induction (get_messages s) as [|msg msgs IH]; [done|].
  cbn [mbind list_bind]. rewrite fmap_app, IH. f_equal.
  induction (tool_uses msg) as [|tu tus IHt]; [done|].
  cbn [mbind list_bind omap list_omap]. unfold tool_use_node at 1, tool_name_of at 1.
  destruct (str_truthy (py_strip (tool tu))); cbn [app fmap list_fmap]; by rewrite IHt.
Qed.

Lemma tool_names_trimmed s t :
  t ∈ tool_names s → t ≠ EmptyString ∧ py_strip t = t.
Proof.
  unfold tool_names. intros (msg & Ht & _)%list_elem_of_bind.
  apply list_elem_of_omap in Ht as (tu & _ & Ht). unfold tool_name_of in Ht.
  destruct (str_truthy (py_strip (tool tu))) eqn:E; [|done]. injection Ht as <-.
  split; [|apply py_strip_idem]. intros Hnil. by rewrite Hnil in E.
Qed.

(** X19. The summary of a session lists its first 20 tool names, each
    trimmed and not empty, in order of use; these name the first 20
    nodes of the tool sequence that the graph index reads from the
    session. The message count is the number of messages, and the rank
    and the descriptive fields are passed through. *)
Theorem session_summary_tools (s : Session) (rank : option Z) :
  Mcp.sm_tool_sequence (Mcp._session_summary s rank) = take 20 (tool_names s) ∧
  (length (Mcp.sm_tool_sequence (Mcp._session_summary s rank)) ≤ 20)%nat ∧
  (∀ t, t ∈ Mcp.sm_tool_sequence (Mcp._session_summary s rank) →
        t ≠ EmptyString ∧ py_strip t = t) ∧
  _tool_node <$> Mcp.sm_tool_sequence (Mcp._session_summary s rank) =
    take 20 (session_tool_seq s) ∧
  Mcp.sm_message_count (Mcp._session_summary s rank) = length (get_messages s) ∧
  Mcp.sm_rank (Mcp._session_summary s rank) = rank.
Proof.
  assert (Mcp.sm_tool_sequence (Mcp._session_summary s rank) = take 20 (tool_names s))
    as Hseq.
  { unfold Mcp._session_summary. cbn [Mcp.sm_tool_sequence].
    by rewrite summary_tools_fold. }
  rewrite Hseq. split; [done|]. split; [|split; [|split; [|by split]]].
  - rewrite length_take. lia.
  - intros t Ht. apply (tool_names_trimmed s). by eapply subseteq_take.
  - by rewrite fmap_take, session_tool_seq_names.
Qed.

Lemma ensure_loaded_cases service :
  (loaded service ∧ Mcp._ensure_loaded service = service) ∨
  (¬ loaded service ∧ Mcp._ensure_loaded service = (Mcp.refresh service).2).
Proof.
  unfold Mcp._ensure_loaded, loaded. case_bool_decide as Hnone.
  - right. split; [|done]. intros [[? Hs] [? Hi]]. destruct Hnone; congruence.
  - left. split; [|done].
    destruct (Mcp._sessions service), (Mcp._index service); try (split; eauto; fail);
      exfalso; apply Hnone; auto.
Qed.

Lemma service_after_ensure classify_fn service c :
  service_after classify_fn service c = service ∨
  service_after classify_fn service c = Mcp._ensure_loaded service.
Proof.
  destruct c as [query k|context k|project| |sid]; cbn [service_after].
  - unfold Mcp.search_past_solutions.
    destruct (negb _); [by left|]. destruct (k <=? 0); [by left|]. by right.
  - unfold Mcp.find_similar_sessions. destruct (k <=? 0); [by left|].
    destruct (Mcp._parse_context_nodes context) as [nodes invalid].
    destruct nodes; [by left|by right].
  - unfold Tools.get_project_patterns.
    destruct project as [p|]; [|by right].
    cbn [fmap option_fmap option_map]. destruct (py_strip p); [by left|by right].
  - by right.
  - unfold Tools.get_session. destruct (negb _); [by left|].
    unfold Mcp.sessions. destruct (List.find _ _); by right.
Qed.

(** X20. The tools that read the cache load the service at most once
    and never reload it: after a call the service is as before or, when
    it was not loaded, as [refresh] leaves it, which is loaded; and a
    loaded service is left unchanged by any sequence of calls. *)
Theorem tools_keep_cache (classify_fn : Session → string)
    (service : Mcp.SessionIndexService) :
  (∀ c, service_after classify_fn service c = service ∨
        (¬ loaded service ∧
         service_after classify_fn service c = (Mcp.refresh service).2)) ∧
  loaded (Mcp.refresh service).2 ∧
  Mcp._refresh_count (Mcp.refresh service).2 = S (Mcp._refresh_count service) ∧
  (loaded service →
   ∀ calls, foldl (service_after classify_fn) service calls = service).
Proof.
  assert (∀ service c, service_after classify_fn service c = service ∨
        (¬ loaded service ∧
         service_after classify_fn service c = (Mcp.refresh service).2)) as Hstep.
  { intros sv c. destruct (service_after_ensure classify_fn sv c) as [->| ->]; [by left|].
    destruct (ensure_loaded_cases sv) as [[_ ->]|[Hn ->]]; [by left|by right]. }
  split; [apply Hstep|]. split; [|split; [done|]].
  - unfold loaded, Mcp.refresh. cbn. split; eauto.
  - intros Hl calls. induction calls as [|c calls IH]; [done|].
    cbn [foldl]. destruct (Hstep service c) as [->|[Hn _]]; [done|by destruct Hn].
Qed.


Lemma foldl_extend {A B} (f : A → list B) (l : list A) : ∀ acc,
  foldl (λ acc x, acc ++ f x) acc l = acc ++ (l ≫= f).
Proof.
  induction l as [|x l IH]; intros acc; [by rewrite app_nil_r|].
  cbn [foldl mbind list_bind]. by rewrite IH, app_assoc.
Qed.

Lemma refresh_sessions service :
  Mcp._sessions (Mcp.refresh service).2 = Some (discovered_sessions service).
Proof.
  unfold Mcp.refresh, discovered_sessions. cbn [snd Mcp._sessions].
  by rewrite foldl_extend.
Qed.

Lemma first_seen_length_le `{EqDecision A} (l : list A) :
  (length (first_seen l) ≤ length l)%nat.
Proof.
  apply submseteq_length, NoDup_submseteq; [apply first_seen_NoDup|].
  intros x. by rewrite first_seen_elem_of.
Qed.

Lemma built_sessions_size {G} {graph_ops : Graph G} (idx : GraphIndex G) ss :
  size (_sessions (build idx ss)) = length (first_seen (session_key <$> ss)).
Proof.
  unfold build. rewrite <- size_dom, add_sessions_dom. cbn [_sessions].
  rewrite dom_empty_L, (left_id_L ∅ (∪)).
  assert (list_to_set (session_key <$> ss) =@{gset string}
          list_to_set (first_seen (session_key <$> ss))) as ->.
  { apply set_eq. intros x. by rewrite !elem_of_list_to_set, first_seen_elem_of. }
  apply size_list_to_set, first_seen_NoDup.
Qed.

(** X21. [refresh_index] always succeeds with an empty result list and
    the action [index_refreshed]. It replaces the cache by the sessions
    of the discovered projects, in the order of discovery, and its
    [meta] reports their number, the number of projects and one more
    refresh. With the default index, the [sessions] entry of the index
    statistics counts each session identifier once, so it can be smaller
    than [session_count] and is never larger. *)
Theorem refresh_index_spec {G} {graph_ops : Graph G}
    (service : Mcp.SessionIndexService) :
  ∃ m,
    Tools.refresh_index service =
      (Mcp.OkPayload [] [("action", JStr "index_refreshed")] m,
       (Mcp.refresh service).2) ∧
    Mcp._sessions (Mcp.refresh service).2 = Some (discovered_sessions service) ∧
    Mcp.session_count m = length (discovered_sessions service) ∧
    Mcp.project_count m = length (Mcp._discover_projects service) ∧
    Mcp.refresh_count m = S (Mcp._refresh_count service) ∧
    (Mcp._graph_index_factory service = graph_index_factory (G:=G) →
     od_get "sessions" (Mcp.index_stats m) =
       Some (JInt (Z.of_nat
         (length (first_seen (session_key <$> discovered_sessions service))))) ∧
     (length (first_seen (session_key <$> discovered_sessions service))
      ≤ Mcp.session_count m)%nat).
Proof.
  exists (Mcp.refresh service).1.
  assert (Mcp.session_count (Mcp.refresh service).1 =
          length (discovered_sessions service)) as Hcount.
  { unfold Mcp.refresh, discovered_sessions. cbn. by rewrite foldl_extend. }
  split; [done|]. split; [apply refresh_sessions|]. split; [done|].
  split; [done|]. split; [done|].
  intros Hfactory. rewrite Hcount. split.
  - unfold Mcp.refresh. cbn [fst Mcp.meta Mcp._index Mcp.index_stats].
    rewrite Hfactory. unfold graph_index_factory, graph_index_obj. cbn [io_stats].
    unfold stats_dict, stats. cbn [st_sessions od_get String.eqb Ascii.eqb Bool.eqb].
    rewrite built_sessions_size, foldl_extend. done.
  - rewrite <- (length_fmap session_key). apply first_seen_length_le.
Qed.

Lemma refresh_index_spec_witness :
  ∃ m, Tools.refresh_index loaded_service =
         (Mcp.OkPayload [] [("action", JStr "index_refreshed")] m,
          (Mcp.refresh loaded_service).2) ∧
       Mcp.refresh_count m = 2%nat ∧
       od_get "sessions" (Mcp.index_stats m) =
         Some (JInt (Z.of_nat
           (length (first_seen (session_key <$> discovered_sessions loaded_service))))).
Proof.
  destruct (refresh_index_spec (G:=Nx.DiGraph) loaded_service)
    as (m & Heq & _ & _ & _ & Hrc & Hstats).
  exists m. split; [done|]. split; [done|]. by apply Hstats.
Defined.


Lemma py_split1_lower sep t : ∀ a b,
  py_split1 sep (py_lower t) = Some (a, b) → py_lower a = a ∧ py_lower b = b.
Proof.
  induction t as [|c t IH]; intros a b; [done|].
  cbn [py_lower py_split1]. destruct (Ascii.eqb (lower_char c) sep).
  - intros [= <- <-]. split; [done|apply py_lower_idem].
  - destruct (py_split1 sep (py_lower t)) as [[a' b']|]; [|done].
    intros [= <- <-]. destruct (IH a' b' eq_refl) as [Ha Hb].
    split; [|done]. cbn [py_lower]. by rewrite lower_char_idem, Ha.
Qed.

Lemma node_of_parts prefix v :
  prefix ∈ Mcp.allowed_prefixes → v ≠ EmptyString → py_strip v = v → py_lower v = v →
  _normalize_node (prefix +:+ ":" +:+ v) = prefix +:+ ":" +:+ v ∧
  token_node (prefix +:+ ":" +:+ v) = Some (prefix +:+ ":" +:+ v).
Proof.
  intros Hprefix Hne Hstrip Hlower.
  assert (py_rstrip v = v) as Hr.
  { rewrite <- Hstrip. unfold py_strip. apply py_rstrip_idem. }
  assert (∀ p, py_lstrip (p +:+ v) = p +:+ v → py_lower p = p →
               _normalize_node (p +:+ v) = p +:+ v) as Hnorm.
  { intros p Hl Hp. unfold _normalize_node, py_strip.
    by rewrite Hl, py_rstrip_app_fixed, py_lower_app, Hp, Hlower. }
  unfold Mcp.allowed_prefixes in Hprefix.
  apply elem_of_cons in Hprefix as [->|Hprefix];
    [|apply elem_of_cons in Hprefix as [->|Hprefix];
      [|apply list_elem_of_singleton in Hprefix as ->]].
  - change ("tool" +:+ ":" +:+ v) with ("tool:" +:+ v).
    pose proof (Hnorm "tool:" eq_refl eq_refl) as Hn. split; [done|].
    unfold token_node. rewrite py_lower_app, Hlower.
    replace (py_lower "tool:") with "tool:" by (by vm_compute).
    change (py_split1 ":" ("tool:" +:+ v)) with (Some ("tool", v)). cbn beta iota.
    rewrite Hstrip. rewrite bool_decide_eq_true_2; [done|].
    split; [|done]. unfold Mcp.allowed_prefixes. by left.
  - change ("file" +:+ ":" +:+ v) with ("file:" +:+ v).
    pose proof (Hnorm "file:" eq_refl eq_refl) as Hn. split; [done|].
    unfold token_node. rewrite py_lower_app, Hlower.
    replace (py_lower "file:") with "file:" by (by vm_compute).
    change (py_split1 ":" ("file:" +:+ v)) with (Some ("file", v)). cbn beta iota.
    rewrite Hstrip. rewrite bool_decide_eq_true_2; [done|].
    split; [|done]. unfold Mcp.allowed_prefixes. right. by left.
  - change ("error" +:+ ":" +:+ v) with ("error:" +:+ v).
    pose proof (Hnorm "error:" eq_refl eq_refl) as Hn. split; [done|].
    unfold token_node. rewrite py_lower_app, Hlower.
    replace (py_lower "error:") with "error:" by (by vm_compute).
    change (py_split1 ":" ("error:" +:+ v)) with (Some ("error", v)). cbn beta iota.
    rewrite Hstrip. rewrite bool_decide_eq_true_2; [done|].
    split; [|done]. unfold Mcp.allowed_prefixes. do 2 right. by left.
Qed.

Lemma token_node_parts t n :
  token_node t = Some n →
  ∃ prefix v, n = prefix +:+ ":" +:+ v ∧ prefix ∈ Mcp.allowed_prefixes ∧
              v ≠ EmptyString ∧ py_strip v = v ∧ py_lower v = v.
Proof.
  unfold token_node.
  destruct (py_split1 ":" (py_lower t)) as [[prefix value]|] eqn:E; [|done].
  case_bool_decide as Hok; [|done]. intros [= <-]. destruct Hok as [Hp Hv].
  exists prefix, (py_strip value). split; [done|]. split; [done|]. split; [done|].
  split; [apply py_strip_idem|].
  apply py_split1_lower in E as [_ Hl]. by rewrite <- py_strip_lower, Hl.
Qed.

(** X22. The nodes that [_parse_context_nodes] returns are distinct;
    each is an allowed prefix, a colon and a trimmed, non-empty value, is
    its own normal form as a graph node and parses to itself. The
    invalid tokens are trimmed, not empty, and name no node. *)
Theorem parsed_nodes_are_normal (context : string) :
  NoDup (Mcp._parse_context_nodes context).1 ∧
  (∀ n, n ∈ (Mcp._parse_context_nodes context).1 →
     (∃ prefix v, n = prefix +:+ ":" +:+ v ∧ prefix ∈ Mcp.allowed_prefixes ∧
                  v ≠ EmptyString ∧ py_strip v = v) ∧
     _normalize_node n = n ∧
     token_node n = Some n) ∧
  (∀ t, t ∈ (Mcp._parse_context_nodes context).2 →
     t ≠ EmptyString ∧ py_strip t = t ∧ token_node t = None).
Proof.
  rewrite parse_context_nodes_spec. cbn [fst snd]. split; [apply first_seen_NoDup|].
  split.
  - intros n Hn. apply first_seen_elem_of, list_elem_of_omap in Hn as (t & _ & Ht).
    apply token_node_parts in Ht as (prefix & v & -> & Hp & Hne & Hs & Hl).
    split; [by exists prefix, v|]. by apply node_of_parts.
  - intros t Ht. apply list_elem_of_filter in Ht as [Hnone Ht].
    unfold context_tokens in Ht. apply list_elem_of_filter in Ht as [Hne Ht].
    apply list_elem_of_fmap in Ht as (raw & -> & _).
    split; [done|]. split; [apply py_strip_idem|done].
Qed.


(** X23. The statistics of a built index count distinct things: the
    nodes are the distinct end points of the edges that the sessions
    insert, the edges are the distinct (source, destination) pairs, and
    the sessions are the distinct session identifiers; on both
    backends. *)
Theorem stats_count_distinct (o : set_order) (ss : list Session) :
  @stats _ nx_graph (nx_index ss) =
    MkStats (size (endpoints (ss ≫= session_edges)))
            (length (first_seen (ss ≫= session_edges).*1))
            (length (first_seen (session_key <$> ss))) true ∧
  @stats _ (pure_graph o) (pure_index o ss) =
    MkStats (size (endpoints (ss ≫= session_edges)))
            (length (first_seen (ss ≫= session_edges).*1))
            (length (first_seen (session_key <$> ss))) false.
Proof.
  set (es := ss ≫= session_edges).
  assert (_graph (nx_index ss) = nx_built es) as Hgn.
  { unfold nx_index, build. by rewrite add_sessions_graph. }
  assert (_graph (pure_index o ss) = pure_built o es) as Hgp.
  { unfold pure_index, build. by rewrite add_sessions_graph. }
  split.
  - unfold stats. rewrite Hgn. f_equal.
    + cbn [node_count nx_graph]. unfold Nx._node_count, Nx.number_of_nodes.
      by rewrite nx_built_node.
    + apply (@insert_edges_count_fresh _ nx_graph nx_graph_laws es).
    + apply (built_sessions_size (G:=Nx.DiGraph)).
  - unfold stats. rewrite Hgp. f_equal.
    + cbn [node_count pure_graph]. unfold Pure._node_count, Pure.number_of_nodes.
      by rewrite pure_built_node.
    + apply (@insert_edges_count_fresh _ (pure_graph o) (pure_graph_laws o) es).
    + apply (@built_sessions_size _ (pure_graph o)).
Qed.


(** X24. With a graph index behind the service and a positive limit, a
    successful [find_similar_sessions] returns at most [max_results]
    summaries; the summary at position [i] has rank [i + 1] and
    summarises a session stored in the index under an identifier that
    contributes to one of the parsed context nodes or to a neighbor of
    one. *)
Theorem find_similar_sessions_on_graph_index {G} {graph_ops : Graph G}
    (idx : GraphIndex G) (service : Mcp.SessionIndexService)
    (context : string) (max_results : Z)
    (results : list Mcp.Summary) (kwargs : list (string * jval)) (meta : Mcp.Meta) :
  (Mcp.index service).1 = Some (graph_index_obj idx) →
  0 < max_results →
  (Mcp.find_similar_sessions service context max_results).1 =
    Mcp.OkPayload results kwargs meta →
  Z.of_nat (length results) ≤ max_results ∧
  ∀ i r, results !! i = Some r →
    ∃ s sid node,
      r = Mcp._session_summary s (Some (Z.of_nat i + 1)) ∧
      _sessions idx !! sid = Some s ∧
      node ∈ (Mcp._parse_context_nodes context).1 ∧
      (sid ∈ contributors idx node ∨
       ∃ nb, nb ∈ neighbors (_graph idx) node ∧ sid ∈ contributors idx nb).
Proof.
  intros Hidx Hk. unfold Mcp.find_similar_sessions.
  destruct (Z.leb_spec max_results 0) as [|_]; [lia|].
  pose proof (parse_context_nodes_spec context) as Hparse.
  destruct (Mcp._parse_context_nodes context) as [nodes invalid] eqn:Ep.
  injection Hparse as Hnodes Hinvalid. cbn [fst].
  destruct nodes as [|n nodes']; [done|]. set (nodes := n :: nodes') in *.
  destruct (Mcp.index service) as [oidx service'] eqn:Eidx. cbn [fst] in Hidx.
  subst oidx. cbn [fst]. change (io_query (graph_index_obj idx)) with (query idx).
  intros [= <- _ _]. rewrite length_imap.
  split; [exact (query_length idx nodes max_results ltac:(lia))|].
  intros i r Hr. rewrite list_lookup_imap in Hr.
  change (omap _ _) with (query idx nodes max_results) in Hr.
  destruct (query idx nodes max_results !! i) as [s|] eqn:Es; [|done].
  injection Hr as <-.
  destruct (query_origin idx nodes max_results s) as (sid & node & Hs & Hnode & Horigin);
    [by eapply list_elem_of_lookup_2|].
  assert (_normalize_node node = node) as Hnorm.
  { rewrite Hnodes in Hnode.
    apply first_seen_elem_of, list_elem_of_omap in Hnode as (t & _ & Ht).
    apply token_node_parts in Ht as (prefix & v & -> & Hp & Hne & Hstrip & Hl).
    by apply node_of_parts. }
  rewrite Hnorm in Horigin. exists s, sid, node. done.
Qed.

Lemma find_similar_sessions_on_graph_index_witness :
  Z.of_nat (length [Mcp._session_summary (sample_session "s1" ["Read"]) (Some 1);
                    Mcp._session_summary (sample_session "s2" ["Read"]) (Some 2)]) ≤ 5.
Proof.
  refine (proj1 (find_similar_sessions_on_graph_index two_readers loaded_service
                   " Tool:READ , nonsense" 5 _ _ _ _ _ _)).
  - done.
  - done.
  - by vm_compute.
Defined.
